(** * Karaoke performance analysis: pitch scoring, alignment and vibrato gates

    A shallow embedding of [AI_CORE/scorer.py], [AI_CORE/performance.py],
    [KaraokeApp._align_pitch] and [KaraokeApp.analyze_performance] of
    [AI_CORE/karaoke_app.py], the [AudioBuffer] of [AI_CORE/recorder.py], the
    statistics of [AI_CORE/session.py] and the target pitch store of
    [AI_CORE/song_manager.py].

    Numeric model.  A contour sample is a frequency in Hz or NaN (the
    "absent" marker), so a one-dimensional pitch array is a list of
    [option R].  Scalars computed from samples live in [float]: a real
    number, NaN, or a signed infinity, with the IEEE-754 rules for NaN and
    infinity and exact real arithmetic on finite values (no rounding, no
    overflow, one zero).  Python exceptions are the [Raise] results of the
    [result] monad.  The numpy and scipy routines the code calls
    ([np.correlate], [find_peaks], [savgol_filter], [interp1d]) are written
    out from their documented behaviour on one-dimensional arrays.

    Exact arithmetic stands for double precision only where the latter
    neither overflows nor rounds across a comparison.  Where a conclusion
    would otherwise fail on double precision numbers, the theorem carries a
    hypothesis on the magnitudes or a margin around the threshold compared
    with; [B64] evaluates the accuracy analysis on double precision numbers
    where the two differ. *)

From Stdlib Require Import String Ascii.
From Stdlib Require Import Reals Lra Lia List Bool Arith PeanoNat.
From Stdlib Require Import ZArith QArith Qreals.
From Stdlib Require Import Permutation Sorted.
From Stdlib Require Import SpecFloat.
Import ListNotations.

Local Open Scope R_scope.

(** ** Exceptions *)

Inductive exn : Type :=
| ValueError
| IndexError.

Inductive result (A : Type) : Type :=
| Ok (a : A)
| Raise (e : exn).

Arguments Ok {A} a.
Arguments Raise {A} e.

Definition bind {A B : Type} (c : result A) (k : A -> result B) : result B :=
  match c with
  | Ok a => k a
  | Raise e => Raise e
  end.

Notation "x <- c ;; k" := (bind c (fun x => k))
  (at level 61, c at next level, right associativity).

(** ** Floating-point scalars *)

Inductive float : Type :=
| NaN
| NInf
| Fin (x : R)
| PInf.

Definition Rltb (x y : R) : bool := if Rlt_dec x y then true else false.
Definition Rleb (x y : R) : bool := if Rle_dec x y then true else false.
Definition Reqb (x y : R) : bool := if Req_dec_T x y then true else false.

Definition fneg (a : float) : float :=
  match a with
  | NaN => NaN
  | NInf => PInf
  | Fin x => Fin (- x)
  | PInf => NInf
  end.

Definition fadd (a b : float) : float :=
  match a, b with
  | NaN, _ | _, NaN => NaN
  | PInf, NInf | NInf, PInf => NaN
  | PInf, _ | _, PInf => PInf
  | NInf, _ | _, NInf => NInf
  | Fin x, Fin y => Fin (x + y)
  end.

Definition fsub (a b : float) : float := fadd a (fneg b).

(** Sign of a float as seen by multiplication and division: [Some true]
    for negative, [Some false] for positive, [None] for zero or NaN. *)
Definition fsign (a : float) : option bool :=
  match a with
  | NaN => None
  | NInf => Some true
  | PInf => Some false
  | Fin x => if Rlt_dec x 0 then Some true
             else if Rlt_dec 0 x then Some false else None
  end.

Definition signed_inf (neg : bool) : float := if neg then NInf else PInf.

Definition fmul (a b : float) : float :=
  match a, b with
  | NaN, _ | _, NaN => NaN
  | Fin x, Fin y => Fin (x * y)
  | _, _ =>
      match fsign a, fsign b with
      | Some s, Some t => signed_inf (xorb s t)
      | _, _ => NaN
      end
  end.

Definition fdiv (a b : float) : float :=
  match a, b with
  | NaN, _ | _, NaN => NaN
  | Fin x, Fin y =>
      if Req_dec_T y 0
      then match fsign a with
           | Some s => signed_inf s
           | None => NaN
           end
      else Fin (x / y)
  | Fin _, _ => Fin 0
  | _, Fin y => match fsign a with
                | Some s => signed_inf (xorb s (Rltb y 0))
                | None => NaN
                end
  | _, _ => NaN
  end.

Definition fabs (a : float) : float :=
  match a with
  | NaN => NaN
  | NInf | PInf => PInf
  | Fin x => Fin (Rabs x)
  end.

Definition fsqrt (a : float) : float :=
  match a with
  | NaN | NInf => NaN
  | PInf => PInf
  | Fin x => if Rlt_dec x 0 then NaN else Fin (sqrt x)
  end.

Definition log2 (x : R) : R := ln x / ln 2.

Definition flog2 (a : float) : float :=
  match a with
  | NaN | NInf => NaN
  | PInf => PInf
  | Fin x => if Rlt_dec x 0 then NaN
             else if Rlt_dec 0 x then Fin (log2 x) else NInf
  end.

(** Comparisons are false as soon as one side is NaN. *)
Definition flt (a b : float) : bool :=
  match a, b with
  | NaN, _ | _, NaN => false
  | _, NInf | PInf, _ => false
  | NInf, _ | _, PInf => true
  | Fin x, Fin y => Rltb x y
  end.

Definition fle (a b : float) : bool :=
  match a, b with
  | NaN, _ | _, NaN => false
  | NInf, _ | _, PInf => true
  | _, NInf | PInf, _ => false
  | Fin x, Fin y => Rleb x y
  end.

(** Python's two-argument [min] and [max]: the second argument wins only
    when the comparison with the first one is true. *)
Definition py_min (a b : float) : float := if flt b a then b else a.
Definition py_max (a b : float) : float := if flt a b then b else a.

(** ** Arrays *)

Definition sample := option R.
Definition array := list sample.

Definition of_sample (s : sample) : float :=
  match s with
  | Some x => Fin x
  | None => NaN
  end.

Definition isnan (s : sample) : bool :=
  match s with
  | Some _ => false
  | None => true
  end.

Fixpoint map2 {A B C : Type} (f : A -> B -> C) (xs : list A) (ys : list B)
  : list C :=
  match xs, ys with
  | x :: xs', y :: ys' => f x y :: map2 f xs' ys'
  | _, _ => []
  end.

(** Elementwise binary operation on one-dimensional arrays, with numpy's
    broadcasting: equal lengths, or one side of length one. *)
Definition broadcast {A B C : Type} (f : A -> B -> C)
  (xs : list A) (ys : list B) : result (list C) :=
  if Nat.eqb (length xs) (length ys) then Ok (map2 f xs ys)
  else match xs, ys with
       | [x], _ => Ok (map (f x) ys)
       | _, [y] => Ok (map (fun x => f x y) xs)
       | _, _ => Raise ValueError
       end.

(** [a[mask]] for a boolean mask. *)
Fixpoint compress {A : Type} (a : list A) (mask : list bool) : list A :=
  match a, mask with
  | x :: a', b :: mask' =>
      if b then x :: compress a' mask' else compress a' mask'
  | _, _ => []
  end.

Definition bool_index {A : Type} (a : list A) (mask : list bool)
  : result (list A) :=
  if Nat.eqb (length a) (length mask) then Ok (compress a mask)
  else Raise IndexError.

(** [np.sum] of a boolean array. *)
Definition count_true (mask : list bool) : nat :=
  length (filter (fun b => b) mask).

Definition fsum (xs : list float) : float := fold_right fadd (Fin 0) xs.

(** [np.mean]: the sum over the length; NaN on an empty array (0/0). *)
Definition fmean (xs : list float) : float :=
  fdiv (fsum xs) (Fin (INR (length xs))).

(** [np.std] (population standard deviation). *)
Definition fstd (xs : list float) : float :=
  let m := fmean xs in
  fsqrt (fmean (map (fun x => let d := fabs (fsub x m) in fmul d d) xs)).

(** ** scorer.py *)

Module Scorer.

Definition score_pitch (user_pitch target_pitch : array) : result float :=
  if negb (Nat.eqb (length user_pitch) (length target_pitch))
  then Raise ValueError
  else
    mask <- broadcast (fun u t => negb (isnan u) && negb (isnan t))
              user_pitch target_pitch ;;
    user_valid <- bool_index user_pitch mask ;;
    target_valid <- bool_index target_pitch mask ;;
    d <- broadcast fsub (map of_sample user_valid)
           (map of_sample target_valid) ;;
    let diff := map fabs d in
    if Nat.eqb (length diff) 0 then Ok (Fin 0)
    else
      let score := fsub (Fin 100) (fmul (fmean diff) (Fin 0.5)) in
      Ok (py_max (Fin 0) (py_min (Fin 100) score)).

End Scorer.

(** ** performance.py *)

Record PitchMetrics : Type := mkPitchMetrics {
  mean_error_hz : float;
  std_error_hz : float;
  accuracy : float;
  stability : float;
  voiced_frames : nat;
  total_frames : nat
}.

Record VibratoMetrics : Type := mkVibratoMetrics {
  detected : bool;
  frequency_hz : option float;
  depth_cents : option float;
  coverage : float
}.

(** [VibratoMetrics(detected=False)]: the dataclass defaults fill the rest. *)
Definition not_detected : VibratoMetrics :=
  mkVibratoMetrics false None None (Fin 0).

(** The [notes] dictionary of feedback sentences is left out of the report. *)
Record ScoreReport : Type := mkScoreReport {
  total_score : float;
  pitch_metrics : PitchMetrics;
  vibrato_metrics : VibratoMetrics;
  duration : float
}.

(** *** numpy and scipy helpers used by the analyzer *)

Definition feq (a b : float) : bool :=
  match a, b with
  | NInf, NInf | PInf, PInf => true
  | Fin x, Fin y => Reqb x y
  | _, _ => false
  end.

(** [np.max]: NaN as soon as one entry is NaN. *)
Definition fmax2 (a b : float) : float :=
  match a, b with
  | NaN, _ | _, NaN => NaN
  | _, _ => if flt a b then b else a
  end.

Definition fmax_list (xs : list float) : float :=
  match xs with
  | [] => NaN
  | x :: xs' => fold_left fmax2 xs' x
  end.

(** [np.diff]. *)
Definition np_diff (xs : list float) : list float :=
  map2 fsub (tl xs) xs.

(** Entry of [np.correlate(a, v, mode='full')] at non-negative lag [k]:
    the sum of [a[i+k] * v[i]] over the overlap. *)
Definition correlate_lag (a v : list float) (k : nat) : float :=
  fsum (map2 fmul (skipn k a) v).

(** [np.correlate(a, a, mode='full')[len(.)//2:]] for an array of length
    [n]: the full correlation has [2n-1] entries, and the slice from
    [(2n-1)//2 = n-1] keeps lags [0 .. n-1]. *)
Definition autocorrelation (a : list float) : list float :=
  map (correlate_lag a a) (seq 0 (length a)).

(** [scipy.signal._peak_finding_utils._local_maxima_1d]: midpoints of the
    plateaus that are strictly higher than both neighbours. *)
Fixpoint look_ahead (x : list float) (xi : float) (i_max fuel i_ahead : nat)
  : nat :=
  match fuel with
  | O => i_ahead
  | S fuel' =>
      if Nat.ltb i_ahead i_max && feq (nth i_ahead x NaN) xi
      then look_ahead x xi i_max fuel' (S i_ahead)
      else i_ahead
  end.

Fixpoint local_maxima_loop (x : list float) (i_max fuel i : nat) : list nat :=
  match fuel with
  | O => []
  | S fuel' =>
      if Nat.ltb i i_max then
        if flt (nth (i - 1) x NaN) (nth i x NaN) then
          let i_ahead := look_ahead x (nth i x NaN) i_max (length x) (i + 1) in
          if flt (nth i_ahead x NaN) (nth i x NaN)
          then ((i + (i_ahead - 1)) / 2)%nat
                 :: local_maxima_loop x i_max fuel' (i_ahead + 1)
          else local_maxima_loop x i_max fuel' (i + 1)
        else local_maxima_loop x i_max fuel' (i + 1)
      else []
  end.

Definition local_maxima_1d (x : list float) : list nat :=
  local_maxima_loop x (length x - 1) (length x) 1.

(** [scipy.signal.find_peaks(x, height=h)[0]]: the local maxima whose
    value is at least [h]. *)
Definition find_peaks (x : list float) (height : R) : list nat :=
  filter (fun p => fle (Fin height) (nth p x NaN)) (local_maxima_1d x).

(** ** scipy.signal.savgol_filter, mode='interp'

    Modelled from scipy's documentation: each output sample is the value
    of the least-squares polynomial of degree [polyorder] fitted to a
    window of [window_length] input samples; the window is centred on the
    sample, except within half a window of either end, where the polynomial
    fitted to the first (last) [window_length] samples is evaluated.  The
    fit is written through the Gram polynomials, which are orthogonal on
    the window's points, so its weights are exact rationals.  Odd window
    lengths only (the ones [detect_vibrato] passes). *)

(** Monic Gram polynomials on [N] points centred on 0:
    [G_(d+1)(k) = k G_d(k) - d^2 (N^2 - d^2) / (4 (4 d^2 - 1)) G_(d-1)(k)].
    The result is the pair of degrees [d] and [d-1]. *)
Fixpoint gram (N : Z) (d : nat) (k : Q) : Q * Q :=
  match d with
  | O => (1%Q, 0%Q)
  | S d' =>
      let '(g, g') := gram N d' k in
      let dd := Z.of_nat d' in
      let beta :=
        (inject_Z (dd * dd * (N * N - dd * dd))
         / inject_Z (4 * (4 * dd * dd - 1)))%Q in
      (Qred (k * g - beta * g')%Q, g)
  end.

(** Abscissa of window position [i], the window's centre being 0. *)
Definition window_point (window_length i : nat) : Q :=
  inject_Z (Z.of_nat i - Z.of_nat (window_length / 2)).

Definition gram_at (window_length d i : nat) : Q :=
  fst (gram (Z.of_nat window_length) d (window_point window_length i)).

Definition Qsum (l : list Q) : Q :=
  fold_right (fun a b => Qred (a + b)%Q) 0%Q l.

Definition gram_norm (window_length d : nat) : Q :=
  Qsum (map (fun i => let g := gram_at window_length d i in (g * g)%Q)
          (seq 0 window_length)).

(** Weights of the window's samples in the fitted value at position [j]. *)
Definition fit_weights (window_length polyorder j : nat) : list Q :=
  let norms := map (gram_norm window_length) (seq 0 (S polyorder)) in
  map (fun i =>
         Qsum (map2 (fun d nrm =>
                       (gram_at window_length d j * gram_at window_length d i
                        / nrm)%Q)
                 (seq 0 (S polyorder)) norms))
    (seq 0 window_length).

Definition savgol_fit (window_length polyorder : nat) (window : list float)
  (j : nat) : float :=
  fsum (map2 (fun c v => fmul (Fin (Q2R c)) v)
          (fit_weights window_length polyorder j) window).

Definition savgol_filter (x : list float) (window_length polyorder : nat)
  : option (list float) :=
  let n := length x in
  let half := (window_length / 2)%nat in
  if Nat.even window_length || Nat.leb window_length polyorder
     || Nat.ltb n window_length
  then None
  else
    Some (map (fun i =>
                 if Nat.ltb i half
                 then savgol_fit window_length polyorder
                        (firstn window_length x) i
                 else if Nat.leb (n - half) i
                 then savgol_fit window_length polyorder
                        (skipn (n - window_length) x)
                        (i - (n - window_length))
                 else savgol_fit window_length polyorder
                        (firstn window_length (skipn (i - half) x)) half)
            (seq 0 n)).

Section PerformanceAnalyzer.

(** The constructor arguments of [PerformanceAnalyzer]. *)
Variable pitch_tolerance_cents : R.
Variable vibrato_freq_range : R * R.
Variable min_vibrato_depth : R.

Definition analyze_pitch_accuracy (user_pitch target_pitch : array)
  (time : list R) : result PitchMetrics :=
  mask <- broadcast (fun u t => negb (isnan u) && negb (isnan t))
            user_pitch target_pitch ;;
  if Nat.eqb (count_true mask) 0 then
    Ok (mkPitchMetrics NaN NaN (Fin 0) (Fin 0) 0 (length user_pitch))
  else
    user_valid <- bool_index (map of_sample user_pitch) mask ;;
    target_valid <- bool_index (map of_sample target_pitch) mask ;;
    d <- broadcast fsub user_valid target_valid ;;
    let error_hz := map fabs d in
    q <- broadcast fdiv user_valid target_valid ;;
    let error_cents :=
      map fabs (map (fun r => fmul (Fin 1200) (flog2 r)) q) in
    let within :=
      map (fun e => flt e (Fin pitch_tolerance_cents)) error_cents in
    let accuracy :=
      fdiv (fmul (Fin 100) (Fin (INR (count_true within))))
           (Fin (INR (length error_cents))) in
    let variation :=
      fdiv (fstd error_hz) (fadd (fmean error_hz) (Fin 1e-6)) in
    let stability := fdiv (Fin 1) (fadd (Fin 1) variation) in
    Ok (mkPitchMetrics (fmean error_hz) (fstd error_hz) accuracy stability
          (count_true mask) (length user_pitch)).

(** [int(0.5 * len(residual))]. *)
Definition max_lag (residual : list float) : nat :=
  (length residual / 2)%nat.

Definition detect_vibrato (pitch : array) (time : list R)
  : result VibratoMetrics :=
  let mask := map (fun p => negb (isnan p)) pitch in
  if Nat.ltb (count_true mask) 100 then Ok not_detected
  else
    valid_pitch <- bool_index (map of_sample pitch) mask ;;
    valid_time <- bool_index (map Fin time) mask ;;
    let smoothed :=
      match savgol_filter valid_pitch
              (Nat.min 51 (length valid_pitch / 2 * 2 + 1)) 3 with
      | Some s => s
      | None => valid_pitch
      end in
    residual <- broadcast fsub valid_pitch smoothed ;;
    if Nat.ltb (max_lag residual) 10 then Ok not_detected
    else
      let centred := map (fun r => fsub r (fmean residual)) residual in
      let autocorr := autocorrelation centred in
      let autocorr := map (fun c => fdiv c (nth 0 autocorr NaN)) autocorr in
      let peaks := find_peaks (firstn (max_lag residual) autocorr) 0.3 in
      match peaks with
      | [] => Ok not_detected
      | best_lag :: _ =>
          let sr := fdiv (Fin 1) (fmean (np_diff valid_time)) in
          let vibrato_freq := fdiv sr (Fin (INR best_lag)) in
          if negb (fle (Fin (fst vibrato_freq_range)) vibrato_freq
                   && fle vibrato_freq (Fin (snd vibrato_freq_range)))
          then Ok not_detected
          else
            let vibrato_depth :=
              fmul (Fin 1200)
                (flog2 (fdiv (fmax_list residual) (fmean smoothed))) in
            if flt (fabs vibrato_depth) (Fin min_vibrato_depth)
            then Ok not_detected
            else
              let residual_std := fstd residual in
              let above :=
                map (fun r => flt residual_std (fabs r)) residual in
              let coverage :=
                fdiv (fmul (Fin 100) (Fin (INR (count_true above))))
                     (Fin (INR (length residual))) in
              Ok (mkVibratoMetrics true (Some vibrato_freq)
                    (Some (fabs vibrato_depth)) coverage)
      end.

(** [scorer] is [None] or an object whose [score_pitch] method is the
    given function. *)
Definition generate_report (user_pitch target_pitch : array)
  (time : list R) (scorer : option (array -> array -> result float))
  : result ScoreReport :=
  pitch_metrics <- analyze_pitch_accuracy user_pitch target_pitch time ;;
  vibrato_metrics <- detect_vibrato user_pitch time ;;
  base_score <-
    match scorer with
    | Some score => score user_pitch target_pitch
    | None => Ok (accuracy pitch_metrics)
    end ;;
  let vibrato_bonus :=
    if detected vibrato_metrics then Fin 5 else Fin 0 in
  let stability_bonus := fmul (stability pitch_metrics) (Fin 10) in
  let total_score :=
    py_min (Fin 100) (fadd (fadd base_score vibrato_bonus) stability_bonus) in
  let total_score := py_max (Fin 0) total_score in
  let duration :=
    if Nat.ltb 0 (length time)
    then Fin (last time 0 - hd 0 time)
    else Fin 0 in
  Ok (mkScoreReport total_score pitch_metrics vibrato_metrics duration).

End PerformanceAnalyzer.

(** ** karaoke_app.py *)

(** *** scipy.interpolate.interp1d, kind='linear', fill_value='extrapolate' *)

(** The constructor sorts the knots by abscissa with a stable sort. *)
Fixpoint insert_knot (k : R * float) (l : list (R * float))
  : list (R * float) :=
  match l with
  | [] => [k]
  | h :: t => if Rlt_dec (fst h) (fst k) then h :: insert_knot k t
              else k :: h :: t
  end.

Definition sort_knots (l : list (R * float)) : list (R * float) :=
  fold_right insert_knot [] l.

(** [np.searchsorted(x, v)] on a sorted array: the first index whose entry
    is not below [v]. *)
Fixpoint searchsorted (x : list R) (v : R) : nat :=
  match x with
  | [] => O
  | h :: t => if Rlt_dec h v then S (searchsorted t v) else O
  end.

(** The straight line through two knots, in the order of operations of
    [interp1d._call_linear]. *)
Definition line_through (lo hi : R * float) (x_new : R) : float :=
  let slope := fdiv (fsub (snd hi) (snd lo)) (Fin (fst hi - fst lo)) in
  fadd (fmul slope (Fin (x_new - fst lo))) (snd lo).

Definition interp1d (x : list R) (y : list float) (x_new : R) : float :=
  let knots := sort_knots (combine x y) in
  let idx :=
    Nat.min (Nat.max (searchsorted (map fst knots) x_new) 1)
            (length knots - 1) in
  line_through (nth (idx - 1) knots (0, NaN)) (nth idx knots (0, NaN)) x_new.

Module KaraokeApp.

(** [aligned[aligned < 50] = nan; aligned[aligned > 2000] = nan]. *)
Definition clip_range (aligned : list float) : list float :=
  let aligned := map (fun a => if flt a (Fin 50) then NaN else a) aligned in
  map (fun a => if flt (Fin 2000) a then NaN else a) aligned.

Definition _align_pitch (user_pitch : array) (user_time : list R)
  (target_pitch : array) (target_time : list R) : result (list float) :=
  let valid_mask := map (fun p => negb (isnan p)) user_pitch in
  if Nat.ltb (count_true valid_mask) 2
  then Ok (map (fun _ => NaN) target_pitch)
  else
    x <- bool_index user_time valid_mask ;;
    y <- bool_index (map of_sample user_pitch) valid_mask ;;
    let f := interp1d x y in
    let aligned := map f target_time in
    Ok (clip_range aligned).

End KaraokeApp.

(** ** Rational floats

    The same scalars over [Q], on which the functions above can be run on
    concrete contours; [embed] maps them into [float]. *)

Inductive qfloat : Type :=
| QNaN
| QNInf
| QFin (q : Q)
| QPInf.

Definition embed (a : qfloat) : float :=
  match a with
  | QNaN => NaN
  | QNInf => NInf
  | QFin q => Fin (Q2R q)
  | QPInf => PInf
  end.

Definition Qltb (x y : Q) : bool :=
  match (x ?= y)%Q with
  | Lt => true
  | _ => false
  end.

Definition qneg (a : qfloat) : qfloat :=
  match a with
  | QNaN => QNaN
  | QNInf => QPInf
  | QFin x => QFin (- x)%Q
  | QPInf => QNInf
  end.

Definition qadd (a b : qfloat) : qfloat :=
  match a, b with
  | QNaN, _ | _, QNaN => QNaN
  | QPInf, QNInf | QNInf, QPInf => QNaN
  | QPInf, _ | _, QPInf => QPInf
  | QNInf, _ | _, QNInf => QNInf
  | QFin x, QFin y => QFin (Qred (x + y)%Q)
  end.

Definition qsub (a b : qfloat) : qfloat := qadd a (qneg b).

Definition qsign (a : qfloat) : option bool :=
  match a with
  | QNaN => None
  | QNInf => Some true
  | QPInf => Some false
  | QFin x => if Qltb x 0 then Some true
              else if Qltb 0 x then Some false else None
  end.

Definition qsigned_inf (neg : bool) : qfloat := if neg then QNInf else QPInf.

Definition qmul (a b : qfloat) : qfloat :=
  match a, b with
  | QNaN, _ | _, QNaN => QNaN
  | QFin x, QFin y => QFin (Qred (x * y)%Q)
  | _, _ =>
      match qsign a, qsign b with
      | Some s, Some t => qsigned_inf (xorb s t)
      | _, _ => QNaN
      end
  end.

Definition qdiv (a b : qfloat) : qfloat :=
  match a, b with
  | QNaN, _ | _, QNaN => QNaN
  | QFin x, QFin y =>
      if Qeq_bool y 0
      then match qsign a with
           | Some s => qsigned_inf s
           | None => QNaN
           end
      else QFin (Qred (x / y)%Q)
  | QFin _, _ => QFin 0
  | _, QFin y => match qsign a with
                 | Some s => qsigned_inf (xorb s (Qltb y 0))
                 | None => QNaN
                 end
  | _, _ => QNaN
  end.

Definition qlt (a b : qfloat) : bool :=
  match a, b with
  | QNaN, _ | _, QNaN => false
  | _, QNInf | QPInf, _ => false
  | QNInf, _ | _, QPInf => true
  | QFin x, QFin y => Qltb x y
  end.

Definition qle (a b : qfloat) : bool :=
  match a, b with
  | QNaN, _ | _, QNaN => false
  | QNInf, _ | _, QPInf => true
  | _, QNInf | QPInf, _ => false
  | QFin x, QFin y => Qle_bool x y
  end.

Definition qeq (a b : qfloat) : bool :=
  match a, b with
  | QNInf, QNInf | QPInf, QPInf => true
  | QFin x, QFin y => Qeq_bool x y
  | _, _ => false
  end.

Definition qmax2 (a b : qfloat) : qfloat :=
  match a, b with
  | QNaN, _ | _, QNaN => QNaN
  | _, _ => if qlt a b then b else a
  end.

Definition qmax_list (xs : list qfloat) : qfloat :=
  match xs with
  | [] => QNaN
  | x :: xs' => fold_left qmax2 xs' x
  end.

Definition qsum (xs : list qfloat) : qfloat := fold_right qadd (QFin 0) xs.

Definition qnat (n : nat) : qfloat := QFin (inject_Z (Z.of_nat n)).

Definition qmean (xs : list qfloat) : qfloat :=
  qdiv (qsum xs) (qnat (length xs)).

Definition qdiff (xs : list qfloat) : list qfloat :=
  map2 qsub (tl xs) xs.

Definition qcorrelate_lag (a v : list qfloat) (k : nat) : qfloat :=
  qsum (map2 qmul (skipn k a) v).

Definition qautocorrelation (a : list qfloat) : list qfloat :=
  map (qcorrelate_lag a a) (seq 0 (length a)).

Fixpoint qlook_ahead (x : list qfloat) (xi : qfloat) (i_max fuel i_ahead : nat)
  : nat :=
  match fuel with
  | O => i_ahead
  | S fuel' =>
      if Nat.ltb i_ahead i_max && qeq (nth i_ahead x QNaN) xi
      then qlook_ahead x xi i_max fuel' (S i_ahead)
      else i_ahead
  end.

Fixpoint qlocal_maxima_loop (x : list qfloat) (i_max fuel i : nat)
  : list nat :=
  match fuel with
  | O => []
  | S fuel' =>
      if Nat.ltb i i_max then
        if qlt (nth (i - 1) x QNaN) (nth i x QNaN) then
          let i_ahead :=
            qlook_ahead x (nth i x QNaN) i_max (length x) (i + 1) in
          if qlt (nth i_ahead x QNaN) (nth i x QNaN)
          then ((i + (i_ahead - 1)) / 2)%nat
                 :: qlocal_maxima_loop x i_max fuel' (i_ahead + 1)
          else qlocal_maxima_loop x i_max fuel' (i + 1)
        else qlocal_maxima_loop x i_max fuel' (i + 1)
      else []
  end.

Definition qfind_peaks (x : list qfloat) (height : Q) : list nat :=
  filter (fun p => qle (QFin height) (nth p x QNaN))
    (qlocal_maxima_loop x (length x - 1) (length x) 1).

Definition qnormalised_autocorr (residual : list qfloat) : list qfloat :=
  let centred := map (fun r => qsub r (qmean residual)) residual in
  let autocorr := qautocorrelation centred in
  map (fun c => qdiv c (nth 0 autocorr QNaN)) autocorr.

Definition qvibrato_peaks (residual : list qfloat) : list nat :=
  qfind_peaks (firstn (length residual / 2)
                 (qnormalised_autocorr residual)) (3 # 10).

Definition qvibrato_frequency (valid_time : list qfloat) (best_lag : nat)
  : qfloat :=
  qdiv (qdiv (QFin 1) (qmean (qdiff valid_time))) (qnat best_lag).

Definition qsavgol_fit (window_length polyorder : nat) (window : list qfloat)
  (j : nat) : qfloat :=
  qsum (map2 (fun c v => qmul (QFin c) v)
          (fit_weights window_length polyorder j) window).

Definition qsavgol_filter (x : list qfloat) (window_length polyorder : nat)
  : option (list qfloat) :=
  let n := length x in
  let half := (window_length / 2)%nat in
  if Nat.even window_length || Nat.leb window_length polyorder
     || Nat.ltb n window_length
  then None
  else
    Some (map (fun i =>
                 if Nat.ltb i half
                 then qsavgol_fit window_length polyorder
                        (firstn window_length x) i
                 else if Nat.leb (n - half) i
                 then qsavgol_fit window_length polyorder
                        (skipn (n - window_length) x)
                        (i - (n - window_length))
                 else qsavgol_fit window_length polyorder
                        (firstn window_length (skipn (i - half) x)) half)
            (seq 0 n)).

(** ** A contour on which the depth gate lets NaN through

    One hundred voiced frames between 200 and 400 Hz, 10 ms apart; the
    values are in hundredths of a hertz and the second half mirrors the
    first. *)
Definition slip_half : list Z :=
  [20000; 22796; 25347; 27662; 29749; 31616; 33272; 34724; 35981; 37051;
   37942; 38662; 39220; 39623; 39881; 40000; 39990; 39858; 39613; 39262;
   38815; 38279; 37662; 36973; 36220; 35411; 34592; 33743; 32870; 31982;
   31085; 30186; 29293; 28413; 27551; 26745; 25141; 20000; 20000; 22741;
   23220; 22595; 22031; 21531; 21098; 20734; 20441; 20220; 20073; 20000]%Z.

Definition slip_hz : list Q :=
  map (fun z => Qmake z 100) (slip_half ++ rev slip_half).

Definition slip_seconds : list Q :=
  map (fun i => Qmake (Z.of_nat i) 100) (seq 0 100).

Definition slip_pitch : array := map (fun q => Some (Q2R q)) slip_hz.

Definition slip_time : list R := map Q2R slip_seconds.

(** The stages of [detect_vibrato] on that contour, over the rationals. *)
Definition slip_valid : list qfloat := map QFin slip_hz.

Definition slip_smoothed : list qfloat :=
  match qsavgol_filter slip_valid 51 3 with
  | Some s => s
  | None => slip_valid
  end.

Definition slip_residual : list qfloat := map2 qsub slip_valid slip_smoothed.

(** ** Reference definitions, written from the specification's wording *)

(** The frames in which both contours are present. *)
Fixpoint paired_frames (user target : array) : list (R * R) :=
  match user, target with
  | Some u :: user', Some t :: target' => (u, t) :: paired_frames user' target'
  | _ :: user', _ :: target' => paired_frames user' target'
  | _, _ => []
  end.

Definition Rsum (xs : list R) : R := fold_right Rplus 0 xs.

Definition Rmean (xs : list R) : R := Rsum xs / INR (length xs).

(** Mean absolute error in Hz over the paired frames. *)
Definition mean_abs_error (user target : array) : R :=
  Rmean (map (fun p => Rabs (fst p - snd p)) (paired_frames user target)).

Definition clamp (lo hi x : R) : R :=
  if Rlt_dec x lo then lo else if Rlt_dec hi x then hi else x.

(** A float that is a real number between two bounds. *)
Definition within (lo hi : R) (a : float) : Prop :=
  exists x, a = Fin x /\ lo <= x <= hi.

(** Piecewise-linear interpolation through knots of increasing abscissa:
    on each interval between two neighbouring knots the straight line
    through them, the first line prolonged to the left and the last one to
    the right. *)
Definition segment (p q : R * R) (t : R) : R :=
  snd p + (snd q - snd p) * (t - fst p) / (fst q - fst p).

Fixpoint piecewise_linear (knots : list (R * R)) (t : R) : R :=
  match knots with
  | p :: ((q :: rest) as tail) =>
      match rest with
      | [] => segment p q t
      | _ => if Rle_dec t (fst q) then segment p q t
             else piecewise_linear tail t
      end
  | _ => 0
  end.

(** The voiced points of a contour, as (time, frequency) pairs. *)
Fixpoint voiced_points (pitch : array) (time : list R) : list (R * R) :=
  match pitch, time with
  | Some f :: pitch', t :: time' => (t, f) :: voiced_points pitch' time'
  | None :: pitch', _ :: time' => voiced_points pitch' time'
  | _, _ => []
  end.

(** The plausibility filter: outside 50..2000 Hz a value becomes absent. *)
Definition plausible (v : R) : float :=
  if Rlt_dec v 50 then NaN else if Rlt_dec 2000 v then NaN else Fin v.

Fixpoint increasing (xs : list R) : Prop :=
  match xs with
  | x :: ((y :: _) as tail) => x < y /\ increasing tail
  | _ => True
  end.

(** ** Closed forms used to state what the analyzer computes *)

(** The mask of [score_pitch] and [analyze_pitch_accuracy], per frame. *)
Definition both_present (u t : sample) : bool :=
  negb (isnan u) && negb (isnan t).

(** Absolute Hz errors of the paired frames. *)
Definition abs_errors (user target : array) : list R :=
  map (fun p => Rabs (fst p - snd p)) (paired_frames user target).

(** Population standard deviation of a list of reals. *)
Definition Rstd (xs : list R) : R :=
  sqrt (Rmean (map (fun x => Rabs (x - Rmean xs) * Rabs (x - Rmean xs)) xs)).

(** The tolerance test of one paired frame: [|1200 * log2(u / t)| < tol]. *)
Definition cents_error (p : R * R) : float :=
  fabs (fmul (Fin 1200) (flog2 (fdiv (Fin (fst p)) (Fin (snd p))))).

Definition cents_within (tol : R) (p : R * R) : bool :=
  flt (cents_error p) (Fin tol).

(** The stages of [detect_vibrato], named after the source's variables. *)
Definition voiced_mask (pitch : array) : list bool :=
  map (fun p => negb (isnan p)) pitch.

Definition smooth (valid_pitch : list float) : list float :=
  match savgol_filter valid_pitch
          (Nat.min 51 (length valid_pitch / 2 * 2 + 1)) 3%nat with
  | Some s => s
  | None => valid_pitch
  end.

Definition normalised_autocorr (residual : list float) : list float :=
  let centred := map (fun r => fsub r (fmean residual)) residual in
  let autocorr := autocorrelation centred in
  map (fun c => fdiv c (nth 0 autocorr NaN)) autocorr.

Definition vibrato_peaks (residual : list float) : list nat :=
  find_peaks (firstn (max_lag residual) (normalised_autocorr residual)) 0.3.

Definition vibrato_frequency (valid_time : list float) (best_lag : nat)
  : float :=
  fdiv (fdiv (Fin 1) (fmean (np_diff valid_time))) (Fin (INR best_lag)).

Definition in_freq_range (range : R * R) (f : float) : bool :=
  fle (Fin (fst range)) f && fle f (Fin (snd range)).

Definition vibrato_depth (residual smoothed : list float) : float :=
  fmul (Fin 1200) (flog2 (fdiv (fmax_list residual) (fmean smoothed))).

Definition vibrato_coverage (residual : list float) : float :=
  fdiv (fmul (Fin 100)
          (Fin (INR (count_true
                       (map (fun r => flt (fstd residual) (fabs r)) residual)))))
       (Fin (INR (length residual))).

(** A voiced point as a knot of the interpolant. *)
Definition fin_knot (p : R * R) : R * float := (fst p, Fin (snd p)).

(** * Binary64 arithmetic

    The model above computes with exact reals: it neither rounds nor
    overflows.  This section states [analyze_pitch_accuracy] once more on
    IEEE-754 double precision numbers ([spec_float] at precision 53 and
    maximal exponent 1024, rounding to nearest even), as numpy computes it,
    to evaluate it where the two part ways.  [np.log2] comes from the C
    library and is kept as a parameter. *)

Module B64.

Definition prec : Z := 53.
Definition emax : Z := 1024.

Definition add : spec_float -> spec_float -> spec_float := SFadd prec emax.
Definition sub : spec_float -> spec_float -> spec_float := SFsub prec emax.
Definition mul : spec_float -> spec_float -> spec_float := SFmul prec emax.
Definition div : spec_float -> spec_float -> spec_float := SFdiv prec emax.
Definition sqrt : spec_float -> spec_float := SFsqrt prec emax.
Definition abs : spec_float -> spec_float := SFabs.
Definition ltb : spec_float -> spec_float -> bool := SFltb.

(** The double nearest to an integer, and to a decimal literal
    [num / den] whose two parts are doubles themselves. *)
Definition of_Z (z : Z) : spec_float := binary_normalize prec emax z 0 false.

Definition literal (num den : Z) : spec_float := div (of_Z num) (of_Z den).

Definition isnan (x : spec_float) : bool :=
  match x with
  | S754_nan => true
  | _ => false
  end.

(** numpy's pairwise summation of a contiguous array: a plain loop below
    8 entries, eight running sums up to 128 entries, two halves beyond.
    (The sign of a zero sum is not followed.) *)
Fixpoint accumulate8 (r a : list spec_float) (blocks : nat)
  : list spec_float :=
  match blocks with
  | O => r
  | S blocks' => accumulate8 (map2 add r (firstn 8 a)) (skipn 8 a) blocks'
  end.

Fixpoint pairwise_sum (fuel : nat) (a : list spec_float) : spec_float :=
  let n := length a in
  if Nat.ltb n 8 then fold_left add a (S754_zero false)
  else if Nat.leb n 128 then
    let r := accumulate8 (firstn 8 a) (skipn 8 a) (n / 8 - 1) in
    let r_ j := nth j r (S754_zero false) in
    let res :=
      add (add (add (r_ 0%nat) (r_ 1%nat)) (add (r_ 2%nat) (r_ 3%nat)))
          (add (add (r_ 4%nat) (r_ 5%nat)) (add (r_ 6%nat) (r_ 7%nat))) in
    fold_left add (skipn (n - n mod 8) a) res
  else
    match fuel with
    | O => S754_nan
    | S fuel' =>
        let n2 := (n / 2)%nat in
        let n2 := (n2 - n2 mod 8)%nat in
        add (pairwise_sum fuel' (firstn n2 a))
            (pairwise_sum fuel' (skipn n2 a))
    end.

(** [np.add.reduce]: the identity 0 plus the pairwise sum. *)
Definition np_sum (a : list spec_float) : spec_float :=
  add (S754_zero false) (pairwise_sum (length a) a).

Definition np_mean (a : list spec_float) : spec_float :=
  div (np_sum a) (of_Z (Z.of_nat (length a))).

(** [np.std]: the mean is subtracted, the differences are squared, and the
    square root is taken of the mean of the squares. *)
Definition np_std (a : list spec_float) : spec_float :=
  let arrmean := np_mean a in
  let x := map (fun v => sub v arrmean) a in
  let x := map (fun v => mul v v) x in
  sqrt (div (np_sum x) (of_Z (Z.of_nat (length a)))).

Record PitchMetrics : Type := mkPitchMetrics {
  mean_error_hz : spec_float;
  std_error_hz : spec_float;
  accuracy : spec_float;
  stability : spec_float;
  voiced_frames : nat;
  total_frames : nat
}.

Section PerformanceAnalyzer.

Variable np_log2 : spec_float -> spec_float.
Variable pitch_tolerance_cents : spec_float.

Definition analyze_pitch_accuracy (user_pitch target_pitch : list spec_float)
  (time : list spec_float) : result PitchMetrics :=
  mask <- broadcast (fun u t => negb (isnan u) && negb (isnan t))
            user_pitch target_pitch ;;
  if Nat.eqb (count_true mask) 0 then
    Ok (mkPitchMetrics S754_nan S754_nan (S754_zero false) (S754_zero false)
          0 (length user_pitch))
  else
    user_valid <- bool_index user_pitch mask ;;
    target_valid <- bool_index target_pitch mask ;;
    d <- broadcast sub user_valid target_valid ;;
    let error_hz := map abs d in
    q <- broadcast div user_valid target_valid ;;
    let error_cents :=
      map abs (map (fun r => mul (of_Z 1200) (np_log2 r)) q) in
    let within :=
      map (fun e => ltb e pitch_tolerance_cents) error_cents in
    let accuracy :=
      div (mul (of_Z 100) (of_Z (Z.of_nat (count_true within))))
          (of_Z (Z.of_nat (length error_cents))) in
    let variation :=
      div (np_std error_hz) (add (np_mean error_hz) (literal 1 1000000)) in
    let stability := div (of_Z 1) (add (of_Z 1) variation) in
    Ok (mkPitchMetrics (np_mean error_hz) (np_std error_hz) accuracy
          stability (count_true mask) (length user_pitch)).

End PerformanceAnalyzer.

End B64.


(** Contours of ordinary size, sampled at least a microsecond apart: on
    them the rounding error of the interpolation formula stays far below
    [margin] (it is at most a few units in the last place of the largest
    frequency). *)
Definition margin : R := 1e-6.

Fixpoint spaced (gap : R) (xs : list R) : Prop :=
  match xs with
  | x :: ((y :: _) as tail) => x + gap <= y /\ spaced gap tail
  | _ => True
  end.

Definition tame (pitch : array) (time : list R) : Prop :=
  Forall (fun s => match s with
                   | Some v => Rabs v <= 1e6
                   | None => True
                   end) pitch
  /\ Forall (fun t => Rabs t <= 1e6) time
  /\ spaced 1e-6 time.

(** * The rest of the application *)

(** ** karaoke_app.py: analyze_performance

    The aligned contour goes back into [generate_report] as an array.  A
    float array is an [array] when it holds no infinity; [_align_pitch]
    returns none (its last two statements turn every value outside
    50..2000 into NaN). *)
Definition as_array (a : list float) : array :=
  map (fun v => match v with Fin x => Some x | _ => None end) a.

(** [Visualizer.plot_pitch]: the call [plt.plot(time, pitch)] refuses two
    arrays of different lengths with a ValueError; the drawing itself is
    not modelled. *)
Definition plot_pitch {A B : Type} (time : list A) (pitch : list B)
  : result unit :=
  if Nat.eqb (length time) (length pitch) then Ok tt else Raise ValueError.

(** [analyze_performance] from the detected contour on: [user_pitch] and
    [user_time] are what [self.engine.detector.detect] returned,
    [target_pitch] and [target_time] the selected song's contour.  The
    analyzer is the [PerformanceAnalyzer()] of [__init__], with its default
    arguments, and the scorer the engine's [Scorer()].  The second plot
    gets the detected times with the pitch as it then is, aligned or
    not. *)
Definition analyze_performance (visualize : bool) (user_pitch : array)
  (user_time : list R) (target_pitch : array) (target_time : list R)
  : result ScoreReport :=
  user_pitch <-
    (if negb (Nat.eqb (length user_pitch) (length target_pitch))
     then
       aligned <- KaraokeApp._align_pitch user_pitch user_time
                    target_pitch target_time ;;
       Ok (as_array aligned)
     else Ok user_pitch) ;;
  report <- generate_report 100 (4, 8) 30 user_pitch target_pitch
              target_time (Some Scorer.score_pitch) ;;
  drawn <-
    (if visualize
     then
       first <- plot_pitch target_time target_pitch ;;
       plot_pitch user_time user_pitch
     else Ok tt) ;;
  Ok report.

(** ** performance.py: _generate_feedback *)

(** A [Dict[str, str]] in insertion order; [notes[k] = v]. *)
Fixpoint dict_set (k v : string) (d : list (string * string))
  : list (string * string) :=
  match d with
  | [] => [(k, v)]
  | (k', v') :: d' =>
      if String.eqb k k' then (k, v) :: d' else (k', v') :: dict_set k v d'
  end.

Fixpoint dict_get (k : string) (d : list (string * string))
  : option string :=
  match d with
  | [] => None
  | (k', v) :: d' => if String.eqb k k' then Some v else dict_get k d'
  end.

Section Feedback.

(** [format_fixed n x] is the text of [f"{x:.nf}"]. *)
Variable format_fixed : nat -> float -> string.

(** [None] is the [TypeError] of formatting [None] with [:.1f]. *)
Definition _generate_feedback (pitch_metrics : PitchMetrics)
  (vibrato_metrics : VibratoMetrics) (score : float)
  : option (list (string * string)) :=
  let notes := [] in
  let notes :=
    if fle (Fin 80) (accuracy pitch_metrics)
    then dict_set "pitch_accuracy" "Excellent pitch accuracy!" notes
    else if fle (Fin 60) (accuracy pitch_metrics)
    then dict_set "pitch_accuracy"
           "Good pitch accuracy. Try to stay closer to the target." notes
    else if fle (Fin 40) (accuracy pitch_metrics)
    then dict_set "pitch_accuracy"
           "Fair pitch accuracy. Focus on hitting the right notes." notes
    else dict_set "pitch_accuracy"
           "Pitch accuracy needs improvement. Listen carefully to the backing track."
           notes in
  let notes :=
    if fle (Fin 0.8) (stability pitch_metrics)
    then dict_set "stability" "Great pitch stability!" notes
    else if fle (Fin 0.5) (stability pitch_metrics)
    then dict_set "stability"
           "Good stability. Try to reduce pitch wavering." notes
    else dict_set "stability" "Work on maintaining stable pitch." notes in
  match
    (if detected vibrato_metrics
     then
       match frequency_hz vibrato_metrics, depth_cents vibrato_metrics with
       | Some f, Some d =>
           Some (dict_set "vibrato"
                   ("Nice vibrato detected! (" ++ format_fixed 1 f ++ " Hz, "
                    ++ format_fixed 0 d ++ " cents)")
                   notes)
       | _, _ => None
       end
     else Some notes)
  with
  | None => None
  | Some notes =>
      Some
        (if fle (Fin 90) score
         then dict_set "overall" "Outstanding performance!" notes
         else if fle (Fin 75) score
         then dict_set "overall" "Great job! Keep it up!" notes
         else if fle (Fin 60) score
         then dict_set "overall" "Good effort! Practice more to improve."
                notes
         else dict_set "overall"
                "Keep practicing! You'll improve with time." notes)
  end.

End Feedback.

(** ** recorder.py: AudioBuffer *)

(** Python's slice bounds: a negative index counts from the end, and both
    ends are cut to the length. *)
Definition norm_index (len i : Z) : Z :=
  if (i <? 0)%Z then Z.max 0 (i + len) else Z.min i len.

(** [l[start:stop]], [l[start:]] and [l[:stop]]. *)
Definition py_slice {A : Type} (l : list A) (start stop : Z) : list A :=
  let len := Z.of_nat (length l) in
  let a := norm_index len start in
  let b := norm_index len stop in
  firstn (Z.to_nat (b - a)) (skipn (Z.to_nat a) l).

Definition slice_from {A : Type} (l : list A) (start : Z) : list A :=
  py_slice l start (Z.of_nat (length l)).

Definition slice_to {A : Type} (l : list A) (stop : Z) : list A :=
  py_slice l 0 stop.

(** [l[start:stop] = data] on a one-dimensional numpy array: [data] must be
    as long as the slice, or hold one value, which is then repeated;
    [None] is the ValueError of any other shape. *)
Definition set_slice {A : Type} (l : list A) (start stop : Z)
  (data : list A) : option (list A) :=
  let len := Z.of_nat (length l) in
  let a := norm_index len start in
  let b := norm_index len stop in
  let m := Z.to_nat (b - a) in
  let put vals :=
    firstn (Z.to_nat a) l ++ vals ++ skipn (Z.to_nat a + m) l in
  if Nat.eqb (length data) m then Some (put data)
  else
    match data with
    | [x] => Some (put (repeat x m))
    | _ => None
    end.

Module AudioBuffer.

Record state : Type := mkState {
  max_samples : nat;
  buffer : list float;
  write_pos : nat
}.

(** [__init__], from [max_samples = int(max_duration * sample_rate)] on. *)
Definition init (max_samples : nat) : state :=
  mkState max_samples (repeat (Fin 0) max_samples) 0.

Inductive error : Type :=
| BroadcastValueError
| ZeroDivisionError.

(** [write] gives the buffer as the call leaves it and the exception it
    raised, if any. *)
Definition write (b : state) (data : list float) : state * option error :=
  let n_samples := length data in
  let wp := Z.of_nat (write_pos b) in
  let assigned : list float * option error :=
    if Nat.leb (write_pos b + n_samples) (max_samples b)
    then
      match set_slice (buffer b) wp (wp + Z.of_nat n_samples) data with
      | Some buf => (buf, None)
      | None => (buffer b, Some BroadcastValueError)
      end
    else
      let first_part := (Z.of_nat (max_samples b) - wp)%Z in
      match set_slice (buffer b) wp (Z.of_nat (length (buffer b)))
              (slice_to data first_part) with
      | None => (buffer b, Some BroadcastValueError)
      | Some buf =>
          match set_slice buf 0 (Z.of_nat n_samples - first_part)
                  (slice_from data first_part) with
          | Some buf' => (buf', None)
          | None => (buf, Some BroadcastValueError)
          end
      end in
  match assigned with
  | (buf, Some e) => (mkState (max_samples b) buf (write_pos b), Some e)
  | (buf, None) =>
      if Nat.eqb (max_samples b) 0
      then (mkState (max_samples b) buf (write_pos b),
            Some ZeroDivisionError)
      else (mkState (max_samples b) buf
              ((write_pos b + n_samples) mod max_samples b), None)
  end.

(** [read], from [requested = int(duration * self.sample_rate)] on. *)
Definition read (b : state) (requested : Z) : list float :=
  let n_samples := Z.min requested (Z.of_nat (max_samples b)) in
  let wp := Z.of_nat (write_pos b) in
  if (n_samples <=? wp)%Z
  then py_slice (buffer b) (wp - n_samples) wp
  else slice_from (buffer b) (wp - n_samples) ++ slice_to (buffer b) wp.

(** The states that [init] and [write] produce on a buffer of positive
    capacity. *)
Definition wf (b : state) : Prop :=
  length (buffer b) = max_samples b /\ (write_pos b < max_samples b)%nat.

End AudioBuffer.

(** The last [k] entries of a list (all of it when it is shorter). *)
Definition lastn {A : Type} (k : nat) (l : list A) : list A :=
  skipn (length l - k) l.

(** The content of a buffer from its oldest sample to its newest. *)
Definition window (b : AudioBuffer.state) : list float :=
  skipn (AudioBuffer.write_pos b) (AudioBuffer.buffer b)
  ++ firstn (AudioBuffer.write_pos b) (AudioBuffer.buffer b).

(** The array that a successful [write] leaves, by position. *)
Definition written (buf : list float) (wp : nat) (data : list float)
  : list float :=
  let mx := length buf in
  let n := length data in
  if Nat.leb (wp + n) mx
  then firstn wp buf ++ data ++ skipn (wp + n) buf
  else skipn (mx - wp) data
       ++ skipn (n - (mx - wp)) (firstn wp buf ++ firstn (mx - wp) data).

(** Successive calls of [write], up to the first one that raises. *)
Fixpoint write_all (b : AudioBuffer.state) (chunks : list (list float))
  : AudioBuffer.state * option AudioBuffer.error :=
  match chunks with
  | [] => (b, None)
  | data :: chunks' =>
      match AudioBuffer.write b data with
      | (b', None) => write_all b' chunks'
      | failed => failed
      end
  end.

(** ** session.py *)

(** [np.max] and [np.min] of a non-empty array [x :: xs]: a NaN entry
    makes the result NaN. *)
Definition fmaximum (a b : float) : float :=
  match a, b with
  | NaN, _ | _, NaN => NaN
  | _, _ => if flt a b then b else a
  end.

Definition fminimum (a b : float) : float :=
  match a, b with
  | NaN, _ | _, NaN => NaN
  | _, _ => if flt b a then b else a
  end.

Definition np_max (x : float) (xs : list float) : float :=
  fold_left fmaximum xs x.

Definition np_min (x : float) (xs : list float) : float :=
  fold_left fminimum xs x.

Module Session.

(** The feedback [notes] of a result play no part in what follows and are
    left out. *)
Record SessionResult : Type := mkSessionResult {
  song_id : string;
  song_title : string;
  timestamp : string;
  score : float;
  accuracy : float;
  stability : float;
  duration : float
}.

Record KaraokeSession : Type := mkKaraokeSession {
  session_id : string;
  username : string;
  start_time : string;
  results : list SessionResult
}.

Definition add_result (s : KaraokeSession) (result : SessionResult)
  : KaraokeSession :=
  mkKaraokeSession (session_id s) (username s) (start_time s)
    (results s ++ [result]).

Definition get_average_score (s : KaraokeSession) : float :=
  match results s with
  | [] => Fin 0
  | _ => fmean (map score (results s))
  end.

Definition get_average_accuracy (s : KaraokeSession) : float :=
  match results s with
  | [] => Fin 0
  | _ => fmean (map accuracy (results s))
  end.

(** [SessionManager]: [sessions] is [self.sessions.values()], in the
    dict's order. *)
Definition get_user_history (sessions : list KaraokeSession)
  (name : string) : list KaraokeSession :=
  filter (fun s => String.eqb (username s) name) sessions.

(** The dict that [get_user_stats] returns, without its [username]. *)
Record UserStats : Type := mkUserStats {
  total_sessions : nat;
  total_songs : nat;
  average_score : float;
  average_accuracy : float;
  best_score : float;
  worst_score : float
}.

Definition get_user_stats (sessions : list KaraokeSession) (name : string)
  : UserStats :=
  let sessions := get_user_history sessions name in
  match sessions with
  | [] => mkUserStats 0 0 (Fin 0) (Fin 0) (Fin 0) (Fin 0)
  | _ =>
      let all_scores := flat_map (fun s => map score (results s)) sessions in
      let all_accuracies :=
        flat_map (fun s => map accuracy (results s)) sessions in
      mkUserStats
        (length sessions)
        (list_sum (map (fun s => length (results s)) sessions))
        (match all_scores with [] => Fin 0 | _ => fmean all_scores end)
        (match all_accuracies with
         | [] => Fin 0
         | _ => fmean all_accuracies
         end)
        (match all_scores with [] => Fin 0 | x :: xs => np_max x xs end)
        (match all_scores with [] => Fin 0 | x :: xs => np_min x xs end)
  end.

(** One value of the [song_stats] dict of [get_top_songs]. *)
Record SongStats : Type := mkSongStats {
  stats_song_id : string;
  stats_song_title : string;
  attempts : nat;
  avg_score : float;
  song_best_score : float
}.

(** The body of the inner loop: the entry of the result's song is created
    if it is missing, then updated in place. *)
Definition update_stats (stats : SongStats) (result : SessionResult)
  : SongStats :=
  let attempts := (attempts stats + 1)%nat in
  let best := py_max (song_best_score stats) (score result) in
  let avg :=
    fdiv (fadd (fmul (avg_score stats) (Fin (INR (attempts - 1))))
            (score result))
         (Fin (INR attempts)) in
  mkSongStats (stats_song_id stats) (stats_song_title stats) attempts avg
    best.

Fixpoint record_result (song_stats : list SongStats)
  (result : SessionResult) : list SongStats :=
  match song_stats with
  | [] =>
      [update_stats
         (mkSongStats (song_id result) (song_title result) 0 (Fin 0)
            (Fin 0)) result]
  | stats :: rest =>
      if String.eqb (song_id result) (stats_song_id stats)
      then update_stats stats result :: rest
      else stats :: record_result rest result
  end.

(** [sorted(..., key=best_score, reverse=True)]: a stable sort into
    descending order (entries with equal keys keep their order).  The keys
    are never NaN here, so the comparisons form a total preorder. *)
Fixpoint insert_by_best (s : SongStats) (l : list SongStats)
  : list SongStats :=
  match l with
  | [] => [s]
  | t :: l' =>
      if flt (song_best_score s) (song_best_score t)
      then t :: insert_by_best s l'
      else s :: t :: l'
  end.

Definition sort_by_best (l : list SongStats) : list SongStats :=
  fold_right insert_by_best [] l.

Definition get_top_songs (sessions : list KaraokeSession) (name : string)
  (limit : Z) : list SongStats :=
  let sessions := get_user_history sessions name in
  let song_stats :=
    fold_left record_result (flat_map results sessions) [] in
  slice_to (sort_by_best song_stats) limit.

End Session.

(** The results of one song among a list of results. *)
Definition of_song (id : string) (rs : list Session.SessionResult)
  : list Session.SessionResult :=
  filter (fun r => String.eqb (Session.song_id r) id) rs.

(** Descending order of the best scores. *)
Definition best_not_below (e1 e2 : Session.SongStats) : Prop :=
  exists b1 b2,
    Session.song_best_score e1 = Fin b1
    /\ Session.song_best_score e2 = Fin b2 /\ b2 <= b1.

(** What the [song_stats] dict holds once the results [rs] have gone
    through the loop: one entry per song of [rs], built from the results
    of this song in their order. *)
Definition stats_ok (stats : list Session.SongStats)
  (rs : list Session.SessionResult) : Prop :=
  NoDup (map Session.stats_song_id stats)
  /\ (forall r, In r rs ->
                In (Session.song_id r) (map Session.stats_song_id stats))
  /\ Forall
       (fun e =>
          exists first rest,
            of_song (Session.stats_song_id e) rs = first :: rest
            /\ e = fold_left Session.update_stats (first :: rest)
                     (Session.mkSongStats (Session.song_id first)
                        (Session.song_title first) 0 (Fin 0) (Fin 0)))
       stats.

(** A small history, to run the statistics on. *)
Definition demo_history : list Session.KaraokeSession :=
  [Session.mkKaraokeSession "ann_1" "ann" "t0"
     [Session.mkSessionResult "s1" "First song" "t1"
        (Fin 80) (Fin 70) (Fin 1) (Fin 3);
      Session.mkSessionResult "s2" "Second song" "t2"
        (Fin 60) (Fin 50) (Fin 1) (Fin 3);
      Session.mkSessionResult "s1" "First song" "t3"
        (Fin 90) (Fin 85) (Fin 1) (Fin 3)];
   Session.mkKaraokeSession "bob_1" "bob" "t4"
     [Session.mkSessionResult "s1" "First song" "t5"
        (Fin 40) (Fin 30) (Fin 1) (Fin 3)]].

(** ** song_manager.py: the target pitch of a song *)

Module SongManager.

(** [duration], [bpm], [key] and [metadata] play no part here and are left
    out. *)
Record Song : Type := mkSong {
  id : string;
  title : string;
  artist : string;
  audio_path : string;
  target_pitch : option array;
  target_time : option (list R)
}.

(** [self.songs], a dict from song id to [Song], in insertion order. *)
Definition library : Type := list (string * Song).

Fixpoint get_song (songs : library) (song_id : string) : option Song :=
  match songs with
  | [] => None
  | (k, song) :: songs' =>
      if String.eqb song_id k then Some song else get_song songs' song_id
  end.

(** The song object found under [song_id] gets the two arrays; the dict
    itself is not touched. *)
Fixpoint set_target (songs : library) (song_id : string)
  (time : list R) (pitch : array) : library :=
  match songs with
  | [] => []
  | (k, song) :: songs' =>
      if String.eqb song_id k
      then (k, mkSong (id song) (title song) (artist song) (audio_path song)
                 (Some pitch) (Some time)) :: songs'
      else (k, song) :: set_target songs' song_id time pitch
  end.

Definition save_target_pitch (songs : library) (song_id : string)
  (time : list R) (pitch : array) : result library :=
  match get_song songs song_id with
  | None => Raise ValueError
  | Some _ => Ok (set_target songs song_id time pitch)
  end.

Definition get_target_pitch (songs : library) (song_id : string)
  : option (option (list R) * array) :=
  match get_song songs song_id with
  | Some song =>
      match target_pitch song with
      | Some pitch => Some (target_time song, pitch)
      | None => None
      end
  | None => None
  end.

End SongManager.

(** * Properties *)

(** ** Arrays, masks and finite arithmetic *)

Lemma bind_ok {A B : Type} (a : A) (k : A -> result B) :
  bind (Ok a) k = k a.
Proof. reflexivity. Qed.

Lemma broadcast_same_length {A B C : Type} (f : A -> B -> C) xs ys :
  length xs = length ys -> broadcast f xs ys = Ok (map2 f xs ys).
Proof.
  intros H. unfold broadcast. now rewrite (proj2 (Nat.eqb_eq _ _) H).
Qed.

Lemma map2_length {A B C : Type} (f : A -> B -> C) xs ys :
  length xs = length ys -> length (map2 f xs ys) = length xs.
Proof.
  revert ys. induction xs as [|x xs IH]; intros [|y ys] H; simpl in *;
    try discriminate; auto.
Qed.

Lemma bool_index_same_length {A : Type} (a : list A) mask :
  length a = length mask -> bool_index a mask = Ok (compress a mask).
Proof.
  intros H. unfold bool_index. now rewrite (proj2 (Nat.eqb_eq _ _) H).
Qed.

Lemma compress_map {A B : Type} (f : A -> B) a mask :
  compress (map f a) mask = map f (compress a mask).
Proof.
  revert mask. induction a as [|x a IH]; intros [|b mask]; simpl; auto.
  destruct b; simpl; now rewrite IH.
Qed.

Lemma compress_length {A : Type} (a : list A) mask :
  length a = length mask -> length (compress a mask) = count_true mask.
Proof.
  revert mask. unfold count_true.
  induction a as [|x a IH]; intros [|b mask] H; simpl in *;
    try discriminate; auto.
  destruct b; simpl; rewrite IH; auto.
Qed.

Lemma compress_user_paired u t :
  length u = length t ->
  compress u (map2 both_present u t) = map (fun p => Some (fst p)) (paired_frames u t).
Proof.
  revert t. induction u as [|a u IH]; intros [|b t] H; simpl in *;
    try discriminate; auto.
  injection H as H.
  destruct a as [a|], b as [b|]; simpl; rewrite IH; auto.
Qed.

Lemma compress_target_paired u t :
  length u = length t ->
  compress t (map2 both_present u t) = map (fun p => Some (snd p)) (paired_frames u t).
Proof.
  revert t. induction u as [|a u IH]; intros [|b t] H; simpl in *;
    try discriminate; auto.
  injection H as H.
  destruct a as [a|], b as [b|]; simpl; rewrite IH; auto.
Qed.

Lemma count_true_paired u t :
  length u = length t ->
  count_true (map2 both_present u t) = length (paired_frames u t).
Proof.
  intros H. rewrite <- (compress_length u); [|now rewrite map2_length].
  rewrite compress_user_paired by assumption. now rewrite length_map.
Qed.

Lemma map2_diag {A B C D : Type} (f : B -> C -> D) (g : A -> B) (h : A -> C) l :
  map2 f (map g l) (map h l) = map (fun a => f (g a) (h a)) l.
Proof. induction l as [|a l IH]; simpl; auto. now rewrite IH. Qed.

Lemma fsum_fin rs : fsum (map Fin rs) = Fin (Rsum rs).
Proof.
  induction rs as [|r rs IH]; simpl; auto.
  unfold fsum in *. simpl. now rewrite IH.
Qed.

Lemma INR_length_pos {A : Type} (l : list A) : l <> [] -> 0 < INR (length l).
Proof.
  destruct l; [congruence|]. intros _. apply lt_0_INR. simpl. lia.
Qed.

Lemma fadd_fin x y : fadd (Fin x) (Fin y) = Fin (x + y).
Proof. reflexivity. Qed.

Lemma fmul_fin x y : fmul (Fin x) (Fin y) = Fin (x * y).
Proof. reflexivity. Qed.

Lemma fdiv_fin x y : y <> 0 -> fdiv (Fin x) (Fin y) = Fin (x / y).
Proof. intros H. simpl. now destruct (Req_dec_T y 0). Qed.

Lemma fmean_fin rs : rs <> [] -> fmean (map Fin rs) = Fin (Rmean rs).
Proof.
  intros H. unfold fmean, Rmean. rewrite fsum_fin, length_map.
  apply fdiv_fin. pose proof (INR_length_pos _ H). lra.
Qed.

Lemma Rltb_true x y : x < y -> Rltb x y = true.
Proof. intros H. unfold Rltb. now destruct (Rlt_dec x y). Qed.

Lemma Rleb_true x y : x <= y -> Rleb x y = true.
Proof. intros H. unfold Rleb. now destruct (Rle_dec x y). Qed.

(** Python's [max(0.0, min(100.0, s))] is the clamp on finite values and
    lands in the closed interval whatever the float. *)
Lemma py_clamp_fin s :
  py_max (Fin 0) (py_min (Fin 100) (Fin s)) = Fin (clamp 0 100 s).
Proof.
  unfold py_max, py_min, clamp; simpl. unfold Rltb.
  destruct (Rlt_dec s 100), (Rlt_dec s 0), (Rlt_dec 100 s); simpl;
    unfold Rltb;
    repeat match goal with
           | |- context [Rlt_dec ?a ?b] => destruct (Rlt_dec a b)
           end; simpl; try reflexivity; try lra; f_equal; lra.
Qed.

Lemma py_clamp_within a :
  within 0 100 (py_max (Fin 0) (py_min (Fin 100) a)).
Proof.
  destruct a as [| |x|]; unfold py_max, py_min, within; simpl; unfold Rltb;
    repeat match goal with
           | |- context [Rlt_dec ?a ?b] => destruct (Rlt_dec a b); simpl;
                                          unfold Rltb
           end;
    try (eexists; split; [reflexivity|lra]); exfalso; lra.
Qed.

(** ** Scorer.score_pitch *)

Lemma paired_errors_hz u t :
  map fabs
    (map2 fsub (map of_sample (map (fun p : R * R => Some (fst p)) (paired_frames u t)))
               (map of_sample (map (fun p : R * R => Some (snd p)) (paired_frames u t))))
  = map Fin (abs_errors u t).
Proof.
  unfold abs_errors. rewrite !map_map, map2_diag, !map_map.
  apply map_ext. intros [a b]. simpl. reflexivity.
Qed.

Lemma score_pitch_eval u t :
  length u = length t ->
  Scorer.score_pitch u t =
  Ok (match paired_frames u t with
      | [] => Fin 0
      | _ => Fin (clamp 0 100 (100 - mean_abs_error u t * 0.5))
      end).
Proof.
  intros H. unfold Scorer.score_pitch.
  rewrite (proj2 (Nat.eqb_eq _ _) H). simpl negb. cbv iota.
  change (fun u0 t0 : sample => negb (isnan u0) && negb (isnan t0))
    with both_present.
  rewrite broadcast_same_length by assumption. rewrite bind_ok.
  rewrite bool_index_same_length by now rewrite map2_length.
  rewrite bind_ok.
  rewrite bool_index_same_length by (rewrite map2_length; auto).
  rewrite bind_ok.
  rewrite compress_user_paired, compress_target_paired by assumption.
  rewrite broadcast_same_length by now rewrite !length_map.
  rewrite bind_ok. rewrite paired_errors_hz.
  unfold mean_abs_error. fold (abs_errors u t).
  rewrite length_map. unfold abs_errors at 1. rewrite length_map.
  destruct (paired_frames u t) as [|p ps] eqn:E.
  - reflexivity.
  - simpl length. cbv iota. simpl Nat.eqb. cbv iota.
    rewrite fmean_fin.
    + simpl fmul. simpl fsub. now rewrite <- py_clamp_fin.
    + unfold abs_errors. rewrite E. simpl. discriminate.
Qed.

Lemma abs_errors_diag u : Rsum (abs_errors u u) = 0.
Proof.
  unfold abs_errors. induction u as [|[a|] u IH]; simpl; auto.
  rewrite IH. rewrite Rminus_diag, Rabs_R0. lra.
Qed.

Lemma paired_frames_diag u :
  u <> [] -> Forall (fun s => isnan s = false) u -> paired_frames u u <> [].
Proof.
  destruct u as [|[a|] u]; [congruence| |]; intros _ H; simpl.
  - discriminate.
  - inversion H; subst. discriminate.
Qed.

(** C6: on arrays of equal shape the quick scorer returns
    100 - 0.5 * (mean absolute Hz error over the frames where both values
    are present) clamped to [0,100]; it returns 0.0 when no frame has both
    values present; and identical non-empty arrays without absent entries
    score exactly 100.0. *)
Theorem score_pitch_formula (user target : array)
  (Hshape : length user = length target) :
  (paired_frames user target <> [] ->
   Scorer.score_pitch user target =
   Ok (Fin (clamp 0 100 (100 - 0.5 * mean_abs_error user target))))
  /\ (paired_frames user target = [] ->
      Scorer.score_pitch user target = Ok (Fin 0))
  /\ (target = user -> user <> [] ->
      Forall (fun s => isnan s = false) user ->
      Scorer.score_pitch user target = Ok (Fin 100)).
Proof.
  pose proof (score_pitch_eval user target Hshape) as E.
  repeat split.
  - intros Hne. rewrite E. destruct (paired_frames user target); [congruence|].
    do 3 f_equal. lra.
  - intros He. now rewrite E, He.
  - intros -> Hne Hall. rewrite E.
    pose proof (paired_frames_diag _ Hne Hall) as Hp.
    destruct (paired_frames user user) eqn:Ep; [congruence|].
    do 2 f_equal. unfold mean_abs_error. fold (abs_errors user user).
    unfold Rmean. rewrite abs_errors_diag. unfold clamp.
    destruct (Rlt_dec _ 0); [lra|]. destruct (Rlt_dec 100 _); lra.
Qed.

Lemma score_pitch_formula_witness :
  Scorer.score_pitch [Some 440; None; Some 330] [Some 446; Some 220; Some 330]
  = Ok (Fin (clamp 0 100
          (100 - 0.5 * mean_abs_error [Some 440; None; Some 330]
                         [Some 446; Some 220; Some 330]))).
Proof.
  apply (score_pitch_formula [Some 440; None; Some 330]
           [Some 446; Some 220; Some 330]).
  - reflexivity.
  - simpl. discriminate.
Defined.

(** C7: [score_pitch] raises exactly when the two arrays differ in shape
    (and then it is the [ValueError], with no score computed from a
    truncation or any other repair); on equal shapes it returns a number. *)
Theorem score_pitch_raises_iff_shape_mismatch (user target : array) :
  ((exists e, Scorer.score_pitch user target = Raise e)
   <-> length user <> length target)
  /\ (length user <> length target ->
      Scorer.score_pitch user target = Raise ValueError)
  /\ (length user = length target ->
      exists s, Scorer.score_pitch user target = Ok (Fin s)).
Proof.
  assert (Hne : length user <> length target ->
                Scorer.score_pitch user target = Raise ValueError).
  { intros H. unfold Scorer.score_pitch.
    now rewrite (proj2 (Nat.eqb_neq _ _) H). }
  assert (Heq : length user = length target ->
                exists s, Scorer.score_pitch user target = Ok (Fin s)).
  { intros H. rewrite (score_pitch_eval user target H).
    destruct (paired_frames user target); eexists; reflexivity. }
  repeat split; auto.
  - intros [e He] H. destruct (Heq H) as [s Hs]. congruence.
  - intros H. exists ValueError. auto.
Qed.

Lemma score_pitch_raises_iff_shape_mismatch_witness :
  Scorer.score_pitch [Some 440; Some 441] [Some 440] = Raise ValueError
  /\ exists s, Scorer.score_pitch [Some 440; None] [Some 452; Some 3]
               = Ok (Fin s).
Proof.
  split.
  - apply (score_pitch_raises_iff_shape_mismatch [Some 440; Some 441]
             [Some 440]). simpl. lia.
  - apply (score_pitch_raises_iff_shape_mismatch [Some 440; None]
             [Some 452; Some 3]). reflexivity.
Defined.

(** ** PerformanceAnalyzer.analyze_pitch_accuracy *)

Lemma Rsum_nonneg xs : Forall (fun x => 0 <= x) xs -> 0 <= Rsum xs.
Proof.
  induction 1 as [|x xs Hx _ IH]; simpl; lra.
Qed.

Lemma Rmean_nonneg xs :
  xs <> [] -> Forall (fun x => 0 <= x) xs -> 0 <= Rmean xs.
Proof.
  intros Hne Hall. unfold Rmean.
  apply Rmult_le_pos; [now apply Rsum_nonneg|].
  left. apply Rinv_0_lt_compat. now apply INR_length_pos.
Qed.

Lemma abs_errors_nonneg u t : Forall (fun x => 0 <= x) (abs_errors u t).
Proof.
  unfold abs_errors. apply Forall_forall. intros x Hx.
  apply in_map_iff in Hx as [p [<- _]]. apply Rabs_pos.
Qed.

Lemma abs_errors_nil u t : abs_errors u t = [] <-> paired_frames u t = [].
Proof.
  unfold abs_errors. destruct (paired_frames u t); simpl; split; congruence.
Qed.

Lemma squares_nonneg m xs :
  Forall (fun x => 0 <= x) (map (fun x => Rabs (x - m) * Rabs (x - m)) xs).
Proof.
  apply Forall_forall. intros x Hx. apply in_map_iff in Hx as [y [<- _]].
  apply Rmult_le_pos; apply Rabs_pos.
Qed.

Lemma Rstd_nonneg xs : 0 <= Rstd xs.
Proof. unfold Rstd. apply sqrt_pos. Qed.

Lemma fstd_fin rs : rs <> [] -> fstd (map Fin rs) = Fin (Rstd rs).
Proof.
  intros Hne. unfold fstd, Rstd. rewrite fmean_fin by assumption.
  rewrite map_map.
  rewrite (map_ext _ (fun x => Fin (Rabs (x - Rmean rs) * Rabs (x - Rmean rs))))
    by reflexivity.
  rewrite <- (map_map (fun x => Rabs (x - Rmean rs) * Rabs (x - Rmean rs)) Fin).
  rewrite fmean_fin by (destruct rs; [congruence|discriminate]).
  simpl. destruct (Rlt_dec _ 0) as [H|H]; [|reflexivity].
  exfalso. apply (Rlt_not_le _ _ H). apply Rmean_nonneg.
  - destruct rs; [congruence|discriminate].
  - apply squares_nonneg.
Qed.

Lemma count_true_le mask : (count_true mask <= length mask)%nat.
Proof. unfold count_true. apply filter_length_le. Qed.

Section AccuracyFacts.

Variable pitch_tolerance_cents : R.

(** What [analyze_pitch_accuracy] returns on two arrays of one length. *)
Lemma analyze_pitch_accuracy_eval (user target : array) (time : list R) :
  length user = length target ->
  analyze_pitch_accuracy pitch_tolerance_cents user target time =
  Ok (match paired_frames user target with
      | [] => mkPitchMetrics NaN NaN (Fin 0) (Fin 0) 0 (length user)
      | _ =>
          let errs := abs_errors user target in
          let pairs := paired_frames user target in
          mkPitchMetrics
            (Fin (Rmean errs)) (Fin (Rstd errs))
            (Fin (100 * INR (count_true
                               (map (cents_within pitch_tolerance_cents) pairs))
                  / INR (length pairs)))
            (Fin (1 / (1 + Rstd errs / (Rmean errs + 1e-6))))
            (length pairs) (length user)
      end).
Proof.
  intros H. unfold analyze_pitch_accuracy.
  change (fun u0 t0 : sample => negb (isnan u0) && negb (isnan t0))
    with both_present.
  rewrite broadcast_same_length by assumption. rewrite bind_ok.
  rewrite count_true_paired by assumption.
  destruct (paired_frames user target) as [|p ps] eqn:E; [reflexivity|].
  simpl Nat.eqb. cbv iota.
  rewrite !bool_index_same_length
    by (rewrite length_map, map2_length; auto).
  rewrite !bind_ok. rewrite !compress_map.
  rewrite compress_user_paired, compress_target_paired by assumption.
  rewrite !broadcast_same_length by now rewrite !length_map.
  rewrite !bind_ok.
  rewrite paired_errors_hz.
  assert (Hne : abs_errors user target <> []).
  { intros C. apply abs_errors_nil in C. congruence. }
  rewrite fmean_fin, fstd_fin by assumption.
  pose proof (Rmean_nonneg _ Hne (abs_errors_nonneg user target)) as Hm.
  pose proof (Rstd_nonneg (abs_errors user target)) as Hs.
  rewrite !length_map.
  rewrite map2_length by now rewrite !length_map.
  rewrite !length_map.
  rewrite !map_map, map2_diag, !map_map.
  rewrite <- E. cbv zeta.
  assert (Hn : 0 < INR (length (paired_frames user target))).
  { apply INR_length_pos. congruence. }
  f_equal. f_equal.
  - rewrite fmul_fin, fdiv_fin by lra. reflexivity.
  - rewrite fadd_fin, fdiv_fin by lra. rewrite fadd_fin.
    rewrite fdiv_fin; [reflexivity|].
    assert (0 <= Rstd (abs_errors user target)
                 / (Rmean (abs_errors user target) + 1e-6)).
    { apply Rmult_le_pos; [assumption|]. left.
      apply Rinv_0_lt_compat. lra. }
    lra.
Qed.

Lemma analyze_pitch_accuracy_voiced (user target : array) (time : list R) :
  length user = length target ->
  paired_frames user target <> [] ->
  analyze_pitch_accuracy pitch_tolerance_cents user target time =
  Ok (let errs := abs_errors user target in
      let pairs := paired_frames user target in
      mkPitchMetrics
        (Fin (Rmean errs)) (Fin (Rstd errs))
        (Fin (100 * INR (count_true
                           (map (cents_within pitch_tolerance_cents) pairs))
              / INR (length pairs)))
        (Fin (1 / (1 + Rstd errs / (Rmean errs + 1e-6))))
        (length pairs) (length user)).
Proof.
  intros Hl Hp. rewrite analyze_pitch_accuracy_eval by assumption.
  destruct (paired_frames user target) eqn:E; [congruence|].
  now rewrite <- E.
Qed.

End AccuracyFacts.

Lemma no_overlap_paired user target :
  Forall2 (fun u t : sample => u = None \/ t = None) user target ->
  length user = length target /\ paired_frames user target = [].
Proof.
  induction 1 as [|u t us ts Hut _ [IHl IHp]]; simpl; [auto|].
  split; [now rewrite IHl|].
  destruct Hut as [-> | ->]; [assumption|]. now destruct u.
Qed.

(** C5: when no frame has both values present, the analysis returns, without
    raising, the degenerate metrics: NaN mean and standard deviation of the
    error, accuracy 0, stability 0, no voiced frame, and the input length as
    total. *)
Theorem analyze_pitch_accuracy_no_overlap (tol : R) (user target : array)
  (time : list R)
  (Hnone : Forall2 (fun u t : sample => u = None \/ t = None) user target) :
  analyze_pitch_accuracy tol user target time
  = Ok (mkPitchMetrics NaN NaN (Fin 0) (Fin 0) 0 (length user)).
Proof.
  destruct (no_overlap_paired _ _ Hnone) as [Hl Hp].
  rewrite analyze_pitch_accuracy_eval by assumption. now rewrite Hp.
Qed.

Lemma analyze_pitch_accuracy_no_overlap_witness :
  analyze_pitch_accuracy 100 [Some 440; None; None] [None; Some 220; None]
    [0; 0.01; 0.02]
  = Ok (mkPitchMetrics NaN NaN (Fin 0) (Fin 0) 0 3).
Proof.
  apply (@analyze_pitch_accuracy_no_overlap 100
           [Some 440; None; None] [None; Some 220; None] [0; 0.01; 0.02]).
  repeat (constructor; [first [left; reflexivity | right; reflexivity]|]).
  constructor.
Defined.

(** C10: the time argument plays no part in [analyze_pitch_accuracy]: for
    fixed user and target arrays any two time arrays give the same outcome. *)
Theorem analyze_pitch_accuracy_ignores_time (tol : R) (user target : array)
  (time1 time2 : list R) :
  analyze_pitch_accuracy tol user target time1
  = analyze_pitch_accuracy tol user target time2.
Proof. reflexivity. Qed.

Lemma Rdiv_le_bound a b c : 0 < b -> a <= c * b -> a / b <= c.
Proof.
  intros Hb H. apply (Rmult_le_reg_r b); [assumption|].
  replace (a / b * b) with a by (field; lra). assumption.
Qed.

Lemma accuracy_within (c n : nat) :
  (c <= n)%nat -> (0 < n)%nat -> 0 <= 100 * INR c / INR n <= 100.
Proof.
  intros Hc Hn. apply le_INR in Hc. apply lt_0_INR in Hn.
  pose proof (pos_INR c) as Hc0.
  split.
  - apply Rmult_le_pos; [lra|]. left. now apply Rinv_0_lt_compat.
  - apply Rdiv_le_bound; [assumption|]. lra.
Qed.

Lemma stability_within (s m : R) :
  0 <= s -> 0 <= m -> 0 <= 1 / (1 + s / (m + 1e-6)) <= 1.
Proof.
  intros Hs Hm.
  assert (Hv : 0 <= s / (m + 1e-6)).
  { apply Rmult_le_pos; [assumption|]. left. apply Rinv_0_lt_compat. lra. }
  split.
  - apply Rmult_le_pos; [lra|]. left. apply Rinv_0_lt_compat. lra.
  - apply Rdiv_le_bound; lra.
Qed.





(** On a contour of moderate size the double precision computation stays
    in range: errors of 6 Hz and 0 Hz give a stability between 0 and 1,
    here a little above one half. *)
Lemma stability_in_range_on_doubles :
  forall np_log2 : spec_float -> spec_float,
    match
      B64.analyze_pitch_accuracy np_log2 (B64.of_Z 100)
        [B64.of_Z 440; S754_nan; B64.of_Z 330]
        [B64.of_Z 446; B64.of_Z 220; B64.of_Z 330] []
    with
    | Ok m =>
        B64.voiced_frames m = 2%nat
        /\ B64.mean_error_hz m = B64.of_Z 3
        /\ B64.std_error_hz m = B64.of_Z 3
        /\ B64.ltb (B64.literal 1 2) (B64.stability m) = true
        /\ B64.ltb (B64.stability m) (B64.literal 51 100) = true
    | Raise _ => False
    end.
Proof.
  intros np_log2. vm_compute. repeat split.
Qed.

(** *** A semitone-sharp singer against a 440 Hz target *)

Lemma ln_2_pos : 0 < ln 2.
Proof. pose proof ln_lt_2. lra. Qed.

(** 466.16 Hz over 440 Hz is a little less than one equal-tempered
    semitone: its twelfth power stays below 2. *)
Lemma semitone_cents_bounds :
  0 < 1200 * log2 (466.16 / 440) < 100.
Proof.
  pose proof ln_2_pos as H2.
  assert (H1 : 0 < ln (466.16 / 440)).
  { rewrite <- ln_1. apply ln_increasing; lra. }
  assert (H12 : 12 * ln (466.16 / 440) < ln 2).
  { replace 12 with (INR 12) by (simpl; lra).
    rewrite <- ln_pow by lra. apply ln_increasing.
    - apply pow_lt. lra.
    - lra. }
  unfold log2. split.
  - apply Rmult_lt_0_compat; [lra|].
    apply Rmult_lt_0_compat; [assumption|]. now apply Rinv_0_lt_compat.
  - apply (Rmult_lt_reg_r (ln 2)); [assumption|].
    replace (1200 * (ln (466.16 / 440) / ln 2) * ln 2)
      with (100 * (12 * ln (466.16 / 440))) by (field; lra).
    nra.
Qed.

Lemma semitone_cents_error :
  cents_error (466.16, 440) = Fin (1200 * log2 (466.16 / 440)).
Proof.
  pose proof semitone_cents_bounds as [Hlo Hhi].
  unfold cents_error. simpl fst. simpl snd.
  rewrite fdiv_fin by lra. unfold flog2.
  destruct (Rlt_dec (466.16 / 440) 0) as [H|_]; [lra|].
  destruct (Rlt_dec 0 (466.16 / 440)) as [_|H]; [|lra].
  rewrite fmul_fin. simpl. f_equal. apply Rabs_pos_eq. lra.
Qed.

Lemma semitone_within : cents_within 100 (466.16, 440) = true.
Proof.
  unfold cents_within. rewrite semitone_cents_error. simpl.
  apply Rltb_true. apply semitone_cents_bounds.
Qed.

Lemma paired_frames_repeat (a b : R) n :
  paired_frames (repeat (Some a) n) (repeat (Some b) n) = repeat (a, b) n.
Proof. induction n as [|n IH]; simpl; congruence. Qed.

Lemma count_true_map_repeat {A : Type} (f : A -> bool) (p : A) n :
  f p = true -> count_true (map f (repeat p n)) = n.
Proof.
  intros H. unfold count_true. induction n as [|n IH]; simpl; auto.
  rewrite H. simpl. now rewrite IH.
Qed.

Lemma semitone_accuracy (n : nat) (time : list R) :
  (0 < n)%nat ->
  exists m,
    analyze_pitch_accuracy 100 (repeat (Some 466.16) n) (repeat (Some 440) n)
      time = Ok m
    /\ accuracy m = Fin 100.
Proof.
  intros Hn.
  rewrite analyze_pitch_accuracy_voiced.
  - eexists. split; [reflexivity|]. cbv zeta. cbn [accuracy].
    rewrite paired_frames_repeat.
    rewrite count_true_map_repeat by apply semitone_within.
    rewrite repeat_length. f_equal. field.
    apply not_0_INR. lia.
  - now rewrite !repeat_length.
  - rewrite paired_frames_repeat. destruct n; [lia|discriminate].
Qed.

(** C2, as the code behaves: with the default tolerance of 100 cents and
    the strict comparison, a user contour constant at 466.16 Hz against a
    target constant at 440.0 Hz has a cents error strictly below the
    tolerance (it falls short of a full semitone), so every frame counts and
    the accuracy is 100. *)
Theorem semitone_sharp_accuracy (n : nat) (time : list R)
  (Hframes : (0 < n)%nat) :
  (exists c, cents_error (466.16, 440) = Fin c /\ c < 100)
  /\ exists m,
       analyze_pitch_accuracy 100 (repeat (Some 466.16) n)
         (repeat (Some 440) n) time = Ok m
       /\ accuracy m = Fin 100.
Proof.
  split.
  - eexists. split; [apply semitone_cents_error|].
    apply semitone_cents_bounds.
  - now apply semitone_accuracy.
Qed.

Lemma semitone_sharp_accuracy_witness :
  (exists c, cents_error (466.16, 440) = Fin c /\ c < 100)
  /\ exists m,
       analyze_pitch_accuracy 100 (repeat (Some 466.16) 50)
         (repeat (Some 440) 50) [] = Ok m
       /\ accuracy m = Fin 100.
Proof.
  apply (@semitone_sharp_accuracy 50 []). lia.
Defined.

(** C2 as stated fails: on two frames of 466.16 Hz against 440.0 Hz the
    accuracy is not 0. *)
Lemma semitone_sharp_accuracy_not_zero :
  ~ (exists m,
        analyze_pitch_accuracy 100 [Some 466.16; Some 466.16]
          [Some 440; Some 440] [0; 0.01] = Ok m
        /\ accuracy m = Fin 0).
Proof.
  intros [m [Hm Hacc]].
  destruct (@semitone_accuracy 2 [0; 0.01]) as [m' [Hm' Hacc']]; [lia|].
  simpl repeat in Hm'. rewrite Hm in Hm'. injection Hm' as <-.
  rewrite Hacc in Hacc'. injection Hacc' as H. lra.
Qed.

(** ** KaraokeApp._align_pitch *)

Lemma increasing_head a l : increasing (a :: l) -> Forall (fun b => a < b) l.
Proof.
  revert a. induction l as [|b l IH]; intros a H; constructor.
  - apply H.
  - destruct H as [Hab Hl]. specialize (IH b Hl).
    eapply Forall_impl; [|exact IH]. simpl. intros c Hc. lra.
Qed.

Lemma increasing_in a l b : increasing (a :: l) -> In b l -> a < b.
Proof.
  intros H Hb. apply increasing_head in H. rewrite Forall_forall in H. auto.
Qed.

Lemma increasing_tail a l : increasing (a :: l) -> increasing l.
Proof. destruct l; simpl; tauto. Qed.

Lemma increasing_cons a l :
  Forall (fun b => a < b) l -> increasing l -> increasing (a :: l).
Proof.
  destruct l as [|b l]; simpl; auto. intros H Hl.
  inversion H; subst. auto.
Qed.

Lemma voiced_points_times_above a pitch time :
  Forall (fun b => a < b) time ->
  Forall (fun b => a < b) (map fst (voiced_points pitch time)).
Proof.
  revert time. induction pitch as [|[f|] pitch IH]; intros [|t time] H;
    simpl; try constructor; inversion H; subst; auto.
Qed.

Lemma voiced_points_increasing pitch time :
  increasing time -> increasing (map fst (voiced_points pitch time)).
Proof.
  revert time. induction pitch as [|[f|] pitch IH]; intros [|t time] H;
    simpl; auto.
  - apply increasing_cons.
    + apply voiced_points_times_above. now apply increasing_head.
    + apply IH. now apply increasing_tail with t.
  - apply IH. now apply increasing_tail with t.
Qed.

Lemma voiced_mask_count pitch (time : list R) :
  length pitch = length time ->
  count_true (map (fun p => negb (isnan p)) pitch)
  = length (voiced_points pitch time).
Proof.
  revert time. unfold count_true.
  induction pitch as [|[f|] pitch IH]; intros [|t time] H; simpl in *;
    try discriminate; auto.
Qed.

Lemma voiced_times pitch (time : list R) :
  length pitch = length time ->
  compress time (map (fun p => negb (isnan p)) pitch)
  = map fst (voiced_points pitch time).
Proof.
  revert time.
  induction pitch as [|[f|] pitch IH]; intros [|t time] H; simpl in *;
    try discriminate; auto.
  f_equal. auto.
Qed.

Lemma voiced_values pitch (time : list R) :
  length pitch = length time ->
  compress (map of_sample pitch) (map (fun p => negb (isnan p)) pitch)
  = map (fun p => Fin (snd p)) (voiced_points pitch time).
Proof.
  revert time.
  induction pitch as [|[f|] pitch IH]; intros [|t time] H; simpl in *;
    try discriminate; auto.
  f_equal. auto.
Qed.

Lemma combine_fin_knots (knots : list (R * R)) :
  combine (map fst knots) (map (fun p => Fin (snd p)) knots)
  = map fin_knot knots.
Proof. induction knots as [|p l IH]; simpl; auto. now rewrite IH. Qed.

Lemma map_fst_fin_knots knots : map fst (map fin_knot knots) = map fst knots.
Proof. rewrite map_map. apply map_ext. reflexivity. Qed.

(** Sorting knots that already come in increasing order changes nothing. *)
Lemma sort_knots_increasing (l : list (R * float)) :
  increasing (map fst l) -> sort_knots l = l.
Proof.
  induction l as [|k l IH]; intros H; simpl; auto.
  unfold sort_knots in *. simpl.
  rewrite IH by (simpl in H; now apply increasing_tail with (fst k)).
  destruct l as [|h t]; simpl; auto.
  destruct H as [Hlt _]. destruct (Rlt_dec (fst h) (fst k)); [lra|reflexivity].
Qed.

Lemma line_through_fin p q t :
  fst q <> fst p ->
  line_through (fin_knot p) (fin_knot q) t = Fin (segment p q t).
Proof.
  intros H. unfold line_through, fin_knot, segment. simpl fst. simpl snd.
  unfold fsub. simpl fneg. rewrite fadd_fin.
  rewrite fdiv_fin by lra. rewrite fmul_fin, fadd_fin.
  f_equal. field. lra.
Qed.

(** On knots of increasing abscissa the segment chosen through
    [searchsorted] and the clipping of the index is the one of the
    piecewise-linear interpolant. *)
Lemma interp_index_piecewise (knots : list (R * R)) (t : R) :
  increasing (map fst knots) ->
  (2 <= length knots)%nat ->
  let fk := map fin_knot knots in
  let idx := Nat.min (Nat.max (searchsorted (map fst fk) t) 1)
               (length fk - 1) in
  (1 <= idx)%nat
  /\ line_through (nth (idx - 1) fk (0, NaN)) (nth idx fk (0, NaN)) t
     = Fin (piecewise_linear knots t).
Proof.
  induction knots as [|p knots IH]; intros Hinc Hlen; [simpl in Hlen; lia|].
  destruct knots as [|q rest]; [simpl in Hlen; lia|].
  destruct rest as [|r rest].
  - simpl. assert (Hpq : fst p < fst q) by (simpl in Hinc; tauto).
    replace (Nat.min (Nat.max _ 1) 1) with 1%nat by lia.
    split; [lia|]. simpl. apply line_through_fin. lra.
  - assert (Hpq : fst p < fst q) by (simpl in Hinc; tauto).
    assert (Hinc' : increasing (map fst (q :: r :: rest)))
      by (simpl in *; tauto).
    specialize (IH Hinc' ltac:(simpl; lia)).
    cbv zeta in IH |- *. destruct IH as [IH1 IH2].
    change (piecewise_linear (p :: q :: r :: rest) t)
      with (if Rle_dec t (fst q) then segment p q t
            else piecewise_linear (q :: r :: rest) t).
    rewrite map_fst_fin_knots in *.
    destruct (Rle_dec t (fst q)) as [Hle|Hgt].
    + assert (Hss : (searchsorted (map fst (p :: q :: r :: rest)) t <= 1)%nat).
      { simpl. destruct (Rlt_dec (fst p) t); [|lia].
        destruct (Rlt_dec (fst q) t); [lra|lia]. }
      replace (Nat.min (Nat.max _ 1) _) with 1%nat by (simpl length; lia).
      split; [lia|]. simpl. apply line_through_fin. lra.
    + assert (Hss : searchsorted (map fst (p :: q :: r :: rest)) t
                    = S (searchsorted (map fst (q :: r :: rest)) t)).
      { simpl. destruct (Rlt_dec (fst p) t); [reflexivity|lra]. }
      assert (Hk : (1 <= searchsorted (map fst (q :: r :: rest)) t)%nat).
      { simpl. destruct (Rlt_dec (fst q) t); [lia|lra]. }
      rewrite Hss.
      set (k := searchsorted (map fst (q :: r :: rest)) t) in *.
      set (n := length (map fin_knot (q :: r :: rest))) in *.
      assert (Hn : length (map fin_knot (p :: q :: r :: rest)) = S n)
        by reflexivity.
      rewrite Hn.
      replace (Nat.min (Nat.max (S k) 1) (S n - 1))
        with (S (Nat.min (Nat.max k 1) (n - 1)))
        by (subst n; simpl length; lia).
      split; [lia|].
      rewrite <- IH2.
      set (i := Nat.min (Nat.max k 1) (n - 1)) in *.
      replace (S i - 1)%nat with (S (i - 1)) by lia.
      reflexivity.
Qed.

Lemma interp1d_voiced (knots : list (R * R)) (t : R) :
  increasing (map fst knots) ->
  (2 <= length knots)%nat ->
  interp1d (map fst knots) (map (fun p => Fin (snd p)) knots) t
  = Fin (piecewise_linear knots t).
Proof.
  intros Hinc Hlen. unfold interp1d. rewrite combine_fin_knots.
  rewrite sort_knots_increasing by now rewrite map_fst_fin_knots.
  apply (interp_index_piecewise knots t Hinc Hlen).
Qed.

Lemma clip_range_fin {A : Type} (g : A -> R) (l : list A) :
  KaraokeApp.clip_range (map (fun a => Fin (g a)) l)
  = map (fun a => plausible (g a)) l.
Proof.
  unfold KaraokeApp.clip_range. rewrite !map_map. apply map_ext.
  intros a. unfold plausible. simpl. unfold Rltb.
  destruct (Rlt_dec (g a) 50); simpl; [reflexivity|].
  unfold Rltb. destruct (Rlt_dec 2000 (g a)); reflexivity.
Qed.

Lemma clip_range_length l : length (KaraokeApp.clip_range l) = length l.
Proof. unfold KaraokeApp.clip_range. now rewrite !length_map. Qed.

Lemma map_const_repeat {A B : Type} (b : B) (l : list A) :
  map (fun _ => b) l = repeat b (length l).
Proof. induction l; simpl; congruence. Qed.

(** What [_align_pitch] returns on a well-formed source contour. *)
Lemma align_pitch_eval (user_pitch : array) (user_time : list R)
  (target_pitch : array) (target_time : list R) :
  length user_pitch = length user_time ->
  KaraokeApp._align_pitch user_pitch user_time target_pitch target_time
  = Ok (let voiced := voiced_points user_pitch user_time in
        if Nat.ltb (length voiced) 2
        then repeat NaN (length target_pitch)
        else KaraokeApp.clip_range
               (map (interp1d (map fst voiced)
                       (map (fun p => Fin (snd p)) voiced)) target_time)).
Proof.
  intros H. unfold KaraokeApp._align_pitch. cbv zeta.
  rewrite (voiced_mask_count user_pitch user_time H).
  destruct (Nat.ltb (length (voiced_points user_pitch user_time)) 2).
  - now rewrite map_const_repeat.
  - rewrite !bool_index_same_length by (rewrite ?length_map; auto).
    rewrite !bind_ok.
    now rewrite (voiced_times user_pitch user_time H),
      (voiced_values user_pitch user_time H).
Qed.

Lemma align_pitch_increasing (user_pitch : array) (user_time : list R)
  (target_pitch : array) (target_time : list R) :
  length user_pitch = length user_time ->
  (2 <= length (voiced_points user_pitch user_time))%nat ->
  increasing (map fst (voiced_points user_pitch user_time)) ->
  KaraokeApp._align_pitch user_pitch user_time target_pitch target_time
  = Ok (map (fun t => plausible
                        (piecewise_linear
                           (voiced_points user_pitch user_time) t))
          target_time).
Proof.
  intros H H2 Hinc. rewrite align_pitch_eval by assumption. cbv zeta.
  rewrite (proj2 (Nat.ltb_ge _ _) H2). f_equal.
  rewrite <- clip_range_fin. f_equal. apply map_ext.
  intros t. now apply interp1d_voiced.
Qed.

(** C4, as the code behaves: on a source contour as long as its time
    array, [_align_pitch] returns, with fewer than two voiced source
    points, an all-absent array as long as [target_pitch] (whatever the
    length of [target_time]); otherwise it returns exactly
    [len(target_time)] entries, each of them, the voiced times being
    increasing, the piecewise-linear interpolation through the voiced
    points, prolonged at both ends, with every value below 50 Hz or above
    2000 Hz turned into absent. *)
Theorem align_pitch_contract (user_pitch : array) (user_time : list R)
  (target_pitch : array) (target_time : list R)
  (Hsource : length user_pitch = length user_time) :
  let voiced := voiced_points user_pitch user_time in
  exists aligned,
    KaraokeApp._align_pitch user_pitch user_time target_pitch target_time
    = Ok aligned
    /\ ((length voiced < 2)%nat ->
        aligned = repeat NaN (length target_pitch))
    /\ ((2 <= length voiced)%nat ->
        length aligned = length target_time
        /\ (increasing (map fst voiced) ->
            aligned
            = map (fun t => plausible (piecewise_linear voiced t))
                target_time)).
Proof.
  intros voiced.
  rewrite align_pitch_eval by assumption.
  fold voiced. cbv zeta. eexists. split; [reflexivity|].
  destruct (Nat.ltb (length voiced) 2) eqn:E.
  - apply Nat.ltb_lt in E. split; [reflexivity|]. intros H. lia.
  - apply Nat.ltb_ge in E. split; [intros H; lia|]. intros _. split.
    + now rewrite clip_range_length, length_map.
    + intros Hinc. rewrite <- clip_range_fin. f_equal. apply map_ext.
      intros t. now apply interp1d_voiced.
Qed.

Lemma align_pitch_contract_witness :
  let voiced := voiced_points [Some 220; None; Some 440] [0; 1; 2] in
  exists aligned,
    KaraokeApp._align_pitch [Some 220; None; Some 440] [0; 1; 2]
      [Some 100; Some 100] [1; 3]
    = Ok aligned
    /\ ((length voiced < 2)%nat ->
        aligned = repeat NaN (length [Some 100; Some 100]))
    /\ ((2 <= length voiced)%nat ->
        length aligned = length [1; 3]
        /\ (increasing (map fst voiced) ->
            aligned
            = map (fun t => plausible (piecewise_linear voiced t)) [1; 3])).
Proof.
  apply (@align_pitch_contract [Some 220; None; Some 440] [0; 1; 2]
           [Some 100; Some 100] [1; 3]); reflexivity.
Defined.

(** C4 as stated fails on the length: with a single voiced source point,
    a target pitch array of three entries and a target time grid of two,
    the result has three entries. *)
Lemma align_pitch_contract_wrong_length :
  exists aligned,
    KaraokeApp._align_pitch [Some 440; None] [0; 1]
      [None; None; None] [0; 1] = Ok aligned
    /\ aligned = [NaN; NaN; NaN]
    /\ length aligned <> length [0; 1].
Proof.
  eexists. split; [reflexivity|]. split; [reflexivity|]. discriminate.
Qed.

(** The interpolant passes through its knots. *)
Lemma piecewise_linear_at_knot (knots : list (R * R)) (x y : R) :
  increasing (map fst knots) ->
  (2 <= length knots)%nat ->
  In (x, y) knots ->
  piecewise_linear knots x = y.
Proof.
  induction knots as [|p knots IH]; intros Hinc Hlen Hin;
    [simpl in Hlen; lia|].
  destruct knots as [|q rest]; [simpl in Hlen; lia|].
  assert (Hpq : fst p < fst q) by (simpl in Hinc; tauto).
  assert (Hp : segment p q (fst p) = snd p)
    by (unfold segment; field; lra).
  assert (Hq : segment p q (fst q) = snd q)
    by (unfold segment; field; lra).
  destruct rest as [|r rest].
  - simpl. destruct Hin as [E|[E|[]]]; subst; simpl in *; assumption.
  - change (piecewise_linear (p :: q :: r :: rest) x)
      with (if Rle_dec x (fst q) then segment p q x
            else piecewise_linear (q :: r :: rest) x).
    assert (Hinc' : increasing (map fst (q :: r :: rest)))
      by (simpl in *; tauto).
    assert (Hrest : In (x, y) (r :: rest) -> fst q < x).
    { intros Hr. apply (@increasing_in (fst q) (map fst (r :: rest)));
        [exact Hinc'|].
      change x with (fst (x, y)). now apply in_map. }
    destruct (Rle_dec x (fst q)) as [Hle|Hgt].
    + destruct Hin as [E|[E|Hr]]; [subst; simpl in *; assumption ..|].
      specialize (Hrest Hr). lra.
    + apply IH; [assumption|simpl; lia|].
      destruct Hin as [E|Hin]; [subst; simpl in *; lra|assumption].
Qed.

Lemma voiced_points_in pitch (time : list R) i v t :
  nth_error pitch i = Some (Some v) ->
  nth_error time i = Some t ->
  In (t, v) (voiced_points pitch time).
Proof.
  revert time i.
  induction pitch as [|[f|] pitch IH]; intros [|t0 time] [|i] Hp Ht;
    simpl in *; try discriminate.
  - left. congruence.
  - right. eauto.
  - eauto.
Qed.

Lemma plausible_in_range v : 50 <= v <= 2000 -> plausible v = Fin v.
Proof.
  intros H. unfold plausible.
  destruct (Rlt_dec v 50); [lra|]. destruct (Rlt_dec 2000 v); [lra|reflexivity].
Qed.

Lemma plausible_out_of_range v : v < 50 \/ 2000 < v -> plausible v = NaN.
Proof.
  intros H. unfold plausible.
  destruct (Rlt_dec v 50); [reflexivity|].
  destruct (Rlt_dec 2000 v); [reflexivity|lra].
Qed.

(** The entry that [_align_pitch] gives back at a voiced index of the
    contour's own grid. *)
Lemma align_own_grid_entry (pitch : array) (time : list R)
  (target_pitch : array) (i : nat) (v : R) :
  length pitch = length time ->
  increasing time ->
  (2 <= length (voiced_points pitch time))%nat ->
  nth_error pitch i = Some (Some v) ->
  exists aligned,
    KaraokeApp._align_pitch pitch time target_pitch time = Ok aligned
    /\ nth_error aligned i = Some (plausible v).
Proof.
  intros Hlen Hinc H2 Hv.
  pose proof (voiced_points_increasing pitch time Hinc) as Hvi.
  rewrite align_pitch_increasing by assumption.
  eexists. split; [reflexivity|].
  assert (Hi : (i < length time)%nat).
  { rewrite <- Hlen. apply nth_error_Some. congruence. }
  destruct (nth_error time i) as [t|] eqn:Ht;
    [|apply nth_error_None in Ht; lia].
  rewrite nth_error_map, Ht. simpl. do 2 f_equal.
  apply piecewise_linear_at_knot; try assumption.
  eapply voiced_points_in; eassumption.
Qed.

Lemma spaced_increasing (gap : R) (xs : list R) :
  0 < gap -> spaced gap xs -> increasing xs.
Proof.
  intros Hgap. induction xs as [|x xs IH]; [auto|].
  destruct xs as [|y xs]; [auto|].
  intros [Hxy Hrest]. split; [lra|]. now apply IH.
Qed.

(** C9, as the code behaves: take a contour of ordinary size, as long as
    its time array, with times at least a microsecond apart, and align it
    onto its own time grid.  With fewer than two voiced points everything
    comes back absent.  Otherwise a voiced point comes back with its own
    value when its frequency lies in [50, 2000] Hz by a margin of 1e-6 Hz,
    and absent when it lies outside [50, 2000] Hz by that margin. *)
Theorem align_on_own_grid (pitch : array) (time : list R)
  (target_pitch : array)
  (Hlen : length pitch = length time)
  (Htame : tame pitch time) :
  exists aligned,
    KaraokeApp._align_pitch pitch time target_pitch time = Ok aligned
    /\ ((length (voiced_points pitch time) < 2)%nat ->
        aligned = repeat NaN (length target_pitch))
    /\ ((2 <= length (voiced_points pitch time))%nat ->
        forall (i : nat) (v : R),
          nth_error pitch i = Some (Some v) ->
          (50 + margin <= v <= 2000 - margin ->
           nth_error aligned i = Some (Fin v))
          /\ (v <= 50 - margin \/ 2000 + margin <= v ->
              nth_error aligned i = Some NaN)).
Proof.
  assert (Hinc : increasing time).
  { apply (spaced_increasing 1e-6); [lra|apply Htame]. }
  destruct (Nat.lt_ge_cases (length (voiced_points pitch time)) 2)
    as [Hfew|Hvoiced].
  - rewrite align_pitch_eval by assumption. cbv zeta.
    rewrite (proj2 (Nat.ltb_lt _ _) Hfew).
    eexists. split; [reflexivity|]. split; [reflexivity|]. intros H. lia.
  - pose proof (voiced_points_increasing pitch time Hinc) as Hvi.
    rewrite align_pitch_increasing by assumption.
    eexists. split; [reflexivity|]. split; [intros H; lia|].
    intros _ i v Hv.
    assert (Hi : (i < length time)%nat).
    { rewrite <- Hlen. apply nth_error_Some. congruence. }
    destruct (nth_error time i) as [t|] eqn:Ht;
      [|apply nth_error_None in Ht; lia].
    assert (Hentry :
              nth_error
                (map (fun t0 => plausible
                                  (piecewise_linear
                                     (voiced_points pitch time) t0)) time) i
              = Some (plausible v)).
    { rewrite nth_error_map, Ht. simpl. do 2 f_equal.
      apply piecewise_linear_at_knot; try assumption.
      eapply voiced_points_in; eassumption. }
    rewrite Hentry. unfold margin. split; intros Hr.
    + rewrite plausible_in_range by lra. reflexivity.
    + rewrite plausible_out_of_range by lra. reflexivity.
Qed.

Lemma align_on_own_grid_witness :
  exists aligned,
    KaraokeApp._align_pitch [Some 220; None; Some 440] [0; 1; 2]
      [Some 220; None; Some 440] [0; 1; 2] = Ok aligned
    /\ nth_error aligned 2 = Some (Fin 440).
Proof.
  destruct (@align_on_own_grid [Some 220; None; Some 440] [0; 1; 2]
              [Some 220; None; Some 440]) as [aligned [Ha [_ Hv]]].
  - reflexivity.
  - unfold tame. split; [|split].
    + repeat (apply Forall_cons;
              [first [exact I|rewrite Rabs_pos_eq by lra; lra]|]).
      apply Forall_nil.
    + repeat (apply Forall_cons; [rewrite Rabs_pos_eq by lra; lra|]).
      apply Forall_nil.
    + simpl. lra.
  - exists aligned. split; [exact Ha|].
    apply (Hv ltac:(simpl; lia) 2%nat 440 eq_refl). unfold margin. lra.
Defined.

(** C9 as stated fails twice over: a voiced 30 Hz point comes back absent
    (the plausibility filter), and so does the single voiced point of a
    contour that has no second one. *)
Lemma align_on_own_grid_loses_voiced_points :
  (exists aligned,
      KaraokeApp._align_pitch [Some 30; Some 100] [0; 1]
        [Some 30; Some 100] [0; 1] = Ok aligned
      /\ nth_error [Some 30; Some 100] 0 = Some (Some 30)
      /\ nth_error aligned 0 = Some NaN)
  /\ (exists aligned,
         KaraokeApp._align_pitch [Some 440; None] [0; 1]
           [Some 440; None] [0; 1] = Ok aligned
         /\ nth_error [Some 440; None] 0 = Some (Some 440)
         /\ nth_error aligned 0 = Some NaN).
Proof.
  split.
  - destruct (@align_own_grid_entry [Some 30; Some 100] [0; 1]
                [Some 30; Some 100] 0 30) as [aligned [Ha Hn]];
      [reflexivity|simpl; lra|simpl; lia|reflexivity|].
    exists aligned. repeat split; [assumption|].
    rewrite Hn. f_equal. apply plausible_out_of_range. lra.
  - eexists. split; [|split]; reflexivity.
Qed.

(** ** PerformanceAnalyzer.detect_vibrato *)

Section VibratoFacts.

Variable vibrato_freq_range : R * R.
Variable min_vibrato_depth : R.

(** [detect_vibrato] read as a cascade over its named stages. *)
Lemma detect_vibrato_stages (pitch : array) (time : list R) :
  detect_vibrato vibrato_freq_range min_vibrato_depth pitch time
  = if Nat.ltb (count_true (voiced_mask pitch)) 100 then Ok not_detected
    else
      valid_pitch <- bool_index (map of_sample pitch) (voiced_mask pitch) ;;
      valid_time <- bool_index (map Fin time) (voiced_mask pitch) ;;
      residual <- broadcast fsub valid_pitch
                    (smooth valid_pitch) ;;
      if Nat.ltb (max_lag residual) 10 then Ok not_detected
      else
        match vibrato_peaks residual with
        | [] => Ok not_detected
        | best_lag :: _ =>
            let f := vibrato_frequency valid_time best_lag in
            let d := vibrato_depth residual (smooth valid_pitch) in
            if negb (in_freq_range vibrato_freq_range f) then Ok not_detected
            else if flt (fabs d) (Fin min_vibrato_depth) then Ok not_detected
            else Ok (mkVibratoMetrics true (Some f) (Some (fabs d))
                       (vibrato_coverage residual))
        end.
Proof. reflexivity. Qed.

Lemma broadcast_length_left {A B C : Type} (f : A -> B -> C) xs ys zs :
  broadcast f xs ys = Ok zs -> (2 <= length xs)%nat -> length zs = length xs.
Proof.
  unfold broadcast. intros H Hx.
  destruct (Nat.eqb (length xs) (length ys)) eqn:E.
  - apply Nat.eqb_eq in E. injection H as <-. now apply map2_length.
  - destruct xs as [|x [|x' xs]]; simpl in Hx; try lia.
    destruct ys as [|y [|y' ys]]; try discriminate.
    injection H as <-. simpl. now rewrite length_map.
Qed.

Lemma bool_index_length {A : Type} (a : list A) mask v :
  bool_index a mask = Ok v -> length v = count_true mask.
Proof.
  unfold bool_index. destruct (Nat.eqb (length a) (length mask)) eqn:E;
    [|discriminate].
  apply Nat.eqb_eq in E. intros H. injection H as <-.
  now apply compress_length.
Qed.

(** After the frame-count gate the lag window holds at least 50 lags, so
    the [max_lag < 10] return is never taken. *)
Lemma max_lag_after_frame_gate pitch valid_pitch residual :
  Nat.ltb (count_true (voiced_mask pitch)) 100 = false ->
  bool_index (map of_sample pitch) (voiced_mask pitch) = Ok valid_pitch ->
  broadcast fsub valid_pitch (smooth valid_pitch) = Ok residual ->
  Nat.ltb (max_lag residual) 10 = false.
Proof.
  intros Hc Hv Hr. apply Nat.ltb_ge in Hc. apply Nat.ltb_ge.
  apply bool_index_length in Hv.
  apply broadcast_length_left in Hr; [|lia].
  unfold max_lag. rewrite Hr, Hv.
  apply Nat.div_le_lower_bound; lia.
Qed.

(** The four gates of [detect_vibrato], each on its own, and what a
    detection guarantees. *)
Lemma detect_vibrato_gates (pitch : array) (time : list R)
  (m : VibratoMetrics) :
  detect_vibrato vibrato_freq_range min_vibrato_depth pitch time
  = Ok m ->
  (detected m = false -> m = not_detected)
  /\ ((count_true (voiced_mask pitch) < 100)%nat -> detected m = false)
  /\ (forall valid_pitch valid_time residual,
         bool_index (map of_sample pitch) (voiced_mask pitch) = Ok valid_pitch ->
         bool_index (map Fin time) (voiced_mask pitch) = Ok valid_time ->
         broadcast fsub valid_pitch (smooth valid_pitch)
         = Ok residual ->
         (vibrato_peaks residual = [] -> detected m = false)
         /\ (forall best_lag,
                hd_error (vibrato_peaks residual) = Some best_lag ->
                in_freq_range vibrato_freq_range
                  (vibrato_frequency valid_time best_lag) = false ->
                detected m = false)
         /\ (flt (fabs (vibrato_depth residual
                          (smooth valid_pitch)))
                 (Fin min_vibrato_depth) = true ->
             detected m = false))
  /\ (detected m = true ->
      exists f d,
        frequency_hz m = Some f /\ depth_cents m = Some d
        /\ in_freq_range vibrato_freq_range f = true
        /\ flt d (Fin min_vibrato_depth) = false).
Proof.
  rewrite detect_vibrato_stages.
  destruct (Nat.ltb (count_true (voiced_mask pitch)) 100) eqn:Ec.
  { intros H. injection H as <-.
    repeat (split || intro); try reflexivity; discriminate. }
  apply Nat.ltb_ge in Ec.
  destruct (bool_index (map of_sample pitch) (voiced_mask pitch))
    as [vp|e] eqn:Evp; [|discriminate].
  rewrite bind_ok.
  destruct (bool_index (map Fin time) (voiced_mask pitch))
    as [vt|e] eqn:Evt; [|discriminate].
  rewrite bind_ok.
  destruct (broadcast fsub vp (smooth vp))
    as [res|e] eqn:Eres; [|discriminate].
  rewrite bind_ok.
  rewrite (max_lag_after_frame_gate pitch vp res)
    by (try apply Nat.ltb_ge; assumption).
  assert (Hstages :
    forall valid_pitch valid_time residual,
      Ok vp = Ok valid_pitch -> Ok vt = Ok valid_time ->
      broadcast fsub valid_pitch (smooth valid_pitch)
      = Ok residual ->
      valid_pitch = vp /\ valid_time = vt /\ residual = res).
  { intros a b c Ha Hb Hc. injection Ha as <-. injection Hb as <-.
    rewrite Eres in Hc. injection Hc as <-. auto. }
  destruct (vibrato_peaks res) as [|best_lag rest] eqn:Ep.
  { intros H. injection H as <-.
    repeat (split || intro); try reflexivity; discriminate. }
  cbv zeta.
  destruct (in_freq_range vibrato_freq_range (vibrato_frequency vt best_lag))
    eqn:Ef; simpl negb; cbv iota.
  2:{ intros H. injection H as <-.
      repeat (split || intro); try reflexivity; discriminate. }
  destruct (flt (fabs (vibrato_depth res (smooth vp)))
              (Fin min_vibrato_depth)) eqn:Ed.
  { intros H. injection H as <-.
    repeat (split || intro); try reflexivity; discriminate. }
  intros H. injection H as <-. simpl. split; [discriminate|].
  split; [lia|]. split.
  - intros a b c Ha Hb Hc.
    destruct (Hstages a b c Ha Hb Hc) as [-> [-> ->]].
    split; [|split].
    + intros Hnil. rewrite Ep in Hnil. discriminate.
    + intros l Hl Hr. rewrite Ep in Hl. simpl in Hl. injection Hl as <-.
      rewrite Ef in Hr. discriminate.
    + intros Hd. rewrite Ed in Hd. discriminate.
  - intros _. do 2 eexists. repeat split; try reflexivity; assumption.
Qed.

Lemma flt_false_not_below d x :
  flt d (Fin x) = false -> d = NaN \/ fle (Fin x) d = true.
Proof.
  destruct d as [| |y|]; simpl.
  - auto.
  - discriminate.
  - unfold Rltb, Rleb. destruct (Rlt_dec y x); [discriminate|].
    intros _. right. destruct (Rle_dec x y); [reflexivity|lra].
  - auto.
Qed.

End VibratoFacts.

(** C3, evaluated where it fails: the peak search runs over the lags below
    half the residual's length and nothing else bounds it.  For 400 voiced
    frames it reads lags 0..199 whatever the time array; at a frame step of
    10 ms that is 2 seconds of lag, four times the 0.5 s that the source's
    comment announces. *)
Theorem peak_search_window_not_capped (residual : list float)
  (Hframes : length residual = 400%nat) :
  max_lag residual = 200%nat
  /\ vibrato_peaks residual
     = find_peaks (firstn 200 (normalised_autocorr residual)) 0.3
  /\ INR (max_lag residual) * 0.01 = 2
  /\ 2 > 0.5.
Proof.
  assert (H : max_lag residual = 200%nat)
    by (unfold max_lag; rewrite Hframes; reflexivity).
  repeat split.
  - exact H.
  - unfold vibrato_peaks. now rewrite H.
  - rewrite H. replace (INR 200) with 200 by (rewrite INR_IZR_INZ; reflexivity).
    lra.
  - lra.
Qed.

Lemma peak_search_window_not_capped_witness :
  max_lag (repeat (Fin 0) 400) = 200%nat
  /\ vibrato_peaks (repeat (Fin 0) 400)
     = find_peaks (firstn 200 (normalised_autocorr (repeat (Fin 0) 400))) 0.3
  /\ INR (max_lag (repeat (Fin 0) 400)) * 0.01 = 2
  /\ 2 > 0.5.
Proof.
  apply (peak_search_window_not_capped (repeat (Fin 0) 400)).
  apply repeat_length.
Defined.

(** ** Rational floats compute what the real ones do *)

Lemma Q2R_red q : Q2R (Qred q) = Q2R q.
Proof. apply Qeq_eqR, Qred_correct. Qed.

Lemma Q2R_zero : Q2R 0 = 0.
Proof. unfold Q2R. simpl. lra. Qed.

Lemma Qltb_Rltb x y : Qltb x y = Rltb (Q2R x) (Q2R y).
Proof.
  unfold Qltb, Rltb. destruct (Qcompare_spec x y) as [H|H|H];
    destruct (Rlt_dec (Q2R x) (Q2R y)) as [L|L]; try reflexivity.
  - apply Qeq_eqR in H. lra.
  - apply Qlt_Rlt in H. contradiction.
  - apply Qlt_Rlt in H. lra.
Qed.

Lemma Qleb_Rleb x y : Qle_bool x y = Rleb (Q2R x) (Q2R y).
Proof.
  unfold Rleb. destruct (Rle_dec (Q2R x) (Q2R y)) as [L|L].
  - apply Qle_bool_iff. now apply Rle_Qle.
  - destruct (Qle_bool x y) eqn:E; [|reflexivity].
    apply Qle_bool_iff, Qle_Rle in E. contradiction.
Qed.

Lemma Qeqb_Reqb x y : Qeq_bool x y = Reqb (Q2R x) (Q2R y).
Proof.
  unfold Reqb. destruct (Req_dec_T (Q2R x) (Q2R y)) as [E|E].
  - apply Qeq_bool_iff. now apply eqR_Qeq.
  - destruct (Qeq_bool x y) eqn:B; [|reflexivity].
    apply Qeq_bool_iff, Qeq_eqR in B. contradiction.
Qed.

Lemma embed_neg a : embed (qneg a) = fneg (embed a).
Proof.
  destruct a; cbn [embed qneg fneg]; try reflexivity. now rewrite Q2R_opp.
Qed.

Lemma embed_add a b : embed (qadd a b) = fadd (embed a) (embed b).
Proof.
  destruct a, b; cbn [embed qadd fadd]; try reflexivity.
  now rewrite Q2R_red, Q2R_plus.
Qed.

Lemma embed_sub a b : embed (qsub a b) = fsub (embed a) (embed b).
Proof. unfold qsub, fsub. now rewrite embed_add, embed_neg. Qed.

Lemma qsign_fsign a : qsign a = fsign (embed a).
Proof.
  destruct a as [| |x|]; cbn [embed qsign fsign]; try reflexivity.
  rewrite !Qltb_Rltb, Q2R_zero. unfold Rltb.
  destruct (Rlt_dec (Q2R x) 0); [reflexivity|].
  destruct (Rlt_dec 0 (Q2R x)); reflexivity.
Qed.

Lemma embed_signed_inf s : embed (qsigned_inf s) = signed_inf s.
Proof. now destruct s. Qed.

Lemma embed_mul a b : embed (qmul a b) = fmul (embed a) (embed b).
Proof.
  destruct a as [| |x|], b as [| |y|]; try reflexivity.
  - unfold qmul, fmul. cbn [embed].
    change (Fin (Q2R y)) with (embed (QFin y)). rewrite <- qsign_fsign.
    destruct (qsign (QFin y)) as [[|]|]; reflexivity.
  - unfold qmul, fmul. cbn [embed].
    change (Fin (Q2R x)) with (embed (QFin x)). rewrite <- qsign_fsign.
    destruct (qsign (QFin x)) as [[|]|]; reflexivity.
  - cbn [embed qmul fmul]. now rewrite Q2R_red, Q2R_mult.
  - unfold qmul, fmul. cbn [embed].
    change (Fin (Q2R x)) with (embed (QFin x)). rewrite <- qsign_fsign.
    destruct (qsign (QFin x)) as [[|]|]; reflexivity.
  - unfold qmul, fmul. cbn [embed].
    change (Fin (Q2R y)) with (embed (QFin y)). rewrite <- qsign_fsign.
    destruct (qsign (QFin y)) as [[|]|]; reflexivity.
Qed.

Lemma embed_div a b : embed (qdiv a b) = fdiv (embed a) (embed b).
Proof.
  destruct a as [| |x|], b as [| |y|]; try reflexivity.
  - cbn [qdiv fdiv embed fsign qsign]. rewrite Qltb_Rltb, Q2R_zero.
    apply embed_signed_inf.
  - cbn [qdiv fdiv embed]. now rewrite Q2R_zero.
  - cbn [qdiv fdiv embed]. rewrite Qeqb_Reqb, Q2R_zero. unfold Reqb.
    destruct (Req_dec_T (Q2R y) 0) as [E|E].
    + change (Fin (Q2R x)) with (embed (QFin x)). rewrite <- qsign_fsign.
      destruct (qsign (QFin x)); [apply embed_signed_inf|reflexivity].
    + cbn [embed]. rewrite Q2R_red, Q2R_div; [reflexivity|].
      intros C. apply Qeq_eqR in C. rewrite Q2R_zero in C. contradiction.
  - cbn [qdiv fdiv embed]. now rewrite Q2R_zero.
  - cbn [qdiv fdiv embed fsign qsign]. rewrite Qltb_Rltb, Q2R_zero.
    apply embed_signed_inf.
Qed.

Lemma qlt_flt a b : qlt a b = flt (embed a) (embed b).
Proof.
  destruct a, b; cbn [embed qlt flt]; try reflexivity. apply Qltb_Rltb.
Qed.

Lemma qle_fle a b : qle a b = fle (embed a) (embed b).
Proof.
  destruct a, b; cbn [embed qle fle]; try reflexivity. apply Qleb_Rleb.
Qed.

Lemma qeq_feq a b : qeq a b = feq (embed a) (embed b).
Proof.
  destruct a, b; cbn [embed qeq feq]; try reflexivity. apply Qeqb_Reqb.
Qed.

Lemma embed_max2 a b : embed (qmax2 a b) = fmax2 (embed a) (embed b).
Proof.
  destruct a as [| |x|], b as [| |y|]; try reflexivity.
  unfold qmax2, fmax2. cbn [embed].
  rewrite (qlt_flt (QFin x) (QFin y)). cbn [embed].
  now destruct (flt (Fin (Q2R x)) (Fin (Q2R y))).
Qed.

Lemma embed_max_list l : fmax_list (map embed l) = embed (qmax_list l).
Proof.
  destruct l as [|x l]; [reflexivity|]. simpl. revert x.
  induction l as [|y l IH]; intros x; simpl; [reflexivity|].
  now rewrite <- embed_max2, IH.
Qed.

Lemma embed_sum l : fsum (map embed l) = embed (qsum l).
Proof.
  induction l as [|x l IH]; simpl.
  - now rewrite Q2R_zero.
  - unfold fsum, qsum in *. simpl. now rewrite IH, embed_add.
Qed.

Lemma embed_nat n : Fin (INR n) = embed (qnat n).
Proof.
  simpl. f_equal. rewrite INR_IZR_INZ. unfold Q2R. simpl. lra.
Qed.

Lemma embed_mean l : fmean (map embed l) = embed (qmean l).
Proof.
  unfold fmean, qmean.
  now rewrite embed_sum, length_map, embed_nat, embed_div.
Qed.

Lemma map2_embed {A : Type} (f : A -> float -> float)
  (g : A -> qfloat -> qfloat) (cs : list A) (ws : list qfloat) :
  (forall c w, f c (embed w) = embed (g c w)) ->
  map2 f cs (map embed ws) = map embed (map2 g cs ws).
Proof.
  intros H. revert ws. induction cs as [|c cs IH]; intros [|w ws]; simpl;
    try reflexivity.
  now rewrite H, IH.
Qed.

Lemma map2_embed2 (f : float -> float -> float)
  (g : qfloat -> qfloat -> qfloat) (xs ys : list qfloat) :
  (forall a b, f (embed a) (embed b) = embed (g a b)) ->
  map2 f (map embed xs) (map embed ys) = map embed (map2 g xs ys).
Proof.
  intros H. revert ys. induction xs as [|x xs IH]; intros [|y ys]; simpl;
    try reflexivity.
  now rewrite H, IH.
Qed.

Lemma tl_map {A B : Type} (f : A -> B) l : tl (map f l) = map f (tl l).
Proof. now destruct l. Qed.

Lemma embed_diff l : np_diff (map embed l) = map embed (qdiff l).
Proof.
  unfold np_diff, qdiff. rewrite tl_map. apply map2_embed2.
  intros a b. now rewrite embed_sub.
Qed.

Lemma embed_correlate_lag a v k :
  correlate_lag (map embed a) (map embed v) k = embed (qcorrelate_lag a v k).
Proof.
  unfold correlate_lag, qcorrelate_lag. rewrite skipn_map.
  rewrite (map2_embed2 fmul qmul) by (intros; now rewrite embed_mul).
  apply embed_sum.
Qed.

Lemma embed_autocorrelation a :
  autocorrelation (map embed a) = map embed (qautocorrelation a).
Proof.
  unfold autocorrelation, qautocorrelation. rewrite length_map, map_map.
  apply map_ext. intros k. apply embed_correlate_lag.
Qed.

Lemma embed_nth i l : nth i (map embed l) NaN = embed (nth i l QNaN).
Proof. apply (map_nth embed l QNaN i). Qed.

Lemma embed_normalised_autocorr r :
  normalised_autocorr (map embed r) = map embed (qnormalised_autocorr r).
Proof.
  unfold normalised_autocorr, qnormalised_autocorr. cbv zeta.
  rewrite embed_mean, !map_map.
  rewrite (map_ext (fun x => fsub (embed x) (embed (qmean r)))
             (fun x => embed (qsub x (qmean r))))
    by (intros; now rewrite embed_sub).
  rewrite <- (map_map (fun x => qsub x (qmean r)) embed).
  rewrite embed_autocorrelation, embed_nth, !map_map.
  apply map_ext. intros c. now rewrite embed_div.
Qed.

Lemma embed_look_ahead x xi i_max fuel i :
  look_ahead (map embed x) (embed xi) i_max fuel i
  = qlook_ahead x xi i_max fuel i.
Proof.
  revert i. induction fuel as [|fuel IH]; intros i; simpl; [reflexivity|].
  rewrite embed_nth, <- qeq_feq, IH. reflexivity.
Qed.

Lemma embed_local_maxima_loop x i_max fuel i :
  local_maxima_loop (map embed x) i_max fuel i
  = qlocal_maxima_loop x i_max fuel i.
Proof.
  revert i. induction fuel as [|fuel IH]; intros i;
    cbn [local_maxima_loop qlocal_maxima_loop]; [reflexivity|].
  cbv zeta.
  rewrite !embed_nth, length_map, embed_look_ahead, <- !qlt_flt.
  rewrite !IH. reflexivity.
Qed.

Lemma embed_find_peaks x (h : R) (hq : Q) :
  h = Q2R hq -> find_peaks (map embed x) h = qfind_peaks x hq.
Proof.
  intros ->. unfold find_peaks, qfind_peaks, local_maxima_1d.
  rewrite length_map, embed_local_maxima_loop.
  apply filter_ext. intros p.
  now rewrite embed_nth, (qle_fle (QFin hq)).
Qed.

Lemma three_tenths : 0.3 = Q2R (3 # 10).
Proof. unfold Q2R. simpl. lra. Qed.

Lemma embed_vibrato_peaks r :
  vibrato_peaks (map embed r) = qvibrato_peaks r.
Proof.
  unfold vibrato_peaks, qvibrato_peaks, max_lag.
  rewrite length_map, embed_normalised_autocorr, firstn_map.
  apply embed_find_peaks, three_tenths.
Qed.

Lemma embed_one : Fin 1 = embed (QFin 1).
Proof. simpl. f_equal. unfold Q2R. simpl. lra. Qed.

Lemma embed_vibrato_frequency vt lag :
  vibrato_frequency (map embed vt) lag = embed (qvibrato_frequency vt lag).
Proof.
  unfold vibrato_frequency, qvibrato_frequency.
  now rewrite embed_diff, embed_mean, embed_one, embed_nat, <- !embed_div.
Qed.

Lemma embed_savgol_fit w p window j :
  savgol_fit w p (map embed window) j = embed (qsavgol_fit w p window j).
Proof.
  unfold savgol_fit, qsavgol_fit.
  rewrite (map2_embed (fun c v => fmul (Fin (Q2R c)) v)
             (fun c v => qmul (QFin c) v)).
  - apply embed_sum.
  - intros c v. now rewrite embed_mul.
Qed.

Lemma embed_savgol_filter x w p :
  savgol_filter (map embed x) w p
  = option_map (map embed) (qsavgol_filter x w p).
Proof.
  unfold savgol_filter, qsavgol_filter. cbv zeta. rewrite length_map.
  destruct (Nat.even w || Nat.leb w p || Nat.ltb (length x) w);
    [reflexivity|].
  cbn [option_map]. f_equal. rewrite map_map. apply map_ext. intros i.
  rewrite !skipn_map, !firstn_map.
  rewrite !embed_savgol_fit.
  destruct (Nat.ltb i (w / 2)); [reflexivity|].
  destruct (Nat.leb (length x - w / 2) i); reflexivity.
Qed.

(** ** detect_vibrato on the contour of [slip_hz] *)

Lemma voiced_mask_all_voiced (l : list Q) :
  voiced_mask (map (fun q => Some (Q2R q)) l) = repeat true (length l).
Proof. induction l as [|q l IH]; simpl; [reflexivity|]. now f_equal. Qed.

Lemma count_true_repeat n : count_true (repeat true n) = n.
Proof. unfold count_true. induction n; simpl; auto. Qed.

Lemma compress_all {A : Type} (a : list A) :
  compress a (repeat true (length a)) = a.
Proof. induction a as [|x a IH]; simpl; [reflexivity|]. now f_equal. Qed.

Lemma slip_lengths :
  length slip_hz = 100%nat /\ length slip_seconds = 100%nat
  /\ length slip_smoothed = 100%nat /\ length slip_residual = 100%nat.
Proof. vm_compute. auto. Qed.

Lemma slip_pitch_valid :
  bool_index (map of_sample slip_pitch) (voiced_mask slip_pitch)
  = Ok (map embed slip_valid).
Proof.
  unfold slip_pitch, slip_valid. rewrite voiced_mask_all_voiced, !map_map.
  cbn [of_sample].
  rewrite <- (length_map (fun x => Fin (Q2R x)) slip_hz).
  rewrite bool_index_same_length by now rewrite repeat_length.
  now rewrite compress_all.
Qed.

Lemma slip_time_valid :
  bool_index (map Fin slip_time) (voiced_mask slip_pitch)
  = Ok (map embed (map QFin slip_seconds)).
Proof.
  destruct slip_lengths as [Hp [Ht _]].
  unfold slip_pitch, slip_time. rewrite voiced_mask_all_voiced, !map_map.
  cbn [embed]. rewrite Hp, <- Ht.
  rewrite <- (length_map (fun x => Fin (Q2R x)) slip_seconds).
  rewrite bool_index_same_length by now rewrite repeat_length.
  now rewrite compress_all.
Qed.

Lemma slip_smooth :
  smooth (map embed slip_valid) = map embed slip_smoothed.
Proof.
  unfold smooth. rewrite length_map.
  replace (length slip_valid) with 100%nat by (vm_compute; reflexivity).
  change (Nat.min 51 (100 / 2 * 2 + 1)) with 51%nat.
  rewrite embed_savgol_filter. unfold slip_smoothed.
  assert (H : exists s, qsavgol_filter slip_valid 51 3 = Some s)
    by (vm_compute; eauto).
  destruct H as [s ->]. reflexivity.
Qed.

Lemma slip_residual_ok :
  broadcast fsub (map embed slip_valid) (map embed slip_smoothed)
  = Ok (map embed slip_residual).
Proof.
  rewrite broadcast_same_length.
  - unfold slip_residual. f_equal. apply map2_embed2.
    intros a b. now rewrite embed_sub.
  - rewrite !length_map. vm_compute. reflexivity.
Qed.

Lemma slip_peaks : qvibrato_peaks slip_residual = [24%nat].
Proof. vm_compute. reflexivity. Qed.

Lemma slip_frequency :
  qvibrato_frequency (map QFin slip_seconds) 24 = QFin (25 # 6).
Proof. vm_compute. reflexivity. Qed.

(** Every residual is negative while the smoothed contour is positive:
    their quotient is a negative number. *)
Lemma slip_depth_ratio :
  exists q, qdiv (qmax_list slip_residual) (qmean slip_smoothed) = QFin q
            /\ Qltb q 0 = true.
Proof. vm_compute. eauto. Qed.

Lemma flog2_negative q : Qltb q 0 = true -> flog2 (embed (QFin q)) = NaN.
Proof.
  rewrite Qltb_Rltb, Q2R_zero. unfold Rltb. cbn [embed flog2].
  destruct (Rlt_dec (Q2R q) 0); [reflexivity|discriminate].
Qed.

Lemma slip_depth :
  vibrato_depth (map embed slip_residual) (map embed slip_smoothed) = NaN.
Proof.
  unfold vibrato_depth. rewrite embed_max_list, embed_mean, <- embed_div.
  destruct slip_depth_ratio as [q [-> Hq]].
  now rewrite flog2_negative.
Qed.

Lemma slip_in_range :
  in_freq_range (4, 8) (embed (QFin (25 # 6))) = true.
Proof.
  unfold in_freq_range. cbn [fst snd embed fle].
  assert (H : Q2R (25 # 6) = 25 / 6) by (unfold Q2R; simpl; lra).
  rewrite H, !Rleb_true by lra. reflexivity.
Qed.

(** C8, evaluated where it fails: on the 100-frame contour [slip_pitch]
    (200 to 400 Hz, 10 ms between frames) every gate passes, and
    [detect_vibrato] reports a detection at 25/6 Hz whose depth is NaN:
    all residuals are negative, so the logarithm's argument is negative,
    and NaN is not below the minimum depth.  The reported depth is
    therefore not at least [min_vibrato_depth]. *)
Theorem vibrato_detected_with_nan_depth :
  exists m,
    detect_vibrato (4, 8) 30 slip_pitch slip_time = Ok m
    /\ detected m = true
    /\ frequency_hz m = Some (Fin (Q2R (25 # 6)))
    /\ depth_cents m = Some NaN
    /\ fle (Fin 30) NaN = false.
Proof.
  rewrite detect_vibrato_stages.
  assert (Hc : count_true (voiced_mask slip_pitch) = 100%nat).
  { unfold slip_pitch. rewrite voiced_mask_all_voiced, count_true_repeat.
    apply slip_lengths. }
  rewrite Hc. change (Nat.ltb 100 100) with false. cbv iota.
  rewrite slip_pitch_valid, bind_ok, slip_time_valid, bind_ok.
  rewrite slip_smooth, slip_residual_ok, bind_ok.
  assert (Hl : max_lag (map embed slip_residual) = 50%nat).
  { unfold max_lag. rewrite length_map.
    destruct slip_lengths as [_ [_ [_ ->]]]. reflexivity. }
  rewrite Hl. change (Nat.ltb 50 10) with false. cbv iota.
  rewrite embed_vibrato_peaks, slip_peaks. cbv zeta.
  rewrite embed_vibrato_frequency, slip_frequency, slip_in_range.
  cbn [negb]. rewrite slip_depth. cbn [fabs flt].
  eexists. split; [reflexivity|]. cbn. auto.
Qed.

(** * Further properties of performance.py *)

(** ** The tolerance test, frame by frame *)

Lemma fsign_1200 : fsign (Fin 1200) = Some false.
Proof.
  simpl. destruct (Rlt_dec 1200 0); [lra|].
  destruct (Rlt_dec 0 1200); [reflexivity|lra].
Qed.

Lemma cents_error_finite a b :
  b <> 0 -> 0 < a / b ->
  cents_error (a, b) = Fin (Rabs (1200 * log2 (a / b))).
Proof.
  intros Hb Hr. unfold cents_error. simpl fst. simpl snd.
  rewrite fdiv_fin by assumption. unfold flog2.
  destruct (Rlt_dec (a / b) 0); [lra|].
  destruct (Rlt_dec 0 (a / b)); [|lra]. reflexivity.
Qed.

Lemma cents_error_not_finite a b :
  ~ (b <> 0 /\ 0 < a / b) ->
  cents_error (a, b) = NaN \/ cents_error (a, b) = PInf.
Proof.
  intros H. unfold cents_error. simpl fst. simpl snd.
  destruct (Req_dec_T b 0) as [Hb|Hb].
  - subst b. cbn [fdiv]. destruct (Req_dec_T 0 0) as [_|C]; [|congruence].
    destruct (fsign (Fin a)) as [[|]|]; cbn [signed_inf flog2 fmul fabs];
      rewrite ?fsign_1200; cbn; auto.
  - rewrite fdiv_fin by assumption. unfold flog2.
    destruct (Rlt_dec (a / b) 0); [cbn; auto|].
    destruct (Rlt_dec 0 (a / b)); [exfalso; apply H; auto|].
    cbn [fmul]. rewrite fsign_1200. cbn. auto.
Qed.

(** A paired frame passes the tolerance test exactly when the two
    frequencies are non-zero, of the same sign, and less than the tolerance
    apart in cents. *)
Lemma cents_within_iff tol a b :
  cents_within tol (a, b) = true
  <-> b <> 0 /\ 0 < a / b /\ Rabs (1200 * log2 (a / b)) < tol.
Proof.
  unfold cents_within. split.
  - intros H.
    destruct (Req_dec_T b 0) as [Hb|Hb];
      [|destruct (Rlt_dec 0 (a / b)) as [Hr|Hr]].
    + destruct (cents_error_not_finite a b) as [E|E];
        [tauto|rewrite E in H; discriminate ..].
    + rewrite cents_error_finite in H by assumption. simpl in H.
      unfold Rltb in H. destruct (Rlt_dec _ tol); [auto|discriminate].
    + destruct (cents_error_not_finite a b) as [E|E];
        [tauto|rewrite E in H; discriminate ..].
  - intros [Hb [Hr Ht]]. rewrite cents_error_finite by assumption.
    simpl. now apply Rltb_true.
Qed.

Lemma paired_frames_swap u t :
  paired_frames t u = map (fun p => (snd p, fst p)) (paired_frames u t).
Proof.
  revert t. induction u as [|[a|] u IH]; intros [|[b|] t]; simpl;
    try reflexivity; now rewrite IH.
Qed.

Lemma abs_errors_swap u t : abs_errors t u = abs_errors u t.
Proof.
  unfold abs_errors. rewrite paired_frames_swap, map_map.
  apply map_ext. intros [a b]. simpl. apply Rabs_minus_sym.
Qed.

(** X1: the error statistics do not depend on which of the two contours is
    called the user's: swapping two arrays of one length leaves the mean
    and the standard deviation of the error, the stability and the two
    frame counts as they are.  (The errors |u - t| and |t - u| are the same
    number, in double precision as well; the accuracy is left out: it goes
    through the rounded ratios u/t and t/u, which are not each other's
    inverse.) *)
Theorem analyze_pitch_accuracy_symmetric (tol : R) (user target : array)
  (time1 time2 : list R) (Hshape : length user = length target) :
  exists m m',
    analyze_pitch_accuracy tol user target time1 = Ok m
    /\ analyze_pitch_accuracy tol target user time2 = Ok m'
    /\ mean_error_hz m' = mean_error_hz m
    /\ std_error_hz m' = std_error_hz m
    /\ stability m' = stability m
    /\ voiced_frames m' = voiced_frames m
    /\ total_frames m' = total_frames m.
Proof.
  rewrite !analyze_pitch_accuracy_eval by auto.
  rewrite (abs_errors_swap user target), (paired_frames_swap user target).
  do 2 eexists. split; [reflexivity|]. split; [reflexivity|].
  destruct (paired_frames user target) as [|p ps];
    cbn [map mean_error_hz std_error_hz stability voiced_frames
         total_frames]; rewrite ?length_map, Hshape.
  all: repeat split; try reflexivity.
  cbn [length]. now rewrite length_map.
Qed.

Lemma analyze_pitch_accuracy_symmetric_witness :
  exists m m',
    analyze_pitch_accuracy 100 [Some 440; None; Some 330]
      [Some 446; Some 220; None] [] = Ok m
    /\ analyze_pitch_accuracy 100 [Some 446; Some 220; None]
         [Some 440; None; Some 330] [0; 1] = Ok m'
    /\ mean_error_hz m' = mean_error_hz m
    /\ std_error_hz m' = std_error_hz m
    /\ stability m' = stability m
    /\ voiced_frames m' = voiced_frames m
    /\ total_frames m' = total_frames m.
Proof.
  apply (analyze_pitch_accuracy_symmetric 100 [Some 440; None; Some 330]
           [Some 446; Some 220; None] [] [0; 1]).
  reflexivity.
Defined.

(** ** Shapes and counts *)

Lemma paired_frames_length_le u t :
  (length (paired_frames u t) <= length u)%nat.
Proof.
  revert t. induction u as [|[a|] u IH]; intros [|[b|] t]; simpl;
    try lia; specialize (IH t); lia.
Qed.

(** X2: on arrays of one length [analyze_pitch_accuracy] always returns;
    [voiced_frames] is the number of frames where both values are present,
    [total_frames] the input length, and the first never exceeds the
    second. *)
Theorem analyze_pitch_accuracy_counts (tol : R) (user target : array)
  (time : list R) (Hshape : length user = length target) :
  exists m,
    analyze_pitch_accuracy tol user target time = Ok m
    /\ voiced_frames m = length (paired_frames user target)
    /\ total_frames m = length user
    /\ (voiced_frames m <= total_frames m)%nat.
Proof.
  rewrite analyze_pitch_accuracy_eval by assumption.
  pose proof (paired_frames_length_le user target) as Hle.
  destruct (paired_frames user target) as [|p ps] eqn:E.
  - eexists. split; [reflexivity|]. simpl. repeat split; lia.
  - rewrite <- E in *. eexists. split; [reflexivity|]. simpl.
    repeat split; auto.
Qed.

Lemma analyze_pitch_accuracy_counts_witness :
  exists m,
    analyze_pitch_accuracy 100 [Some 440; None; Some 330]
      [Some 446; Some 220; Some 330] [] = Ok m
    /\ voiced_frames m
       = length (paired_frames [Some 440; None; Some 330]
                   [Some 446; Some 220; Some 330])
    /\ total_frames m = length [Some 440; None; Some 330]
    /\ (voiced_frames m <= total_frames m)%nat.
Proof.
  apply (analyze_pitch_accuracy_counts 100 [Some 440; None; Some 330]
           [Some 446; Some 220; Some 330] []).
  reflexivity.
Defined.

Lemma broadcast_cases {A B C : Type} (f : A -> B -> C) xs ys :
  length xs <> length ys ->
  (length xs <> 1%nat /\ length ys <> 1%nat
   /\ broadcast f xs ys = Raise ValueError)
  \/ (exists zs, broadcast f xs ys = Ok zs
                 /\ (length xs = 1%nat /\ length zs = length ys
                     \/ length ys = 1%nat /\ length zs = length xs)).
Proof.
  intros H. unfold broadcast. rewrite (proj2 (Nat.eqb_neq _ _) H).
  destruct xs as [|x [|x' xs]].
  - destruct ys as [|y [|y' ys]]; simpl in *; try congruence.
    + right. eexists. split; [reflexivity|]. right. auto.
    + left. repeat split; congruence.
  - right. eexists. split; [reflexivity|]. left.
    now rewrite length_map.
  - destruct ys as [|y [|y' ys]].
    + left. repeat split; simpl; congruence.
    + right. eexists. split; [reflexivity|]. right.
      split; [reflexivity|]. now rewrite length_map.
    + left. repeat split; simpl; congruence.
Qed.

(** With arrays of different lengths nothing is computed from paired
    frames. *)
Lemma analyze_pitch_accuracy_mismatch (tol : R) (user target : array)
  (time : list R) (m : PitchMetrics) :
  length user <> length target ->
  analyze_pitch_accuracy tol user target time = Ok m ->
  accuracy m = Fin 0 /\ stability m = Fin 0.
Proof.
  intros Hshape. unfold analyze_pitch_accuracy.
  destruct (broadcast_cases
              (fun u t : sample => negb (isnan u) && negb (isnan t))
              user target Hshape) as [[H1 [H2 ->]]|[mask [-> Hm]]];
    [discriminate|].
  rewrite bind_ok.
  destruct (Nat.eqb (count_true mask) 0).
  - intros H. injection H as <-. auto.
  - unfold bool_index. destruct Hm as [[Hu Hl]|[Ht Hl]].
    + rewrite length_map, Hu, Hl.
      rewrite (proj2 (Nat.eqb_neq _ _)) by congruence. discriminate.
    + rewrite !length_map, Hl, Nat.eqb_refl. rewrite bind_ok.
      rewrite (proj2 (Nat.eqb_neq _ _)) by congruence. discriminate.
Qed.

(** Whatever [analyze_pitch_accuracy] returns has an accuracy between 0
    and 100 and a stability between 0 and 1. *)
Lemma analyze_pitch_accuracy_bounded (tol : R) (user target : array)
  (time : list R) (pm : PitchMetrics) :
  analyze_pitch_accuracy tol user target time = Ok pm ->
  within 0 100 (accuracy pm) /\ within 0 1 (stability pm).
Proof.
  intros H.
  destruct (Nat.eq_dec (length user) (length target)) as [Hl|Hl].
  - rewrite (analyze_pitch_accuracy_eval tol user target time Hl) in H.
    injection H as <-.
    destruct (paired_frames user target) as [|p ps] eqn:E.
    + cbn. split; exists 0; split; try reflexivity; lra.
    + rewrite <- E. cbn [accuracy stability]. split.
      * eexists. split; [reflexivity|]. apply accuracy_within.
        -- etransitivity; [apply count_true_le|]. now rewrite length_map.
        -- rewrite E. simpl. lia.
      * eexists. split; [reflexivity|]. apply stability_within.
        -- apply Rstd_nonneg.
        -- apply Rmean_nonneg; [|apply abs_errors_nonneg].
           intros C. apply abs_errors_nil in C. congruence.
  - destruct (analyze_pitch_accuracy_mismatch tol user target time pm Hl H)
      as [-> ->].
    split; exists 0; split; try reflexivity; lra.
Qed.

(** X3: with arrays of different lengths [analyze_pitch_accuracy] never
    computes metrics from paired frames: it raises (the [ValueError] of the
    mask when neither array has exactly one entry), or, when numpy
    broadcasts a one-entry array and no frame pairs up, it returns the
    degenerate metrics. *)
Theorem analyze_pitch_accuracy_shape_mismatch (tol : R)
  (user target : array) (time : list R)
  (Hshape : length user <> length target) :
  (length user <> 1%nat -> length target <> 1%nat ->
   analyze_pitch_accuracy tol user target time = Raise ValueError)
  /\ (forall m, analyze_pitch_accuracy tol user target time = Ok m ->
                m = mkPitchMetrics NaN NaN (Fin 0) (Fin 0) 0 (length user)).
Proof.
  unfold analyze_pitch_accuracy.
  destruct (broadcast_cases
              (fun u t : sample => negb (isnan u) && negb (isnan t))
              user target Hshape) as [[H1 [H2 ->]]|[mask [-> Hm]]].
  - split; [reflexivity|]. intros m Hm. discriminate.
  - rewrite bind_ok. split.
    + intros Hu Ht. destruct Hm as [[C _]|[C _]]; contradiction.
    + intros m.
      destruct (Nat.eqb (count_true mask) 0); [congruence|].
      unfold bool_index.
      destruct Hm as [[Hu Hl]|[Ht Hl]].
      * rewrite length_map, Hu, Hl.
        rewrite (proj2 (Nat.eqb_neq _ _)) by congruence. discriminate.
      * rewrite !length_map, Hl, Nat.eqb_refl. rewrite bind_ok.
        rewrite (proj2 (Nat.eqb_neq _ _)) by congruence. discriminate.
Qed.

Lemma analyze_pitch_accuracy_shape_mismatch_witness :
  (length [Some 440; Some 441; Some 442] <> 1%nat ->
   length [Some 440; Some 441] <> 1%nat ->
   analyze_pitch_accuracy 100 [Some 440; Some 441; Some 442]
     [Some 440; Some 441] [] = Raise ValueError)
  /\ (forall m, analyze_pitch_accuracy 100 [Some 440; Some 441; Some 442]
                  [Some 440; Some 441] [] = Ok m ->
                m = mkPitchMetrics NaN NaN (Fin 0) (Fin 0) 0
                      (length [Some 440; Some 441; Some 442])).
Proof.
  apply (analyze_pitch_accuracy_shape_mismatch 100
           [Some 440; Some 441; Some 442] [Some 440; Some 441] []).
  simpl. lia.
Defined.

(** ** Perfect performances *)

Lemma Rsum_repeat c n : Rsum (repeat c n) = INR n * c.
Proof.
  induction n as [|n IH]; [simpl; lra|].
  change (Rsum (repeat c (S n))) with (c + Rsum (repeat c n)).
  rewrite IH, S_INR. lra.
Qed.

Lemma Rmean_repeat c n : (0 < n)%nat -> Rmean (repeat c n) = c.
Proof.
  intros Hn. unfold Rmean. rewrite Rsum_repeat, repeat_length.
  field. apply not_0_INR. lia.
Qed.

Lemma map_repeat {A B : Type} (f : A -> B) a n :
  map f (repeat a n) = repeat (f a) n.
Proof. induction n; simpl; congruence. Qed.

Lemma Rstd_repeat c n : (0 < n)%nat -> Rstd (repeat c n) = 0.
Proof.
  intros Hn. unfold Rstd. rewrite Rmean_repeat by assumption.
  rewrite map_repeat, Rmean_repeat by assumption.
  rewrite Rminus_diag, Rabs_R0, Rmult_0_l. apply sqrt_0.
Qed.

Lemma Forall_map_repeat {A B : Type} (f : A -> B) (c : B) l :
  Forall (fun a => f a = c) l -> map f l = repeat c (length l).
Proof.
  induction 1 as [|a l Ha _ IH]; simpl; [reflexivity|]. now rewrite Ha, IH.
Qed.

Lemma steady_error_metrics (tol : R) (user target : array) (time : list R)
  (c : R) :
  length user = length target ->
  paired_frames user target <> [] ->
  Forall (fun p => Rabs (fst p - snd p) = c) (paired_frames user target) ->
  exists m,
    analyze_pitch_accuracy tol user target time = Ok m
    /\ mean_error_hz m = Fin c /\ std_error_hz m = Fin 0
    /\ stability m = Fin 1
    /\ accuracy m
       = Fin (100 * INR (count_true
                           (map (cents_within tol) (paired_frames user target)))
              / INR (length (paired_frames user target))).
Proof.
  intros Hshape Hne Hc.
  rewrite analyze_pitch_accuracy_voiced by assumption.
  eexists. split; [reflexivity|]. cbv zeta.
  cbn [mean_error_hz std_error_hz stability accuracy].
  assert (Hn : (0 < length (paired_frames user target))%nat)
    by (destruct (paired_frames user target); [congruence|simpl; lia]).
  assert (Hc0 : 0 <= c).
  { destruct (paired_frames user target) as [|p ps]; [congruence|].
    inversion Hc; subst. apply Rabs_pos. }
  unfold abs_errors. rewrite (Forall_map_repeat _ c _ Hc).
  rewrite Rmean_repeat, Rstd_repeat by assumption.
  repeat split. f_equal. field. lra.
Qed.

Lemma paired_frames_same (user : array) :
  Forall (fun s => exists x, s = Some x /\ x <> 0) user ->
  length (paired_frames user user) = length user
  /\ Forall (fun p => fst p = snd p /\ snd p <> 0) (paired_frames user user).
Proof.
  induction 1 as [|s l [x [-> Hx]] _ [IHl IHf]]; simpl; [auto|].
  split; [now rewrite IHl|]. constructor; auto.
Qed.

Lemma cents_within_same tol x : 0 < tol -> x <> 0 -> cents_within tol (x, x) = true.
Proof.
  intros Ht Hx. apply cents_within_iff.
  replace (x / x) with 1 by (field; assumption).
  unfold log2. rewrite ln_1.
  replace (1200 * (0 / ln 2)) with 0
    by (field; pose proof ln_2_pos; lra).
  rewrite Rabs_R0. repeat split; auto; lra.
Qed.

Lemma Forall_count_true {A : Type} (f : A -> bool) l :
  Forall (fun a => f a = true) l -> count_true (map f l) = length l.
Proof.
  unfold count_true. induction 1 as [|a l Ha _ IH]; simpl; [reflexivity|].
  rewrite Ha. simpl. now rewrite IH.
Qed.

(** X5: singing exactly the target, on a non-empty contour without absent
    or zero frequencies and with a positive tolerance, gives mean error 0,
    accuracy 100 and stability 1 on every frame; and any report
    [generate_report] then produces, with the default base score or with
    [Scorer.score_pitch], has total score exactly 100. *)
Theorem perfect_performance (tol : R) (range : R * R) (depth : R)
  (user : array) (time : list R)
  (Htol : 0 < tol) (Hne : user <> [])
  (Hvoiced : Forall (fun s => exists x, s = Some x /\ x <> 0) user) :
  (exists m,
      analyze_pitch_accuracy tol user user time = Ok m
      /\ mean_error_hz m = Fin 0 /\ accuracy m = Fin 100
      /\ stability m = Fin 1 /\ voiced_frames m = length user)
  /\ (forall scorer r,
         scorer = None \/ scorer = Some Scorer.score_pitch ->
         generate_report tol range depth user user time scorer = Ok r ->
         total_score r = Fin 100).
Proof.
  destruct (paired_frames_same user Hvoiced) as [Hlen Hsame].
  assert (Hp : paired_frames user user <> []).
  { destruct user; [congruence|]. destruct (paired_frames (s :: user) (s :: user));
      [simpl in Hlen; lia|discriminate]. }
  assert (Hsteady : Forall (fun p => Rabs (fst p - snd p) = 0)
                      (paired_frames user user)).
  { eapply Forall_impl; [|exact Hsame]. intros [a b] [E _]. simpl in *.
    subst. now rewrite Rminus_diag, Rabs_R0. }
  assert (Hwithin : Forall (fun p => cents_within tol p = true)
                      (paired_frames user user)).
  { eapply Forall_impl; [|exact Hsame]. intros [a b] [E Hb]. simpl in *.
    subst. now apply cents_within_same. }
  destruct (steady_error_metrics tol user user time 0 eq_refl Hp Hsteady)
    as [m [Hm [H1 [H2 [H3 H4]]]]].
  assert (Hacc : accuracy m = Fin 100).
  { rewrite H4, (Forall_count_true _ _ Hwithin). f_equal. field.
    apply not_0_INR. destruct (paired_frames user user); [congruence|].
    simpl. lia. }
  assert (Hv : voiced_frames m = length user).
  { rewrite analyze_pitch_accuracy_voiced in Hm by auto.
    injection Hm as <-. simpl. exact Hlen. }
  split.
  - exists m. auto.
  - intros scorer r Hs. unfold generate_report. rewrite Hm, bind_ok.
    destruct (detect_vibrato range depth user time) as [vm|e];
      [|discriminate].
    rewrite bind_ok.
    assert (Hbase : match scorer with
                    | Some score => score user user
                    | None => Ok (accuracy m)
                    end = Ok (Fin 100)).
    { destruct Hs as [-> | ->]; [now rewrite Hacc|].
      rewrite score_pitch_eval by reflexivity.
      destruct (paired_frames user user) eqn:E; [congruence|].
      do 2 f_equal. unfold mean_abs_error. fold (abs_errors user user).
      unfold Rmean. rewrite abs_errors_diag. unfold clamp.
      destruct (Rlt_dec _ 0); [lra|]. destruct (Rlt_dec 100 _); lra. }
    rewrite Hbase, bind_ok. intros Hr. injection Hr as <-. simpl.
    rewrite H3. destruct (detected vm); simpl; unfold py_max, py_min; simpl;
      unfold Rltb;
      repeat match goal with
             | |- context [Rlt_dec ?a ?b] => destruct (Rlt_dec a b); simpl;
                                            unfold Rltb
             end; try reflexivity; try (f_equal; lra); exfalso; lra.
Qed.

Lemma perfect_performance_witness :
  (exists m,
      analyze_pitch_accuracy 100 [Some 440; Some 330] [Some 440; Some 330]
        [0; 0.01] = Ok m
      /\ mean_error_hz m = Fin 0 /\ accuracy m = Fin 100
      /\ stability m = Fin 1 /\ voiced_frames m = length [Some 440; Some 330])
  /\ (exists r,
         generate_report 100 (4, 8) 30 [Some 440; Some 330]
           [Some 440; Some 330] [0; 0.01] None = Ok r
         /\ total_score r = Fin 100).
Proof.
  assert (Hv : Forall (fun s : sample => exists x, s = Some x /\ x <> 0)
                 [Some 440; Some 330]).
  { repeat constructor; eexists; (split; [reflexivity|lra]). }
  assert (Hne : [Some 440; Some 330] <> ([] : array)) by discriminate.
  assert (Ht : 0 < 100) by lra.
  split.
  - exact (proj1 (perfect_performance 100 (4, 8) 30 [Some 440; Some 330]
                    [0; 0.01] Ht Hne Hv)).
  - assert (H : exists r, generate_report 100 (4, 8) 30 [Some 440; Some 330]
                  [Some 440; Some 330] [0; 0.01] None = Ok r)
      by (eexists; reflexivity).
    destruct H as [r Hr]. exists r. split; [exact Hr|].
    exact (proj2 (perfect_performance 100 (4, 8) 30 [Some 440; Some 330]
                    [0; 0.01] Ht Hne Hv) None r (or_introl eq_refl) Hr).
Defined.

(** ** When detect_vibrato and generate_report return *)

Lemma savgol_filter_length x w p s :
  savgol_filter x w p = Some s -> length s = length x.
Proof.
  unfold savgol_filter. cbv zeta.
  destruct (Nat.even w || Nat.leb w p || Nat.ltb (length x) w);
    [discriminate|].
  intros H. injection H as <-. now rewrite length_map, length_seq.
Qed.

Lemma smooth_length v : length (smooth v) = length v.
Proof.
  unfold smooth.
  destruct (savgol_filter v (Nat.min 51 (length v / 2 * 2 + 1)) 3) eqn:E;
    [|reflexivity].
  now apply savgol_filter_length in E.
Qed.

Lemma voiced_mask_length pitch : length (voiced_mask pitch) = length pitch.
Proof. unfold voiced_mask. apply length_map. Qed.

Section VibratoOutcome.

Variable vibrato_freq_range : R * R.
Variable min_vibrato_depth : R.

Lemma detect_vibrato_few_frames (pitch : array) (time : list R) :
  (count_true (voiced_mask pitch) < 100)%nat ->
  detect_vibrato vibrato_freq_range min_vibrato_depth pitch time
  = Ok not_detected.
Proof.
  intros H. rewrite detect_vibrato_stages.
  now rewrite (proj2 (Nat.ltb_lt _ _) H).
Qed.

Lemma detect_vibrato_bad_time (pitch : array) (time : list R) :
  (100 <= count_true (voiced_mask pitch))%nat ->
  length time <> length pitch ->
  detect_vibrato vibrato_freq_range min_vibrato_depth pitch time
  = Raise IndexError.
Proof.
  intros Hc Hl. rewrite detect_vibrato_stages.
  rewrite (proj2 (Nat.ltb_ge _ _) Hc).
  rewrite bool_index_same_length
    by now rewrite length_map, voiced_mask_length.
  rewrite bind_ok. unfold bool_index at 1.
  rewrite length_map, voiced_mask_length.
  now rewrite (proj2 (Nat.eqb_neq _ _) Hl).
Qed.

(** With enough voiced frames and a time array of the right length every
    stage succeeds; the residual has one entry per voiced frame. *)
Lemma detect_vibrato_good_time (pitch : array) (time : list R) :
  (100 <= count_true (voiced_mask pitch))%nat ->
  length time = length pitch ->
  exists valid_pitch residual,
    bool_index (map of_sample pitch) (voiced_mask pitch) = Ok valid_pitch
    /\ broadcast fsub valid_pitch (smooth valid_pitch) = Ok residual
    /\ (100 <= length residual)%nat
    /\ (detect_vibrato vibrato_freq_range min_vibrato_depth pitch time
        = Ok not_detected
        \/ exists f d,
             detect_vibrato vibrato_freq_range min_vibrato_depth pitch time
             = Ok (mkVibratoMetrics true (Some f) (Some d)
                     (vibrato_coverage residual))).
Proof.
  intros Hc Hl. rewrite detect_vibrato_stages.
  rewrite (proj2 (Nat.ltb_ge _ _) Hc).
  rewrite !bool_index_same_length
    by (rewrite length_map, voiced_mask_length; auto).
  rewrite !bind_ok.
  set (vp := compress (map of_sample pitch) (voiced_mask pitch)).
  assert (Hvp : length vp = count_true (voiced_mask pitch)).
  { subst vp. apply compress_length.
    now rewrite length_map, voiced_mask_length. }
  rewrite broadcast_same_length by now rewrite smooth_length.
  rewrite bind_ok.
  set (res := map2 fsub vp (smooth vp)).
  assert (Hres : length res = length vp).
  { subst res. apply map2_length. now rewrite smooth_length. }
  exists vp, res. split; [reflexivity|].
  split; [subst res; apply broadcast_same_length; now rewrite smooth_length|].
  split; [lia|].
  assert (Hlag : Nat.ltb (max_lag res) 10 = false).
  { apply Nat.ltb_ge. unfold max_lag. rewrite Hres, Hvp.
    apply Nat.div_le_lower_bound; lia. }
  rewrite Hlag.
  destruct (vibrato_peaks res); [now left|]. cbv zeta.
  destruct (negb _); [now left|].
  destruct (flt _ _); [now left|]. right. eauto.
Qed.

End VibratoOutcome.

(** X6: [detect_vibrato] raises exactly when the contour has at least 100
    voiced frames and the time array is not as long as the pitch array, and
    what it raises is then the [IndexError] of the boolean indexing; with
    fewer voiced frames the time array is never looked at. *)
Theorem detect_vibrato_raises_iff (range : R * R) (depth : R)
  (pitch : array) (time : list R) :
  ((exists e, detect_vibrato range depth pitch time = Raise e)
   <-> (100 <= count_true (voiced_mask pitch))%nat
       /\ length time <> length pitch)
  /\ (forall e, detect_vibrato range depth pitch time = Raise e ->
                e = IndexError).
Proof.
  destruct (Nat.lt_ge_cases (count_true (voiced_mask pitch)) 100) as [Hc|Hc].
  - rewrite detect_vibrato_few_frames by assumption. split.
    + split; [intros [e He]; discriminate|intros [H _]; lia].
    + intros e He. discriminate.
  - destruct (Nat.eq_dec (length time) (length pitch)) as [Hl|Hl].
    + destruct (detect_vibrato_good_time range depth pitch time Hc Hl)
        as [vp [res [_ [_ [_ [H|[f [d H]]]]]]]]; rewrite H; split;
        try (split; [intros [e He]; discriminate|intros [_ C]; contradiction]);
        intros e He; discriminate.
    + rewrite detect_vibrato_bad_time by assumption. split.
      * split; [auto|eauto].
      * intros e He. congruence.
Qed.

Lemma vibrato_coverage_within residual :
  (0 < length residual)%nat -> within 0 100 (vibrato_coverage residual).
Proof.
  intros Hn. unfold vibrato_coverage.
  rewrite fmul_fin, fdiv_fin by (apply not_0_INR; lia).
  eexists. split; [reflexivity|]. apply accuracy_within; [|assumption].
  etransitivity; [apply count_true_le|]. now rewrite length_map.
Qed.

(** A detection carries its two numbers. *)
Lemma detect_vibrato_detected (range : R * R) (depth : R)
  (pitch : array) (time : list R) (vm : VibratoMetrics) :
  detect_vibrato range depth pitch time = Ok vm ->
  detected vm = true ->
  exists f d, frequency_hz vm = Some f /\ depth_cents vm = Some d.
Proof.
  intros Hreturns.
  destruct (Nat.lt_ge_cases (count_true (voiced_mask pitch)) 100) as [Hc|Hc].
  - rewrite detect_vibrato_few_frames in Hreturns by assumption.
    injection Hreturns as <-. discriminate.
  - destruct (Nat.eq_dec (length time) (length pitch)) as [Hl|Hl].
    + destruct (detect_vibrato_good_time range depth pitch time Hc Hl)
        as [vp [res [_ [_ [_ [H|[f [d H]]]]]]]]; rewrite H in Hreturns;
        injection Hreturns as <-.
      * discriminate.
      * intros _. cbn [frequency_hz depth_cents]. eauto.
    + rewrite detect_vibrato_bad_time in Hreturns by assumption.
      discriminate.
Qed.

(** X7: whatever [detect_vibrato] returns has a coverage between 0 and
    100; a detection carries a frequency and a depth, and a non-detection
    is the bare [VibratoMetrics(detected=False)]. *)
Theorem detect_vibrato_result_shape (range : R * R) (depth : R)
  (pitch : array) (time : list R) (vm : VibratoMetrics)
  (Hreturns : detect_vibrato range depth pitch time = Ok vm) :
  within 0 100 (coverage vm)
  /\ (detected vm = true ->
      exists f d, frequency_hz vm = Some f /\ depth_cents vm = Some d)
  /\ (detected vm = false -> vm = not_detected).
Proof.
  assert (Hnd : within 0 100 (coverage not_detected)).
  { exists 0. split; [reflexivity|lra]. }
  destruct (Nat.lt_ge_cases (count_true (voiced_mask pitch)) 100) as [Hc|Hc].
  - rewrite detect_vibrato_few_frames in Hreturns by assumption.
    injection Hreturns as <-. repeat split; auto. discriminate.
  - destruct (Nat.eq_dec (length time) (length pitch)) as [Hl|Hl].
    + destruct (detect_vibrato_good_time range depth pitch time Hc Hl)
        as [vp [res [_ [_ [Hres [H|[f [d H]]]]]]]]; rewrite H in Hreturns;
        injection Hreturns as <-.
      * repeat split; auto. discriminate.
      * cbn [coverage detected frequency_hz depth_cents]. repeat split.
        -- apply vibrato_coverage_within. lia.
        -- eauto.
        -- discriminate.
    + rewrite detect_vibrato_bad_time in Hreturns by assumption.
      discriminate.
Qed.

(** The contour [slip_pitch] is one on which a vibrato is detected. *)
Lemma slip_vibrato_detected :
  exists m,
    detect_vibrato (4, 8) 30 slip_pitch slip_time = Ok m
    /\ detected m = true.
Proof.
  rewrite detect_vibrato_stages.
  assert (Hc : count_true (voiced_mask slip_pitch) = 100%nat).
  { unfold slip_pitch. rewrite voiced_mask_all_voiced, count_true_repeat.
    apply slip_lengths. }
  rewrite Hc. change (Nat.ltb 100 100) with false. cbv iota.
  rewrite slip_pitch_valid, bind_ok, slip_time_valid, bind_ok.
  rewrite slip_smooth, slip_residual_ok, bind_ok.
  assert (Hl : max_lag (map embed slip_residual) = 50%nat).
  { unfold max_lag. rewrite length_map.
    destruct slip_lengths as [_ [_ [_ ->]]]. reflexivity. }
  rewrite Hl. change (Nat.ltb 50 10) with false. cbv iota.
  rewrite embed_vibrato_peaks, slip_peaks. cbv zeta.
  rewrite embed_vibrato_frequency, slip_frequency, slip_in_range.
  cbn [negb]. rewrite slip_depth. cbn [fabs flt].
  eexists. split; reflexivity.
Qed.

Lemma detect_vibrato_result_shape_witness :
  exists m,
    detect_vibrato (4, 8) 30 slip_pitch slip_time = Ok m
    /\ detected m = true
    /\ within 0 100 (coverage m)
    /\ exists f d, frequency_hz m = Some f /\ depth_cents m = Some d.
Proof.
  destruct slip_vibrato_detected as [m [Hm Hd]].
  destruct (detect_vibrato_result_shape (4, 8) 30 slip_pitch slip_time m Hm)
    as [Hc [Hf _]].
  exists m. split; [exact Hm|]. split; [exact Hd|]. split; [exact Hc|].
  exact (Hf Hd).
Defined.

Lemma py_clamp_id x :
  0 <= x <= 100 -> py_max (Fin 0) (py_min (Fin 100) (Fin x)) = Fin x.
Proof.
  intros H. rewrite py_clamp_fin. f_equal. unfold clamp.
  destruct (Rlt_dec x 0); [lra|]. destruct (Rlt_dec 100 x); [lra|reflexivity].
Qed.

Lemma detect_vibrato_returns (range : R * R) (depth : R) (pitch : array)
  (time : list R) :
  length time = length pitch ->
  exists vm, detect_vibrato range depth pitch time = Ok vm.
Proof.
  intros Htime.
  destruct (Nat.lt_ge_cases (count_true (voiced_mask pitch)) 100) as [Hc|Hc].
  - rewrite detect_vibrato_few_frames by assumption. eauto.
  - destruct (detect_vibrato_good_time range depth pitch time Hc Htime)
      as [vp [res [_ [_ [_ [H|[f [d H]]]]]]]]; rewrite H; eauto.
Qed.

(** The report of [generate_report] on arrays of one length, in terms of
    what its three callees return. *)
Lemma generate_report_ok (tol : R) (range : R * R) (depth : R)
  (user target : array) (time : list R)
  (scorer : option (array -> array -> result float)) :
  length user = length target ->
  length time = length user ->
  scorer = None \/ scorer = Some Scorer.score_pitch ->
  exists pm vm b,
    analyze_pitch_accuracy tol user target time = Ok pm
    /\ detect_vibrato range depth user time = Ok vm
    /\ match scorer with
       | Some score => score user target
       | None => Ok (accuracy pm)
       end = Ok b
    /\ generate_report tol range depth user target time scorer
       = Ok (mkScoreReport
               (py_max (Fin 0)
                  (py_min (Fin 100)
                     (fadd (fadd b (if detected vm then Fin 5 else Fin 0))
                        (fmul (stability pm) (Fin 10)))))
               pm vm
               (if Nat.ltb 0 (length time)
                then Fin (last time 0 - hd 0 time) else Fin 0)).
Proof.
  intros Hshape Htime Hscorer. unfold generate_report.
  rewrite (analyze_pitch_accuracy_eval tol user target time Hshape).
  set (pm := match paired_frames user target with [] => _ | _ => _ end).
  destruct (detect_vibrato_returns range depth user time Htime) as [vm Hvm].
  assert (Hbase : exists b, match scorer with
                            | Some score => score user target
                            | None => Ok (accuracy pm)
                            end = Ok b).
  { destruct Hscorer as [-> | ->]; [eauto|].
    rewrite score_pitch_eval by assumption. eauto. }
  destruct Hbase as [b Hb]. exists pm, vm, b.
  rewrite Hvm, !bind_ok, Hb, bind_ok. auto.
Qed.

(** X8: when the user, target and time arrays have one length and the base
    score is the default one or [Scorer.score_pitch], [generate_report]
    always returns a report; its metrics are those of
    [analyze_pitch_accuracy] and [detect_vibrato] on the same arrays and its
    duration is the last time minus the first (0 for empty arrays). *)
Theorem generate_report_returns (tol : R) (range : R * R) (depth : R)
  (user target : array) (time : list R)
  (scorer : option (array -> array -> result float))
  (Hshape : length user = length target)
  (Htime : length time = length user)
  (Hscorer : scorer = None \/ scorer = Some Scorer.score_pitch) :
  exists r,
    generate_report tol range depth user target time scorer = Ok r
    /\ analyze_pitch_accuracy tol user target time = Ok (pitch_metrics r)
    /\ detect_vibrato range depth user time = Ok (vibrato_metrics r)
    /\ (time = [] -> duration r = Fin 0)
    /\ (time <> [] -> duration r = Fin (last time 0 - hd 0 time)).
Proof.
  destruct (generate_report_ok tol range depth user target time scorer
              Hshape Htime Hscorer) as [pm [vm [b [Hpm [Hvm [_ Hr]]]]]].
  eexists. split; [exact Hr|].
  cbn [pitch_metrics vibrato_metrics duration].
  repeat split; auto.
  - intros ->. reflexivity.
  - intros Hne. destruct time; [congruence|reflexivity].
Qed.

Lemma generate_report_returns_witness :
  exists r,
    generate_report 100 (4, 8) 30 [Some 440; None] [Some 446; Some 220]
      [0; 0.01] (Some Scorer.score_pitch) = Ok r
    /\ analyze_pitch_accuracy 100 [Some 440; None] [Some 446; Some 220]
         [0; 0.01] = Ok (pitch_metrics r)
    /\ detect_vibrato (4, 8) 30 [Some 440; None] [0; 0.01]
       = Ok (vibrato_metrics r)
    /\ ([0; 0.01] = [] -> duration r = Fin 0)
    /\ ([0; 0.01] <> [] -> duration r = Fin (last [0; 0.01] 0 - hd 0 [0; 0.01])).
Proof.
  apply (generate_report_returns 100 (4, 8) 30 [Some 440; None]
           [Some 446; Some 220] [0; 0.01] (Some Scorer.score_pitch));
    auto.
Defined.

(** X9: when no frame has both values present, a report keeps accuracy 0
    and stability 0, and its total score is the vibrato bonus alone: 5 if a
    vibrato was detected in the user's contour, 0 otherwise. *)
Theorem report_without_overlap (tol : R) (range : R * R) (depth : R)
  (user target : array) (time : list R)
  (scorer : option (array -> array -> result float)) (r : ScoreReport)
  (Hnone : Forall2 (fun u t : sample => u = None \/ t = None) user target)
  (Hscorer : scorer = None \/ scorer = Some Scorer.score_pitch)
  (Hreport : generate_report tol range depth user target time scorer = Ok r) :
  accuracy (pitch_metrics r) = Fin 0
  /\ stability (pitch_metrics r) = Fin 0
  /\ total_score r = if detected (vibrato_metrics r) then Fin 5 else Fin 0.
Proof.
  destruct (no_overlap_paired _ _ Hnone) as [Hl Hp].
  unfold generate_report in Hreport.
  rewrite analyze_pitch_accuracy_eval, Hp, bind_ok in Hreport by assumption.
  destruct (detect_vibrato range depth user time) as [vm|e];
    [|discriminate].
  rewrite bind_ok in Hreport.
  assert (Hbase : match scorer with
                  | Some score => score user target
                  | None => Ok (Fin 0)
                  end = Ok (Fin 0)).
  { destruct Hscorer as [-> | ->]; [reflexivity|].
    now rewrite score_pitch_eval, Hp by assumption. }
  cbn [accuracy stability] in Hreport. rewrite Hbase, bind_ok in Hreport.
  injection Hreport as <-.
  cbn [pitch_metrics vibrato_metrics total_score accuracy stability].
  repeat split.
  destruct (detected vm); cbn [fadd].
  - replace (0 + 5 + 0 * 10) with 5 by lra. apply py_clamp_id. lra.
  - replace (0 + 0 + 0 * 10) with 0 by lra. apply py_clamp_id. lra.
Qed.

Lemma report_without_overlap_witness :
  exists r,
    generate_report 100 (4, 8) 30 [Some 440; None] [None; Some 220]
      [0; 0.01] None = Ok r
    /\ accuracy (pitch_metrics r) = Fin 0
    /\ stability (pitch_metrics r) = Fin 0
    /\ total_score r = if detected (vibrato_metrics r) then Fin 5 else Fin 0.
Proof.
  assert (H : exists r, generate_report 100 (4, 8) 30 [Some 440; None]
                [None; Some 220] [0; 0.01] None = Ok r)
    by (eexists; reflexivity).
  destruct H as [r Hr]. exists r. split; [exact Hr|].
  apply (report_without_overlap 100 (4, 8) 30 [Some 440; None]
           [None; Some 220] [0; 0.01] None r); auto.
Defined.

(** * Further properties of karaoke_app.py *)

Lemma clip_range_entry (a : float) :
  let b := if flt a (Fin 50) then NaN else a in
  let c := if flt (Fin 2000) b then NaN else b in
  c = NaN \/ exists v, c = Fin v /\ 50 <= v <= 2000.
Proof.
  destruct a as [| |x|]; cbn; auto.
  unfold Rltb. destruct (Rlt_dec x 50); cbn; auto.
  unfold Rltb. destruct (Rlt_dec 2000 x); cbn; auto.
  right. exists x. split; [reflexivity|lra].
Qed.

Lemma clip_range_plausible (l : list float) :
  Forall (fun a => a = NaN \/ exists v, a = Fin v /\ 50 <= v <= 2000)
    (KaraokeApp.clip_range l).
Proof.
  unfold KaraokeApp.clip_range. rewrite map_map. apply Forall_forall.
  intros c Hc. apply in_map_iff in Hc. destruct Hc as [a [<- _]].
  apply clip_range_entry.
Qed.

Lemma bool_index_bad_length {A : Type} (a : list A) mask :
  length a <> length mask -> bool_index a mask = Raise IndexError.
Proof.
  intros H. unfold bool_index. now rewrite (proj2 (Nat.eqb_neq _ _) H).
Qed.

(** X11: [_align_pitch] raises exactly when the contour has at least two
    voiced frames and its time array has another length than the contour,
    and the error is then an IndexError.  Whenever it returns, no entry is
    infinite or outside 50..2000 Hz (whatever the order of the times), and
    the result is as long as [target_pitch] below two voiced frames and as
    long as [target_time] otherwise. *)
Theorem align_pitch_outcome (user_pitch : array) (user_time : list R)
  (target_pitch : array) (target_time : list R) :
  let voiced := count_true (voiced_mask user_pitch) in
  (forall e,
     KaraokeApp._align_pitch user_pitch user_time target_pitch target_time
     = Raise e
     <-> (2 <= voiced)%nat /\ length user_time <> length user_pitch
         /\ e = IndexError)
  /\ forall aligned,
       KaraokeApp._align_pitch user_pitch user_time target_pitch target_time
       = Ok aligned ->
       length aligned
       = (if Nat.ltb voiced 2 then length target_pitch
          else length target_time)
       /\ Forall (fun a => a = NaN \/ exists v, a = Fin v /\ 50 <= v <= 2000)
            aligned.
Proof.
  intros voiced. unfold KaraokeApp._align_pitch. cbv zeta.
  change (map (fun p => negb (isnan p)) user_pitch)
    with (voiced_mask user_pitch).
  fold voiced.
  destruct (Nat.ltb voiced 2) eqn:E.
  - apply Nat.ltb_lt in E. split.
    + intros e. split; [discriminate|]. intros [H _]. lia.
    + intros aligned H. injection H as <-. split.
      * apply length_map.
      * apply Forall_forall. intros a Ha. apply in_map_iff in Ha.
        destruct Ha as [_ [<- _]]. now left.
  - apply Nat.ltb_ge in E.
    rewrite (bool_index_same_length (map of_sample user_pitch))
      by now rewrite length_map, voiced_mask_length.
    destruct (Nat.eq_dec (length user_time) (length user_pitch)) as [El|El].
    + rewrite (bool_index_same_length user_time)
        by now rewrite voiced_mask_length.
      rewrite !bind_ok. split.
      * intros e. split; [discriminate|]. intros [_ [H _]]. contradiction.
      * intros aligned H. injection H as <-. split.
        -- now rewrite clip_range_length, length_map.
        -- apply clip_range_plausible.
    + rewrite (bool_index_bad_length user_time)
        by now rewrite voiced_mask_length.
      cbn [bind]. split.
      * intros e. split.
        -- intros H. injection H as <-. auto.
        -- intros [_ [_ ->]]. reflexivity.
      * discriminate.
Qed.

(** ** analyze_performance *)

Lemma as_array_length a : length (as_array a) = length a.
Proof. apply length_map. Qed.

(** On what [_align_pitch] returns, [as_array] loses nothing. *)
Lemma as_array_exact (a : list float) :
  Forall (fun v => v = NaN \/ exists x, v = Fin x /\ 50 <= x <= 2000) a ->
  map of_sample (as_array a) = a.
Proof.
  induction 1 as [|v a Hv _ IH]; [reflexivity|].
  unfold as_array in *. cbn [map]. rewrite IH. f_equal.
  destruct Hv as [-> | [x [-> _]]]; reflexivity.
Qed.

Lemma as_array_nan (n : nat) : as_array (repeat NaN n) = repeat None n.
Proof. unfold as_array. now rewrite map_repeat. Qed.

Lemma paired_frames_silent (n : nat) (target : array) :
  paired_frames (repeat None n) target = [].
Proof.
  revert target. induction n as [|n IH]; intros [|t target]; simpl; auto.
Qed.

Lemma voiced_mask_silent (n : nat) :
  count_true (voiced_mask (repeat (@None R) n)) = 0%nat.
Proof. unfold voiced_mask, count_true. induction n; simpl; auto. Qed.

Lemma analyze_pitch_accuracy_total_frames (tol : R) (user target : array)
  (time : list R) (pm : PitchMetrics) :
  length user = length target ->
  analyze_pitch_accuracy tol user target time = Ok pm ->
  total_frames pm = length user
  /\ voiced_frames pm = length (paired_frames user target).
Proof.
  intros Hshape. rewrite analyze_pitch_accuracy_eval by assumption.
  intros H. injection H as <-.
  destruct (paired_frames user target); cbn; auto.
Qed.

(** The contour that goes into the report, and the report. *)
Lemma analyze_performance_report (user_pitch : array)
  (user_time : list R) (target_pitch : array) (target_time : list R) :
  length user_time = length user_pitch ->
  length target_time = length target_pitch ->
  exists compared r,
    (if negb (Nat.eqb (length user_pitch) (length target_pitch))
     then
       aligned <- KaraokeApp._align_pitch user_pitch user_time
                    target_pitch target_time ;;
       Ok (as_array aligned)
     else Ok user_pitch) = Ok compared
    /\ length compared = length target_pitch
    /\ generate_report 100 (4, 8) 30 compared target_pitch target_time
         (Some Scorer.score_pitch) = Ok r
    /\ total_frames (pitch_metrics r) = length target_pitch
    /\ within 0 100 (total_score r)
    /\ (length user_pitch <> length target_pitch ->
        (count_true (voiced_mask user_pitch) < 2)%nat ->
        total_score r = Fin 0
        /\ voiced_frames (pitch_metrics r) = 0%nat
        /\ vibrato_metrics r = not_detected).
Proof.
  intros Hsource Htarget.
  destruct (Nat.eqb (length user_pitch) (length target_pitch)) eqn:E;
    cbn [negb].
  - apply Nat.eqb_eq in E.
    destruct (generate_report_ok 100 (4, 8) 30 user_pitch target_pitch
                target_time (Some Scorer.score_pitch))
      as [pm [vm [b [Hpm [_ [_ Hr]]]]]]; auto; try congruence.
    do 2 eexists. split; [reflexivity|]. split; [exact E|].
    split; [exact Hr|]. cbn [pitch_metrics total_score].
    destruct (analyze_pitch_accuracy_total_frames _ _ _ _ _ E Hpm)
      as [Ht _].
    split; [congruence|]. split; [apply py_clamp_within|].
    intros C. contradiction.
  - apply Nat.eqb_neq in E.
    rewrite align_pitch_eval by auto. rewrite !bind_ok. cbv zeta.
    set (aligned := if Nat.ltb _ 2 then _ else _).
    assert (Hlen : length (as_array aligned) = length target_pitch).
    { rewrite as_array_length. unfold aligned.
      destruct (Nat.ltb _ 2).
      - apply repeat_length.
      - now rewrite clip_range_length, length_map. }
    destruct (generate_report_ok 100 (4, 8) 30 (as_array aligned)
                target_pitch target_time (Some Scorer.score_pitch))
      as [pm [vm [b [Hpm [Hvm [Hb Hr]]]]]]; auto; try congruence.
    do 2 eexists. split; [reflexivity|]. split; [exact Hlen|].
    split; [exact Hr|].
    cbn [pitch_metrics total_score vibrato_metrics].
    destruct (analyze_pitch_accuracy_total_frames _ _ _ _ _ Hlen Hpm)
      as [Ht Hv].
    split; [congruence|]. split; [apply py_clamp_within|].
    intros _ Hfew. split; [|split].
    + unfold aligned in *. clear aligned.
      rewrite <- (voiced_mask_count user_pitch user_time) in * by auto.
      change (map (fun p => negb (isnan p)) user_pitch)
        with (voiced_mask user_pitch) in *.
      rewrite (proj2 (Nat.ltb_lt _ _) Hfew) in *.
      rewrite as_array_nan in *.
      rewrite detect_vibrato_few_frames in Hvm
        by (rewrite voiced_mask_silent; lia).
      injection Hvm as <-.
      rewrite score_pitch_eval, paired_frames_silent in Hb
        by now rewrite repeat_length.
      injection Hb as <-.
      rewrite analyze_pitch_accuracy_eval, paired_frames_silent in Hpm
        by now rewrite repeat_length.
      injection Hpm as <-. cbn [stability detected not_detected fmul fadd].
      replace (0 + 0 + 0 * 10) with 0 by lra.
      apply py_clamp_id. lra.
    + rewrite Hv. unfold aligned.
      rewrite <- (voiced_mask_count user_pitch user_time) by auto.
      change (map (fun p => negb (isnan p)) user_pitch)
        with (voiced_mask user_pitch).
      rewrite (proj2 (Nat.ltb_lt _ _) Hfew), as_array_nan.
      now rewrite paired_frames_silent.
    + unfold aligned in Hvm.
      rewrite <- (voiced_mask_count user_pitch user_time) in Hvm by auto.
      change (map (fun p => negb (isnan p)) user_pitch)
        with (voiced_mask user_pitch) in Hvm.
      rewrite (proj2 (Nat.ltb_lt _ _) Hfew), as_array_nan in Hvm.
      rewrite detect_vibrato_few_frames in Hvm
        by (rewrite voiced_mask_silent; lia).
      now injection Hvm as <-.
Qed.

(** X12: take a detection and a target that are each as long as their
    time array.  Without plots, or when the detected contour is as long as
    the target, [analyze_performance] returns a report over the target's
    frames whose total score is between 0 and 100; when the detected
    contour differs in length from the target and has fewer than two
    voiced frames, the report scores 0 with no voiced frame and no
    vibrato.  With plots after an alignment it raises ValueError instead of
    returning the report: the second plot gets the detected times with the
    aligned pitch, which are of different lengths. *)
Theorem analyze_performance_returns (visualize : bool)
  (user_pitch : array) (user_time : list R) (target_pitch : array)
  (target_time : list R)
  (Hsource : length user_time = length user_pitch)
  (Htarget : length target_time = length target_pitch) :
  (visualize = true ->
   length user_pitch <> length target_pitch ->
   analyze_performance visualize user_pitch user_time target_pitch
     target_time = Raise ValueError)
  /\ (visualize = false \/ length user_pitch = length target_pitch ->
      exists r,
        analyze_performance visualize user_pitch user_time target_pitch
          target_time = Ok r
        /\ total_frames (pitch_metrics r) = length target_pitch
        /\ within 0 100 (total_score r)
        /\ (length user_pitch <> length target_pitch ->
            (count_true (voiced_mask user_pitch) < 2)%nat ->
            total_score r = Fin 0
            /\ voiced_frames (pitch_metrics r) = 0%nat
            /\ vibrato_metrics r = not_detected)).
Proof.
  destruct (analyze_performance_report user_pitch user_time target_pitch
              target_time Hsource Htarget)
    as [compared [r [Hc [Hlen [Hr Hrest]]]]].
  unfold analyze_performance. rewrite Hc, bind_ok, Hr, bind_ok.
  unfold plot_pitch. rewrite Htarget, Nat.eqb_refl, Hsource, Hlen.
  split.
  - intros -> Hneq. rewrite bind_ok.
    now rewrite (proj2 (Nat.eqb_neq _ _) Hneq).
  - intros Hcase. exists r. split; [|exact Hrest].
    destruct Hcase as [-> | Heq]; [reflexivity|].
    rewrite Heq, Nat.eqb_refl. now destruct visualize.
Qed.

Lemma analyze_performance_returns_witness :
  analyze_performance true [Some 440; None; None] [0; 0.01; 0.02]
    [Some 440; Some 450] [0; 0.01] = Raise ValueError
  /\ exists r,
       analyze_performance false [Some 440; None; None] [0; 0.01; 0.02]
         [Some 440; Some 450] [0; 0.01] = Ok r
       /\ total_frames (pitch_metrics r) = 2%nat
       /\ within 0 100 (total_score r)
       /\ total_score r = Fin 0
       /\ voiced_frames (pitch_metrics r) = 0%nat
       /\ vibrato_metrics r = not_detected.
Proof.
  split.
  - apply (analyze_performance_returns true [Some 440; None; None]
             [0; 0.01; 0.02] [Some 440; Some 450] [0; 0.01] eq_refl eq_refl);
      [reflexivity|cbn; discriminate].
  - destruct (proj2 (analyze_performance_returns false
                       [Some 440; None; None] [0; 0.01; 0.02]
                       [Some 440; Some 450] [0; 0.01] eq_refl eq_refl)
                (or_introl eq_refl)) as [r [Hr [Ht [Hw Hs]]]].
    exists r. split; [exact Hr|]. split; [exact Ht|]. split; [exact Hw|].
    apply Hs; cbn; [discriminate|lia].
Defined.

(** * Feedback notes *)

Lemma generate_report_inv (tol : R) (range : R * R) (depth : R)
  (user target : array) (time : list R)
  (scorer : option (array -> array -> result float)) (r : ScoreReport) :
  generate_report tol range depth user target time scorer = Ok r ->
  exists pm vm b,
    analyze_pitch_accuracy tol user target time = Ok pm
    /\ detect_vibrato range depth user time = Ok vm
    /\ match scorer with
       | Some score => score user target
       | None => Ok (accuracy pm)
       end = Ok b
    /\ pitch_metrics r = pm /\ vibrato_metrics r = vm
    /\ total_score r
       = py_max (Fin 0)
           (py_min (Fin 100)
              (fadd (fadd b (if detected vm then Fin 5 else Fin 0))
                 (fmul (stability pm) (Fin 10)))).
Proof.
  unfold generate_report.
  destruct (analyze_pitch_accuracy tol user target time) as [pm|e];
    [|discriminate].
  rewrite bind_ok.
  destruct (detect_vibrato range depth user time) as [vm|e];
    [|discriminate].
  rewrite bind_ok.
  destruct (match scorer with
            | Some score => score user target
            | None => Ok (accuracy pm)
            end) as [b|e] eqn:Hb; [|discriminate].
  rewrite bind_ok. intros H. injection H as <-.
  exists pm, vm, b. cbn [pitch_metrics vibrato_metrics total_score].
  split; [reflexivity|]. split; [reflexivity|]. split; [exact Hb|].
  split; [reflexivity|]. split; reflexivity.
Qed.

Lemma Rleb_false x y : y < x -> Rleb x y = false.
Proof. intros H. unfold Rleb. destruct (Rle_dec x y); [lra|reflexivity]. Qed.

Lemma report_feedback_some (format_fixed : nat -> float -> string)
  (tol : R) (range : R * R) (depth : R) (user target : array)
  (time : list R) (scorer : option (array -> array -> result float))
  (r : ScoreReport) :
  generate_report tol range depth user target time scorer = Ok r ->
  exists notes,
    _generate_feedback format_fixed (pitch_metrics r) (vibrato_metrics r)
      (total_score r) = Some notes.
Proof.
  intros Hreport.
  destruct (generate_report_inv _ _ _ _ _ _ _ _ Hreport)
    as [pm [vm [b [_ [Hvm [_ [-> [-> _]]]]]]]].
  pose proof (detect_vibrato_detected _ _ _ _ _ Hvm) as Hdet.
  unfold _generate_feedback.
  destruct (detected vm); [|eauto].
  destruct (Hdet eq_refl) as [f [d [-> ->]]]. eauto.
Qed.

(** X13: on every report that [generate_report] produces, whatever the
    scorer, the feedback is built without error (a detected vibrato always
    carries the two numbers that the vibrato note prints) and holds the
    notes pitch_accuracy, stability and overall, in this order, with the
    vibrato note before the last one exactly when a vibrato was
    detected. *)
Theorem report_feedback_notes (format_fixed : nat -> float -> string)
  (tol : R) (range : R * R) (depth : R) (user target : array)
  (time : list R) (scorer : option (array -> array -> result float))
  (r : ScoreReport)
  (Hreport : generate_report tol range depth user target time scorer
             = Ok r) :
  exists notes,
    _generate_feedback format_fixed (pitch_metrics r) (vibrato_metrics r)
      (total_score r) = Some notes
    /\ map fst notes
       = ("pitch_accuracy" :: "stability"
          :: (if detected (vibrato_metrics r) then ["vibrato"] else [])
          ++ ["overall"])%string.
Proof.
  destruct (generate_report_inv _ _ _ _ _ _ _ _ Hreport)
    as [pm [vm [b [_ [Hvm [_ [-> [-> _]]]]]]]].
  pose proof (detect_vibrato_detected _ _ _ _ _ Hvm) as Hdet.
  unfold _generate_feedback.
  destruct (detected vm).
  - destruct (Hdet eq_refl) as [f [d [-> ->]]].
    eexists. split; [reflexivity|].
    repeat match goal with
           | |- context [fle ?a ?b] => destruct (fle a b)
           end; reflexivity.
  - eexists. split; [reflexivity|].
    repeat match goal with
           | |- context [fle ?a ?b] => destruct (fle a b)
           end; reflexivity.
Qed.

Lemma report_feedback_notes_witness :
  exists r notes,
    generate_report 100 (4, 8) 30 [Some 440; None] [Some 446; Some 220]
      [0; 0.01] (Some Scorer.score_pitch) = Ok r
    /\ _generate_feedback (fun _ _ => EmptyString) (pitch_metrics r)
         (vibrato_metrics r) (total_score r) = Some notes
    /\ map fst notes
       = ("pitch_accuracy" :: "stability"
          :: (if detected (vibrato_metrics r) then ["vibrato"] else [])
          ++ ["overall"])%string.
Proof.
  assert (H : exists r, generate_report 100 (4, 8) 30 [Some 440; None]
                [Some 446; Some 220] [0; 0.01] (Some Scorer.score_pitch)
              = Ok r)
    by (eexists; reflexivity).
  destruct H as [r Hr].
  destruct (report_feedback_notes (fun _ _ => EmptyString) 100 (4, 8) 30
              [Some 440; None] [Some 446; Some 220] [0; 0.01]
              (Some Scorer.score_pitch) r Hr) as [notes Hn].
  exists r, notes. split; [exact Hr|exact Hn].
Defined.

Lemma fle_fin x y : fle (Fin x) (Fin y) = Rleb x y.
Proof. reflexivity. Qed.

(** X14: with the default base score (no scorer), on a report whose
    stability is a number between 0 and 1 (as it is unless the error
    statistics overflow), the overall note follows the accuracy: below 45
    percent the report always says to keep practicing, from 60 percent on
    it never does, and from 90 percent on it is always the outstanding
    one, whatever the stability and the vibrato. *)
Theorem overall_note_follows_accuracy
  (format_fixed : nat -> float -> string)
  (tol : R) (range : R * R) (depth : R) (user target : array)
  (time : list R) (r : ScoreReport) (notes : list (string * string))
  (Hreport : generate_report tol range depth user target time None = Ok r)
  (Hstable : within 0 1 (stability (pitch_metrics r)))
  (Hnotes : _generate_feedback format_fixed (pitch_metrics r)
              (vibrato_metrics r) (total_score r) = Some notes) :
  exists a,
    accuracy (pitch_metrics r) = Fin a
    /\ (a < 45 ->
        dict_get "overall" notes
        = Some "Keep practicing! You'll improve with time."%string)
    /\ (60 <= a ->
        dict_get "overall" notes
        <> Some "Keep practicing! You'll improve with time."%string)
    /\ (90 <= a ->
        dict_get "overall" notes = Some "Outstanding performance!"%string).
Proof.
  destruct (generate_report_inv _ _ _ _ _ _ _ _ Hreport)
    as [pm [vm [b [Hpm [Hvm [Hb [Epm [Evm Et]]]]]]]].
  rewrite Epm, Evm, Et in Hnotes. rewrite Epm in Hstable. rewrite Epm.
  clear Epm Evm Et Hreport.
  injection Hb as <-.
  destruct (analyze_pitch_accuracy_bounded _ _ _ _ _ Hpm)
    as [[a [Ha Hra]] _].
  destruct Hstable as [s [Hs Hrs]].
  pose proof (detect_vibrato_detected _ _ _ _ _ Hvm) as Hdet.
  exists a. split; [assumption|].
  rewrite Ha, Hs in Hnotes.
  assert (Ht : exists t,
             py_max (Fin 0)
               (py_min (Fin 100)
                  (fadd (fadd (Fin a) (if detected vm then Fin 5 else Fin 0))
                     (fmul (Fin s) (Fin 10)))) = Fin t
             /\ a <= t <= 100 /\ t <= a + 15).
  { destruct (detected vm); rewrite fmul_fin, !fadd_fin, py_clamp_fin;
      eexists; (split; [reflexivity|]); unfold clamp;
      repeat match goal with
             | |- context [Rlt_dec ?x ?y] => destruct (Rlt_dec x y)
             end; lra. }
  destruct Ht as [t [Et [Hat Hta]]]. rewrite Et in Hnotes.
  unfold _generate_feedback in Hnotes.
  cbn [accuracy stability] in Hnotes. rewrite Ha, Hs in Hnotes.
  rewrite !fle_fin in Hnotes.
  repeat split.
  - intros Hlow.
    rewrite (Rleb_false 90 t), (Rleb_false 75 t), (Rleb_false 60 t)
      in Hnotes by lra.
    destruct (detected vm).
    + destruct (Hdet eq_refl) as [f [d [Ef Ed]]]. rewrite Ef, Ed in Hnotes.
      injection Hnotes as <-.
      repeat match goal with
             | |- context [Rleb ?x ?y] => destruct (Rleb x y)
             end; reflexivity.
    + injection Hnotes as <-.
      repeat match goal with
             | |- context [Rleb ?x ?y] => destruct (Rleb x y)
             end; reflexivity.
  - intros Hmid.
    destruct (detected vm).
    + destruct (Hdet eq_refl) as [f [d [Ef Ed]]]. rewrite Ef, Ed in Hnotes.
      injection Hnotes as <-.
      rewrite (Rleb_true 60 t) by lra.
      repeat match goal with
             | |- context [Rleb ?x ?y] => destruct (Rleb x y)
             end; discriminate.
    + injection Hnotes as <-.
      rewrite (Rleb_true 60 t) by lra.
      repeat match goal with
             | |- context [Rleb ?x ?y] => destruct (Rleb x y)
             end; discriminate.
  - intros Hhigh.
    rewrite (Rleb_true 90 t) in Hnotes by lra.
    destruct (detected vm).
    + destruct (Hdet eq_refl) as [f [d [Ef Ed]]]. rewrite Ef, Ed in Hnotes.
      injection Hnotes as <-.
      repeat match goal with
             | |- context [Rleb ?x ?y] => destruct (Rleb x y)
             end; reflexivity.
    + injection Hnotes as <-.
      repeat match goal with
             | |- context [Rleb ?x ?y] => destruct (Rleb x y)
             end; reflexivity.
Qed.

Lemma overall_note_follows_accuracy_witness :
  exists r notes a,
    generate_report 100 (4, 8) 30 [Some 440; None] [Some 446; Some 220]
      [0; 0.01] None = Ok r
    /\ within 0 1 (stability (pitch_metrics r))
    /\ _generate_feedback (fun _ _ => EmptyString) (pitch_metrics r)
         (vibrato_metrics r) (total_score r) = Some notes
    /\ accuracy (pitch_metrics r) = Fin a
    /\ (a < 45 ->
        dict_get "overall" notes
        = Some "Keep practicing! You'll improve with time."%string)
    /\ (60 <= a ->
        dict_get "overall" notes
        <> Some "Keep practicing! You'll improve with time."%string)
    /\ (90 <= a ->
        dict_get "overall" notes = Some "Outstanding performance!"%string).
Proof.
  assert (H : exists r, generate_report 100 (4, 8) 30 [Some 440; None]
                [Some 446; Some 220] [0; 0.01] None = Ok r)
    by (eexists; reflexivity).
  destruct H as [r Hr].
  assert (Hs : within 0 1 (stability (pitch_metrics r))).
  { destruct (generate_report_inv _ _ _ _ _ _ _ _ Hr)
      as [pm [vm [b [Hpm [_ [_ [Epm _]]]]]]].
    rewrite Epm. exact (proj2 (analyze_pitch_accuracy_bounded _ _ _ _ _ Hpm)). }
  destruct (report_feedback_some (fun _ _ => EmptyString) _ _ _ _ _ _ _ _ Hr)
    as [notes Hn].
  destruct (overall_note_follows_accuracy (fun _ _ => EmptyString) 100
              (4, 8) 30 [Some 440; None] [Some 446; Some 220] [0; 0.01]
              r notes Hr Hs Hn) as [a Ha].
  exists r, notes, a. split; [exact Hr|]. split; [exact Hs|].
  split; [exact Hn|exact Ha].
Defined.

(** * The ring buffer of recorder.py *)

Lemma norm_index_inside (len i : nat) :
  (i <= len)%nat -> norm_index (Z.of_nat len) (Z.of_nat i) = Z.of_nat i.
Proof.
  intros H. unfold norm_index.
  destruct (Z.ltb_spec (Z.of_nat i) 0); lia.
Qed.

Lemma py_slice_range {A : Type} (l : list A) (a b : nat) :
  (a <= length l)%nat -> (b <= length l)%nat ->
  py_slice l (Z.of_nat a) (Z.of_nat b) = firstn (b - a) (skipn a l).
Proof.
  intros Ha Hb. unfold py_slice. rewrite !norm_index_inside by assumption.
  rewrite Nat2Z.id. f_equal. lia.
Qed.

Lemma slice_to_range {A : Type} (l : list A) (b : nat) :
  (b <= length l)%nat -> slice_to l (Z.of_nat b) = firstn b l.
Proof.
  intros Hb. unfold slice_to. change 0%Z with (Z.of_nat 0).
  rewrite py_slice_range by lia. now rewrite Nat.sub_0_r.
Qed.

Lemma slice_from_range {A : Type} (l : list A) (a : nat) :
  (a <= length l)%nat -> slice_from l (Z.of_nat a) = skipn a l.
Proof.
  intros Ha. unfold slice_from. rewrite py_slice_range by lia.
  apply firstn_all2. rewrite length_skipn. lia.
Qed.

(** A negative start counts from the end. *)
Lemma slice_from_end {A : Type} (l : list A) (k : nat) :
  (0 < k <= length l)%nat ->
  slice_from l (- Z.of_nat k)%Z = skipn (length l - k) l.
Proof.
  intros Hk. unfold slice_from, py_slice.
  rewrite (norm_index_inside (length l) (length l)) by lia.
  unfold norm_index. destruct (Z.ltb_spec (- Z.of_nat k)%Z 0); [|lia].
  replace (Z.to_nat (Z.max 0 (- Z.of_nat k + Z.of_nat (length l))%Z))
    with (length l - k)%nat by lia.
  apply firstn_all2. rewrite length_skipn. lia.
Qed.

Lemma set_slice_range {A : Type} (l data : list A) (a b : nat) :
  (a <= b)%nat -> (b <= length l)%nat -> length data = (b - a)%nat ->
  set_slice l (Z.of_nat a) (Z.of_nat b) data
  = Some (firstn a l ++ data ++ skipn b l).
Proof.
  intros Hab Hb Hd. unfold set_slice.
  rewrite !norm_index_inside by lia.
  replace (Z.to_nat (Z.of_nat b - Z.of_nat a)) with (b - a)%nat by lia.
  rewrite Hd, Nat.eqb_refl, Nat2Z.id. do 4 f_equal. lia.
Qed.

(** A slice that would run past the end is cut there, so a longer array
    with more than one value does not fit. *)
Lemma set_slice_too_long {A : Type} (l data : list A) (b : nat) :
  (length l < b)%nat -> length data = b -> (2 <= b)%nat ->
  set_slice l 0 (Z.of_nat b) data = None.
Proof.
  intros Hl Hd Hb. unfold set_slice, norm_index.
  destruct (Z.ltb_spec 0 0); [lia|].
  destruct (Z.ltb_spec (Z.of_nat b) 0); [lia|].
  replace (Z.to_nat (Z.min (Z.of_nat b) (Z.of_nat (length l))
                     - Z.min 0 (Z.of_nat (length l))))
    with (length l) by lia.
  rewrite (proj2 (Nat.eqb_neq _ _)) by lia.
  destruct data as [|x [|y data]]; simpl in Hd; try lia. reflexivity.
Qed.

Lemma lastn_app_all {A : Type} (l1 l2 : list A) :
  lastn (length l2) (l1 ++ l2) = l2.
Proof.
  unfold lastn. rewrite length_app.
  replace (length l1 + length l2 - length l2)%nat with (length l1) by lia.
  rewrite skipn_app, skipn_all, Nat.sub_diag. reflexivity.
Qed.

Lemma skipn_app_le {A : Type} (k : nat) (l1 l2 : list A) :
  (k <= length l1)%nat -> skipn k (l1 ++ l2) = skipn k l1 ++ l2.
Proof.
  intros H. rewrite skipn_app.
  replace (k - length l1)%nat with 0%nat by lia. reflexivity.
Qed.

Lemma skipn_app_ge {A : Type} (k : nat) (l1 l2 : list A) :
  (length l1 <= k)%nat -> skipn k (l1 ++ l2) = skipn (k - length l1) l2.
Proof. intros H. rewrite skipn_app. now rewrite skipn_all2. Qed.

Lemma firstn_app_exact {A : Type} (k : nat) (l1 l2 : list A) :
  length l1 = k -> firstn k (l1 ++ l2) = l1.
Proof.
  intros <-. rewrite firstn_app, Nat.sub_diag, firstn_all. cbn [firstn].
  apply app_nil_r.
Qed.

Lemma mod_wrap (a m : nat) :
  (0 < m)%nat -> (m <= a < 2 * m)%nat -> (a mod m = a - m)%nat.
Proof.
  intros Hm Ha. replace a with ((a - m) + 1 * m)%nat at 1 by lia.
  rewrite Nat.Div0.mod_add. apply Nat.mod_small. lia.
Qed.

Lemma written_length buf wp data :
  (wp < length buf)%nat -> (wp + length data <= 2 * length buf)%nat ->
  length (written buf wp data) = length buf.
Proof.
  intros Hp Hn. unfold written.
  destruct (Nat.leb_spec (wp + length data) (length buf)).
  - rewrite !length_app, length_firstn, length_skipn. lia.
  - rewrite !length_app, !length_skipn, length_app, !length_firstn. lia.
Qed.

(** One step of the ring: the window moves on by the samples written. *)
Lemma window_step buf wp data :
  (wp < length buf)%nat -> (wp + length data <= 2 * length buf)%nat ->
  let buf' := written buf wp data in
  let wp' := ((wp + length data) mod length buf)%nat in
  skipn wp' buf' ++ firstn wp' buf'
  = skipn (length data) (skipn wp buf ++ firstn wp buf ++ data).
Proof.
  intros Hp Hn. cbv zeta. unfold written.
  set (mx := length buf) in *. set (n := length data) in *.
  assert (HP : length (firstn wp buf) = wp)
    by (rewrite length_firstn; fold mx; lia).
  assert (HQ : length (skipn wp buf) = (mx - wp)%nat)
    by (rewrite length_skipn; reflexivity).
  destruct (Nat.leb_spec (wp + n) mx) as [Hle|Hgt].
  - rewrite (skipn_app_le n) by lia. rewrite skipn_skipn.
    destruct (Nat.eq_dec (wp + n) mx) as [E|E].
    + assert (Hmod : ((wp + n) mod mx = 0)%nat)
        by (rewrite E; apply Nat.Div0.mod_same).
      rewrite Hmod. cbn [skipn firstn]. rewrite app_nil_r.
      replace (n + wp)%nat with mx by lia. rewrite E.
      rewrite (skipn_all2 buf) by (fold mx; lia).
      now rewrite app_nil_r.
    + rewrite Nat.mod_small by lia.
      rewrite app_assoc.
      rewrite (skipn_app_ge (wp + n))
        by (rewrite length_app; fold n; lia).
      rewrite length_app, HP. fold n. rewrite Nat.sub_diag. cbn [skipn].
      rewrite firstn_app_exact by (rewrite length_app; fold n; lia).
      now rewrite (Nat.add_comm wp n).
  - set (fp := (mx - wp)%nat) in *.
    assert (HD1 : length (firstn fp data) = fp)
      by (rewrite length_firstn; fold n; lia).
    assert (HD2 : length (skipn fp data) = (n - fp)%nat)
      by (rewrite length_skipn; reflexivity).
    rewrite (skipn_app_ge n) by lia. rewrite HQ. fold fp.
    replace (firstn wp buf ++ data)
      with ((firstn wp buf ++ firstn fp data) ++ skipn fp data)
      by (now rewrite <- app_assoc, firstn_skipn).
    rewrite (skipn_app_le (n - fp) (firstn wp buf ++ firstn fp data))
      by (rewrite length_app; lia).
    destruct (Nat.eq_dec (wp + n) (2 * mx)) as [E|E].
    + replace ((wp + n) mod mx)%nat with 0%nat.
      * cbn [skipn firstn]. rewrite app_nil_r.
        rewrite (skipn_all2 (firstn wp buf ++ firstn fp data))
          by (rewrite length_app; lia).
        now rewrite app_nil_r.
      * rewrite E. symmetry. replace (2 * mx)%nat with (0 + 2 * mx)%nat by lia.
        rewrite Nat.Div0.mod_add. apply Nat.Div0.mod_0_l.
    + rewrite mod_wrap by lia.
      replace (wp + n - mx)%nat with (n - fp)%nat by lia.
      rewrite (skipn_app_ge (n - fp)) by lia.
      rewrite HD2, Nat.sub_diag. cbn [skipn].
      now rewrite firstn_app_exact by assumption.
Qed.

Section RingBuffer.

Variable b : AudioBuffer.state.
Hypothesis Hwf : AudioBuffer.wf b.

Let mx := AudioBuffer.max_samples b.
Let wp := AudioBuffer.write_pos b.
Let buf := AudioBuffer.buffer b.

Lemma wf_length : length buf = mx.
Proof. apply Hwf. Qed.

Lemma wf_pos : (wp < mx)%nat.
Proof. apply Hwf. Qed.

Lemma window_length : length (window b) = mx.
Proof.
  unfold window. fold wp buf. pose proof wf_length. pose proof wf_pos.
  rewrite length_app, length_skipn, length_firstn. lia.
Qed.

(** [read] gives the newest samples of the window. *)
Lemma read_window (k : Z) :
  AudioBuffer.read b k
  = lastn (Z.to_nat (Z.min k (Z.of_nat mx))) (window b).
Proof.
  pose proof wf_length as Hl. pose proof wf_pos as Hp.
  unfold AudioBuffer.read, lastn. rewrite window_length.
  fold mx wp buf. unfold window. fold wp buf.
  set (n := Z.min k (Z.of_nat mx)).
  destruct (Z.leb_spec n (Z.of_nat wp)) as [Hn|Hn].
  - destruct (Z.le_gt_cases n 0) as [H0|H0].
    + (* nothing is asked for *)
      replace (Z.to_nat n) with 0%nat by lia. rewrite Nat.sub_0_r.
      rewrite (skipn_all2 (skipn wp buf ++ firstn wp buf))
        by (rewrite length_app, length_skipn, length_firstn; lia).
      unfold py_slice, norm_index.
      destruct (Z.ltb_spec (Z.of_nat wp - n) 0); [lia|].
      destruct (Z.ltb_spec (Z.of_nat wp) 0); [lia|].
      replace (Z.to_nat _) with 0%nat by lia. reflexivity.
    + replace (Z.of_nat wp - n)%Z with (Z.of_nat (wp - Z.to_nat n)) by lia.
      rewrite py_slice_range by lia.
      replace (wp - (wp - Z.to_nat n))%nat with (Z.to_nat n) by lia.
      rewrite skipn_app, length_skipn, Hl.
      rewrite (skipn_all2 (skipn wp buf)) by (rewrite length_skipn; lia).
      replace (mx - Z.to_nat n - (mx - wp))%nat with (wp - Z.to_nat n)%nat
        by lia.
      cbn [app]. rewrite skipn_firstn_comm. f_equal. lia.
  - replace (Z.of_nat wp - n)%Z with (- Z.of_nat (Z.to_nat n - wp))%Z by lia.
    rewrite slice_from_end by lia.
    rewrite slice_to_range by lia.
    rewrite skipn_app, length_skipn, Hl, skipn_skipn.
    replace (mx - Z.to_nat n - (mx - wp))%nat with 0%nat by lia.
    cbn [skipn]. do 2 f_equal. lia.
Qed.

Lemma window_is_full_read : AudioBuffer.read b (Z.of_nat mx) = window b.
Proof.
  rewrite read_window. unfold lastn. rewrite window_length.
  replace (Z.to_nat _) with mx by lia. now rewrite Nat.sub_diag.
Qed.

(** The first assignment of the wrap-around branch always fits. *)
Lemma write_first_part (data : list float) :
  (mx < wp + length data)%nat ->
  set_slice buf (Z.of_nat wp) (Z.of_nat (length buf))
    (slice_to data (Z.of_nat mx - Z.of_nat wp))
  = Some (firstn wp buf ++ firstn (mx - wp) data).
Proof.
  intros Hgt. pose proof wf_length as Hl. pose proof wf_pos as Hp.
  replace (Z.of_nat mx - Z.of_nat wp)%Z with (Z.of_nat (mx - wp)) by lia.
  rewrite slice_to_range by lia.
  rewrite set_slice_range by (rewrite ?length_firstn; lia).
  now rewrite skipn_all, app_nil_r.
Qed.

Lemma write_fits (data : list float) :
  (wp + length data <= 2 * mx)%nat ->
  AudioBuffer.write b data
  = (AudioBuffer.mkState mx (written buf wp data)
       ((wp + length data) mod mx), None).
Proof.
  intros Hn. pose proof wf_length as Hl. pose proof wf_pos as Hp.
  unfold AudioBuffer.write, written. fold mx wp buf. rewrite Hl.
  destruct (Nat.leb_spec (wp + length data) mx) as [Hle|Hgt].
  - rewrite <- Nat2Z.inj_add.
    rewrite set_slice_range by lia.
    now rewrite (proj2 (Nat.eqb_neq mx 0)) by lia.
  - rewrite <- Hl at 1. rewrite write_first_part by assumption.
    replace (Z.of_nat (length data) - (Z.of_nat mx - Z.of_nat wp))%Z
      with (Z.of_nat (length data - (mx - wp))) by lia.
    replace (Z.of_nat mx - Z.of_nat wp)%Z with (Z.of_nat (mx - wp)) by lia.
    rewrite slice_from_range by lia.
    change 0%Z with (Z.of_nat 0).
    rewrite set_slice_range
      by (rewrite ?length_app, ?length_skipn, ?length_firstn; lia).
    cbn [firstn app].
    now rewrite (proj2 (Nat.eqb_neq mx 0)) by lia.
Qed.

(** More samples than the wrap-around can take: the second assignment
    fails, after the first one has overwritten the end of the array. *)
Lemma write_overrun (data : list float) :
  (2 * mx < wp + length data)%nat ->
  AudioBuffer.write b data
  = (AudioBuffer.mkState mx (firstn wp buf ++ firstn (mx - wp) data) wp,
     Some AudioBuffer.BroadcastValueError).
Proof.
  intros Hn. pose proof wf_length as Hl. pose proof wf_pos as Hp.
  unfold AudioBuffer.write. fold mx wp buf.
  rewrite (proj2 (Nat.leb_gt _ _)) by lia.
  rewrite write_first_part by lia.
  replace (Z.of_nat (length data) - (Z.of_nat mx - Z.of_nat wp))%Z
    with (Z.of_nat (length data - (mx - wp))) by lia.
  replace (Z.of_nat mx - Z.of_nat wp)%Z with (Z.of_nat (mx - wp)) by lia.
  rewrite slice_from_range by lia.
  rewrite set_slice_too_long; [reflexivity| | |].
  - rewrite length_app, !length_firstn. lia.
  - now rewrite length_skipn.
  - lia.
Qed.

End RingBuffer.

Lemma write_fits_wf (b : AudioBuffer.state) (data : list float) :
  AudioBuffer.wf b ->
  (AudioBuffer.write_pos b + length data
   <= 2 * AudioBuffer.max_samples b)%nat ->
  exists b',
    AudioBuffer.write b data = (b', None)
    /\ AudioBuffer.wf b'
    /\ AudioBuffer.max_samples b' = AudioBuffer.max_samples b
    /\ window b'
       = lastn (AudioBuffer.max_samples b) (window b ++ data).
Proof.
  intros Hwf Hn. destruct Hwf as [Hl Hp].
  eexists. split; [apply write_fits; [split|]; assumption|].
  assert (Hw : length (written (AudioBuffer.buffer b)
                         (AudioBuffer.write_pos b) data)
               = AudioBuffer.max_samples b).
  { rewrite written_length; lia. }
  split; [|split].
  - split; cbn [AudioBuffer.buffer AudioBuffer.write_pos
                AudioBuffer.max_samples]; [assumption|].
    apply Nat.mod_upper_bound. lia.
  - reflexivity.
  - unfold window at 1.
    cbn [AudioBuffer.buffer AudioBuffer.write_pos].
    pose proof (window_step (AudioBuffer.buffer b)
                  (AudioBuffer.write_pos b) data) as Hstep.
    cbv zeta in Hstep. rewrite Hl in Hstep. rewrite Hstep by lia.
    unfold lastn, window. rewrite <- app_assoc. f_equal.
    rewrite !length_app, length_skipn, length_firstn. lia.
Qed.

(** X15: on a buffer of positive capacity, [write] succeeds exactly when
    the samples fit between the write position and the end of a second
    lap, that is when write_pos + len(data) <= 2 * max_samples.  Otherwise
    it raises the ValueError of the second slice assignment, with the
    write position unchanged and the end of the array already overwritten
    by the first samples.  Either way the array keeps its length and the
    position stays below it. *)
Theorem audio_buffer_write_outcome (b : AudioBuffer.state)
  (data : list float) (Hwf : AudioBuffer.wf b) :
  let b' := fst (AudioBuffer.write b data) in
  let raised := snd (AudioBuffer.write b data) in
  (raised = None
   <-> (AudioBuffer.write_pos b + length data
        <= 2 * AudioBuffer.max_samples b)%nat)
  /\ (raised <> None ->
      raised = Some AudioBuffer.BroadcastValueError
      /\ AudioBuffer.write_pos b' = AudioBuffer.write_pos b
      /\ AudioBuffer.buffer b'
         = firstn (AudioBuffer.write_pos b) (AudioBuffer.buffer b)
           ++ firstn (AudioBuffer.max_samples b - AudioBuffer.write_pos b)
                data)
  /\ AudioBuffer.wf b'
  /\ AudioBuffer.max_samples b' = AudioBuffer.max_samples b.
Proof.
  cbv zeta.
  destruct (Nat.le_gt_cases (AudioBuffer.write_pos b + length data)
              (2 * AudioBuffer.max_samples b)) as [Hfit|Hover].
  - destruct (write_fits_wf b data Hwf Hfit) as [b' [-> [Hwf' [Hmx _]]]].
    cbn [fst snd]. split; [split; auto|].
    split; [intros C; now contradiction C|]. auto.
  - rewrite (write_overrun b Hwf data Hover). cbn [fst snd].
    destruct Hwf as [Hl Hp].
    split; [split; [discriminate|lia]|].
    split; [auto|]. split; [|reflexivity].
    split; cbn [AudioBuffer.buffer AudioBuffer.write_pos
                AudioBuffer.max_samples]; [|assumption].
    rewrite length_app, !length_firstn. lia.
Qed.

Lemma audio_buffer_write_outcome_witness :
  snd (AudioBuffer.write (AudioBuffer.init 2) [Fin 1; Fin 2; Fin 3]) = None
  <-> (0 + 3 <= 2 * 2)%nat.
Proof.
  apply (audio_buffer_write_outcome (AudioBuffer.init 2)
           [Fin 1; Fin 2; Fin 3]).
  split; cbn; lia.
Defined.

Lemma lastn_skipn {A : Type} (j n : nat) (l : list A) :
  (j + n <= length l)%nat -> lastn j (skipn n l) = lastn j l.
Proof.
  intros H. unfold lastn. rewrite length_skipn, skipn_skipn. f_equal. lia.
Qed.

Lemma read_after_write (b : AudioBuffer.state) (data : list float) (k : Z) :
  AudioBuffer.wf b ->
  (AudioBuffer.write_pos b + length data
   <= 2 * AudioBuffer.max_samples b)%nat ->
  AudioBuffer.read (fst (AudioBuffer.write b data)) k
  = lastn (Z.to_nat (Z.min k (Z.of_nat (AudioBuffer.max_samples b))))
      (window b ++ data).
Proof.
  intros Hwf Hfit.
  destruct (write_fits_wf b data Hwf Hfit) as [b' [-> [Hwf' [Hmx Hw]]]].
  cbn [fst]. rewrite (read_window b' Hwf'), Hmx, Hw.
  unfold lastn at 2. apply lastn_skipn.
  rewrite length_app, (window_length b Hwf). lia.
Qed.

(** X16: after a write that fits, [read] returns the newest samples of
    what the buffer held before followed by the samples written: as many
    as asked for, and at most the capacity.  In particular, reading back
    as many samples as were just written (no more than the capacity) gives
    these samples. *)
Theorem audio_buffer_read_after_write (b : AudioBuffer.state)
  (data : list float) (Hwf : AudioBuffer.wf b)
  (Hfit : (AudioBuffer.write_pos b + length data
           <= 2 * AudioBuffer.max_samples b)%nat) :
  let b' := fst (AudioBuffer.write b data) in
  let capacity := Z.of_nat (AudioBuffer.max_samples b) in
  (forall k,
     AudioBuffer.read b' k
     = lastn (Z.to_nat (Z.min k capacity))
         (AudioBuffer.read b capacity ++ data))
  /\ ((length data <= AudioBuffer.max_samples b)%nat ->
      AudioBuffer.read b' (Z.of_nat (length data)) = data).
Proof.
  cbv zeta. split.
  - intros k. rewrite (window_is_full_read b Hwf).
    now apply read_after_write.
  - intros Hn. rewrite read_after_write by assumption.
    replace (Z.to_nat _) with (length data) by lia.
    apply lastn_app_all.
Qed.

Lemma audio_buffer_read_after_write_witness :
  AudioBuffer.read
    (fst (AudioBuffer.write (AudioBuffer.init 2) [Fin 1; Fin 2])) 2
  = [Fin 1; Fin 2].
Proof.
  apply (audio_buffer_read_after_write (AudioBuffer.init 2) [Fin 1; Fin 2]).
  - split; cbn; lia.
  - cbn. lia.
  - cbn. lia.
Defined.

(** X17: a buffer of capacity zero cannot be written at all: with at most
    one sample the final modulo divides by zero, and with more the slice
    assignment fails; the buffer is left as it was. *)
Theorem audio_buffer_zero_capacity (data : list float) :
  AudioBuffer.write (AudioBuffer.init 0) data
  = (AudioBuffer.init 0,
     Some (if Nat.leb (length data) 1 then AudioBuffer.ZeroDivisionError
           else AudioBuffer.BroadcastValueError)).
Proof.
  destruct data as [|x [|y data]]; [reflexivity|reflexivity|].
  set (l := x :: y :: data).
  assert (Hl : (2 <= length l)%nat) by (cbn; lia).
  unfold AudioBuffer.write.
  cbn [AudioBuffer.init AudioBuffer.max_samples AudioBuffer.buffer
       AudioBuffer.write_pos repeat length Nat.add].
  rewrite (proj2 (Nat.leb_gt _ _)) by lia.
  change (Z.of_nat 0 - Z.of_nat 0)%Z with (Z.of_nat 0).
  rewrite slice_to_range, slice_from_range by lia.
  rewrite (set_slice_range [] (firstn 0 l) 0 0) by (cbn; lia).
  cbn [firstn skipn app]. rewrite Z.sub_0_r.
  change (Z.of_nat 0) with 0%Z.
  rewrite set_slice_too_long by (cbn [length]; lia).
  now rewrite (proj2 (Nat.leb_gt _ _)) by lia.
Qed.

Lemma lastn_lastn_app {A : Type} (m : nat) (l r : list A) :
  (m <= length l)%nat -> lastn m (lastn m l ++ r) = lastn m (l ++ r).
Proof.
  intros H. unfold lastn.
  rewrite !length_app, length_skipn.
  destruct (Nat.le_gt_cases (length r) m) as [Hr|Hr].
  - rewrite !skipn_app_le by (rewrite ?length_skipn; lia).
    rewrite skipn_skipn. do 2 f_equal. lia.
  - rewrite !skipn_app_ge by (rewrite ?length_skipn; lia).
    rewrite length_skipn. f_equal. lia.
Qed.

Lemma write_all_window (chunks : list (list float)) :
  forall b,
    AudioBuffer.wf b ->
    Forall (fun data => (length data <= AudioBuffer.max_samples b)%nat)
      chunks ->
    exists b',
      write_all b chunks = (b', None)
      /\ AudioBuffer.wf b'
      /\ AudioBuffer.max_samples b' = AudioBuffer.max_samples b
      /\ window b'
         = lastn (AudioBuffer.max_samples b) (window b ++ concat chunks).
Proof.
  induction chunks as [|data chunks IH]; intros b Hwf Hall.
  - exists b. repeat split; try apply Hwf.
    cbn [concat]. rewrite app_nil_r. unfold lastn.
    now rewrite (window_length b Hwf), Nat.sub_diag.
  - inversion Hall as [|d ds Hd Hds]; subst.
    assert (Hfit : (AudioBuffer.write_pos b + length data
                    <= 2 * AudioBuffer.max_samples b)%nat)
      by (destruct Hwf; lia).
    destruct (write_fits_wf b data Hwf Hfit) as [b1 [H1 [Hwf1 [Hmx1 Hw1]]]].
    destruct (IH b1 Hwf1) as [b' [H' [Hwf' [Hmx' Hw']]]].
    { now rewrite Hmx1. }
    exists b'. cbn [write_all]. rewrite H1.
    split; [assumption|]. split; [assumption|].
    split; [congruence|].
    rewrite Hw', Hmx1, Hw1. cbn [concat]. rewrite app_assoc.
    apply lastn_lastn_app.
    rewrite length_app, (window_length b Hwf). lia.
Qed.

(** X18: on a fresh buffer of positive capacity, any sequence of writes of
    at most the capacity each goes through without error, and a read then
    returns the newest samples of the stream written so far, preceded by
    the initial zeros while the stream is shorter than the capacity: as
    many samples as asked for, and at most the capacity. *)
Theorem audio_buffer_keeps_newest (capacity : nat)
  (chunks : list (list float)) (k : Z)
  (Hcapacity : (0 < capacity)%nat)
  (Hchunks : Forall (fun data => (length data <= capacity)%nat) chunks) :
  snd (write_all (AudioBuffer.init capacity) chunks) = None
  /\ AudioBuffer.read (fst (write_all (AudioBuffer.init capacity) chunks)) k
     = lastn (Z.to_nat (Z.min k (Z.of_nat capacity)))
         (repeat (Fin 0) capacity ++ concat chunks).
Proof.
  assert (Hwf : AudioBuffer.wf (AudioBuffer.init capacity)).
  { split; cbn; [apply repeat_length|assumption]. }
  destruct (write_all_window chunks (AudioBuffer.init capacity) Hwf Hchunks)
    as [b' [-> [Hwf' [Hmx Hw]]]].
  cbn [fst snd]. split; [reflexivity|].
  rewrite (read_window b' Hwf'), Hmx, Hw.
  cbn [AudioBuffer.init AudioBuffer.max_samples].
  unfold window at 1. cbn [AudioBuffer.init AudioBuffer.write_pos
                            AudioBuffer.buffer skipn firstn].
  rewrite app_nil_r. unfold lastn at 2. apply lastn_skipn.
  rewrite length_app, repeat_length. lia.
Qed.

Lemma audio_buffer_keeps_newest_witness :
  snd (write_all (AudioBuffer.init 2) [[Fin 1]; [Fin 2; Fin 3]]) = None
  /\ AudioBuffer.read
       (fst (write_all (AudioBuffer.init 2) [[Fin 1]; [Fin 2; Fin 3]])) 2
     = lastn (Z.to_nat (Z.min 2 (Z.of_nat 2)))
         (repeat (Fin 0) 2 ++ concat [[Fin 1]; [Fin 2; Fin 3]]).
Proof.
  apply (audio_buffer_keeps_newest 2 [[Fin 1]; [Fin 2; Fin 3]] 2).
  - lia.
  - repeat constructor.
Defined.

(** * Statistics of session.py *)

Lemma finite_list (l : list float) :
  Forall (fun a => exists x, a = Fin x) l -> exists xs, l = map Fin xs.
Proof.
  induction 1 as [|a l [x ->] _ [xs ->]].
  - now exists [].
  - now exists (x :: xs).
Qed.

Lemma map_flat_map {A B C : Type} (f : A -> list B) (g : B -> C) l :
  flat_map (fun a => map g (f a)) l = map g (flat_map f l).
Proof.
  induction l as [|a l IH]; [reflexivity|].
  cbn [flat_map]. now rewrite map_app, IH.
Qed.

Lemma fmaximum_fin x y : fmaximum (Fin x) (Fin y) = Fin (Rmax x y).
Proof.
  cbn. unfold Rltb, Rmax.
  destruct (Rlt_dec x y), (Rle_dec x y); try reflexivity; try lra.
  f_equal. lra.
Qed.

Lemma fminimum_fin x y : fminimum (Fin x) (Fin y) = Fin (Rmin x y).
Proof.
  cbn. unfold Rltb, Rmin.
  destruct (Rlt_dec y x), (Rle_dec x y); try reflexivity; try lra.
Qed.

Lemma np_max_fin x xs :
  np_max (Fin x) (map Fin xs) = Fin (fold_left Rmax xs x).
Proof.
  unfold np_max. revert x.
  induction xs as [|y xs IH]; intros x; [reflexivity|].
  cbn [map fold_left]. now rewrite fmaximum_fin, IH.
Qed.

Lemma np_min_fin x xs :
  np_min (Fin x) (map Fin xs) = Fin (fold_left Rmin xs x).
Proof.
  unfold np_min. revert x.
  induction xs as [|y xs IH]; intros x; [reflexivity|].
  cbn [map fold_left]. now rewrite fminimum_fin, IH.
Qed.

Lemma fold_Rmax_spec xs x :
  let m := fold_left Rmax xs x in
  In m (x :: xs) /\ Forall (fun y => y <= m) (x :: xs).
Proof.
  revert x. induction xs as [|y xs IH]; intros x; cbn [fold_left].
  - split; [now left|]. constructor; [lra|constructor].
  - destruct (IH (Rmax x y)) as [Hin Hall]. cbv zeta in *.
    set (m := fold_left Rmax xs (Rmax x y)) in *. split.
    + destruct Hin as [Hm|Hm]; [|right; now right].
      rewrite <- Hm. unfold Rmax. destruct (Rle_dec x y); cbn; auto.
    + inversion Hall as [|z zs Hz Hzs]; subst.
      pose proof (Rmax_l x y). pose proof (Rmax_r x y).
      constructor; [lra|]. constructor; [lra|assumption].
Qed.

Lemma fold_Rmin_spec xs x :
  let m := fold_left Rmin xs x in
  In m (x :: xs) /\ Forall (fun y => m <= y) (x :: xs).
Proof.
  revert x. induction xs as [|y xs IH]; intros x; cbn [fold_left].
  - split; [now left|]. constructor; [lra|constructor].
  - destruct (IH (Rmin x y)) as [Hin Hall]. cbv zeta in *.
    set (m := fold_left Rmin xs (Rmin x y)) in *. split.
    + destruct Hin as [Hm|Hm]; [|right; now right].
      rewrite <- Hm. unfold Rmin. destruct (Rle_dec x y); cbn; auto.
    + inversion Hall as [|z zs Hz Hzs]; subst.
      pose proof (Rmin_l x y). pose proof (Rmin_r x y).
      constructor; [lra|]. constructor; [lra|assumption].
Qed.

(** The extremes of a non-empty list of finite scores. *)
Lemma score_statistics (x : R) (xs : list R) :
  exists w b,
    np_min (Fin x) (map Fin xs) = Fin w
    /\ np_max (Fin x) (map Fin xs) = Fin b
    /\ w <= b
    /\ In w (x :: xs) /\ In b (x :: xs)
    /\ Forall (fun y => w <= y <= b) (x :: xs).
Proof.
  destruct (fold_Rmax_spec xs x) as [Hbin Hb].
  destruct (fold_Rmin_spec xs x) as [Hwin Hw]. cbv zeta in *.
  exists (fold_left Rmin xs x), (fold_left Rmax xs x).
  assert (Hall : Forall (fun y => fold_left Rmin xs x <= y
                                  <= fold_left Rmax xs x) (x :: xs)).
  { rewrite Forall_forall in *. intros y Hy. split; auto. }
  rewrite np_min_fin, np_max_fin.
  split; [reflexivity|]. split; [reflexivity|]. split; [|auto].
  inversion Hall as [|y ys Hy _]; subst. lra.
Qed.

(** X19: for a user whose results all carry a finite score,
    [get_user_stats] counts the user's sessions and all their results;
    without any result the three score statistics are 0; otherwise the
    worst and the best score are scores of actual results and every score
    lies between them. *)
Theorem user_stats_bounds (sessions : list Session.KaraokeSession)
  (name : string)
  (Hfinite :
     Forall (fun r => exists x, Session.score r = Fin x)
       (flat_map Session.results (Session.get_user_history sessions name))) :
  let st := Session.get_user_stats sessions name in
  let mine := Session.get_user_history sessions name in
  let all := flat_map Session.results mine in
  Session.total_sessions st = length mine
  /\ Session.total_songs st = length all
  /\ (all = [] ->
      Session.average_score st = Fin 0 /\ Session.best_score st = Fin 0
      /\ Session.worst_score st = Fin 0)
  /\ (all <> [] ->
      exists w b,
        Session.worst_score st = Fin w /\ Session.best_score st = Fin b
        /\ w <= b
        /\ In (Fin w) (map Session.score all)
        /\ In (Fin b) (map Session.score all)
        /\ Forall (fun r => exists y, Session.score r = Fin y /\ w <= y <= b)
             all).
Proof.
  cbv zeta. unfold Session.get_user_stats.
  set (mine := Session.get_user_history sessions name) in *.
  rewrite map_flat_map.
  set (all := flat_map Session.results mine) in *.
  assert (Hlen : list_sum (map (fun s => length (Session.results s)) mine)
                 = length all)
    by (symmetry; apply length_flat_map).
  destruct mine as [|s mine'] eqn:E.
  - cbn. repeat split; auto. intros C. now contradiction C.
  - rewrite <- E in *.
    cbn [Session.total_sessions Session.total_songs Session.average_score
         Session.best_score Session.worst_score].
    split; [reflexivity|]. split; [assumption|].
    destruct (finite_list (map Session.score all)) as [xs Hxs].
    { rewrite Forall_map. exact Hfinite. }
    rewrite Hxs. destruct xs as [|x xs].
    + split; [auto|]. intros Hne. destruct all; [congruence|discriminate].
    + split.
      * intros C. rewrite C in Hxs. discriminate.
      * intros _. cbn [map].
        destruct (score_statistics x xs)
          as [w [b [Hw [Hb [Hwb [Hwin [Hbin Hall]]]]]]].
        exists w, b. rewrite Hw, Hb.
        repeat split; auto; try lra.
        -- change (Fin x :: map Fin xs) with (map Fin (x :: xs)).
           now apply in_map.
        -- change (Fin x :: map Fin xs) with (map Fin (x :: xs)).
           now apply in_map.
        -- rewrite Forall_forall in *. intros r Hr.
           assert (Hs : In (Session.score r) (map Fin (x :: xs))).
           { rewrite <- Hxs. now apply in_map. }
           apply in_map_iff in Hs. destruct Hs as [y [Hy Hyin]].
           exists y. split; [now symmetry|]. now apply Hall.
Qed.

(** ** get_top_songs *)

Lemma of_song_app id rs1 rs2 :
  of_song id (rs1 ++ rs2) = of_song id rs1 ++ of_song id rs2.
Proof. apply filter_app. Qed.

(** The entry of a song after its results [mine], in order. *)
Lemma update_stats_fold (id title : string) (xs : list R)
  (mine : list Session.SessionResult) :
  map Session.score mine = map Fin xs ->
  let e :=
    fold_left Session.update_stats mine
      (Session.mkSongStats id title 0 (Fin 0) (Fin 0)) in
  Session.stats_song_id e = id
  /\ Session.stats_song_title e = title
  /\ Session.attempts e = length mine
  /\ Session.song_best_score e = Fin (fold_left Rmax xs 0)
  /\ exists a, Session.avg_score e = Fin a
               /\ a * INR (length mine) = Rsum xs.
Proof.
  revert xs. induction mine as [|r mine IH] using rev_ind; intros xs Hxs.
  - destruct xs; [|discriminate]. cbn. repeat split.
    exists 0. split; [reflexivity|lra].
  - rewrite map_app in Hxs. cbn [map] in Hxs.
    assert (Hsplit : exists ys y, xs = ys ++ [y]
                                  /\ map Session.score mine = map Fin ys
                                  /\ Session.score r = Fin y).
    { destruct (exists_last (l := xs)) as [ys [y ->]].
      - intros ->. destruct (map Session.score mine); discriminate.
      - rewrite map_app in Hxs. cbn [map] in Hxs.
        apply app_inj_tail in Hxs. destruct Hxs as [H1 H2].
        exists ys, y. auto. }
    destruct Hsplit as [ys [y [-> [Hys Hy]]]].
    destruct (IH ys Hys) as [Hid [Ht [Hn [Hb [a [Ha Hsum]]]]]].
    cbv zeta in *. rewrite fold_left_app. cbn [fold_left].
    set (e := fold_left Session.update_stats mine _) in *.
    unfold Session.update_stats.
    cbn [Session.stats_song_id Session.stats_song_title Session.attempts
         Session.song_best_score Session.avg_score].
    rewrite length_app. cbn [length].
    split; [assumption|]. split; [assumption|]. split; [lia|]. split.
    + rewrite Hb, Hy, fold_left_app. cbn [fold_left].
      unfold py_max. cbn [flt]. unfold Rltb, Rmax.
      destruct (Rlt_dec _ y), (Rle_dec _ y); try reflexivity; try lra.
      f_equal. lra.
    + rewrite Ha, Hy, Hn.
      replace (length mine + 1 - 1)%nat with (length mine) by lia.
      rewrite fmul_fin, fadd_fin.
      assert (Hpos : INR (length mine + 1) <> 0).
      { rewrite plus_INR. cbn. pose proof (pos_INR (length mine)). lra. }
      rewrite fdiv_fin by assumption.
      eexists. split; [reflexivity|].
      unfold Rsum. rewrite fold_right_app. cbn [fold_right].
      fold (Rsum ys).
      assert (Hr : forall z l, fold_right Rplus z l = Rsum l + z).
      { intros z l. induction l as [|u l IHl]; cbn; [unfold Rsum; cbn; lra|].
        rewrite IHl. unfold Rsum. cbn. lra. }
      rewrite Hr. field_simplify; [|assumption]. lra.
Qed.

Lemma update_stats_id e r :
  Session.stats_song_id (Session.update_stats e r) = Session.stats_song_id e.
Proof. reflexivity. Qed.

Lemma record_result_ids stats r :
  map Session.stats_song_id (Session.record_result stats r)
  = map Session.stats_song_id stats
  \/ (~ In (Session.song_id r) (map Session.stats_song_id stats)
      /\ map Session.stats_song_id (Session.record_result stats r)
         = map Session.stats_song_id stats ++ [Session.song_id r]).
Proof.
  induction stats as [|e stats IH].
  - right. split; [intros []|reflexivity].
  - cbn [Session.record_result map].
    destruct (String.eqb_spec (Session.song_id r) (Session.stats_song_id e))
      as [E|E].
    + left. reflexivity.
    + cbn [map]. destruct IH as [IH|[Hn IH]]; rewrite IH.
      * now left.
      * right. split; [|reflexivity].
        intros [C|C]; [now apply E|now apply Hn].
Qed.

Lemma record_result_has_id stats r :
  In (Session.song_id r)
    (map Session.stats_song_id (Session.record_result stats r)).
Proof.
  induction stats as [|e stats IH]; [now left|].
  cbn [Session.record_result].
  destruct (String.eqb_spec (Session.song_id r) (Session.stats_song_id e))
    as [E|E].
  - left. now rewrite update_stats_id.
  - right. exact IH.
Qed.

(** Where an entry of the updated dict comes from. *)
Lemma record_result_entries stats r e' :
  NoDup (map Session.stats_song_id stats) ->
  In e' (Session.record_result stats r) ->
  (In e' stats /\ Session.stats_song_id e' <> Session.song_id r)
  \/ (exists e, In e stats
                /\ Session.stats_song_id e = Session.song_id r
                /\ e' = Session.update_stats e r)
  \/ (~ In (Session.song_id r) (map Session.stats_song_id stats)
      /\ e' = Session.update_stats
                (Session.mkSongStats (Session.song_id r)
                   (Session.song_title r) 0 (Fin 0) (Fin 0)) r).
Proof.
  induction stats as [|e stats IH]; intros Hnd Hin.
  - destruct Hin as [<-|[]]. right. right. split; [intros []|reflexivity].
  - cbn [Session.record_result] in Hin. cbn [map] in Hnd.
    inversion Hnd as [|i ids Hnotin Hnd']; subst.
    destruct (String.eqb_spec (Session.song_id r) (Session.stats_song_id e))
      as [E|E].
    + destruct Hin as [<-|Hin].
      * right. left. exists e. split; [now left|]. split; [now symmetry|].
        reflexivity.
      * left. split; [now right|]. intros C. apply Hnotin.
        rewrite <- E, <- C. now apply in_map.
    + destruct Hin as [<-|Hin].
      * left. split; [now left|]. intros C. now apply E.
      * destruct (IH Hnd' Hin) as [[H1 H2]|[[e0 [H1 [H2 H3]]]|[H1 H2]]].
        -- left. split; [now right|assumption].
        -- right. left. exists e0. split; [now right|]. auto.
        -- right. right. split; [|assumption].
           intros [C|C]; [now apply E|now apply H1].
Qed.

Lemma of_song_none id rs :
  (forall r, In r rs -> Session.song_id r <> id) -> of_song id rs = [].
Proof.
  intros H. unfold of_song. induction rs as [|r rs IH]; [reflexivity|].
  cbn [filter].
  destruct (String.eqb_spec (Session.song_id r) id) as [E|E].
  - exfalso. apply (H r); [now left|assumption].
  - apply IH. intros r' Hr'. apply H. now right.
Qed.

Lemma of_song_one id r :
  of_song id [r] = if String.eqb (Session.song_id r) id then [r] else [].
Proof. reflexivity. Qed.

Lemma record_result_ok stats rs r :
  stats_ok stats rs -> stats_ok (Session.record_result stats r) (rs ++ [r]).
Proof.
  intros [Hnd [Hcover Hentries]]. split; [|split].
  - destruct (record_result_ids stats r) as [->|[H ->]]; [assumption|].
    apply NoDup_app; [assumption|repeat constructor; intros []|].
    intros i Hi [<-|[]]. contradiction.
  - intros r' Hr'. apply in_app_or in Hr'.
    destruct Hr' as [Hr'|[<-|[]]].
    + destruct (record_result_ids stats r) as [->|[H ->]]; auto.
      apply in_or_app. left. auto.
    + apply record_result_has_id.
  - apply Forall_forall. intros e' He'. rewrite Forall_forall in Hentries.
    destruct (record_result_entries stats r e' Hnd He')
      as [[H1 H2]|[[e [H1 [H2 ->]]]|[H1 ->]]].
    + destruct (Hentries e' H1) as [first [rest [Hsong He]]].
      exists first, rest. split; [|assumption].
      rewrite of_song_app, of_song_one, Hsong.
      destruct (String.eqb_spec (Session.song_id r)
                  (Session.stats_song_id e')) as [C|C].
      * exfalso. now apply H2.
      * apply app_nil_r.
    + destruct (Hentries e H1) as [first [rest [Hsong He]]].
      exists first, (rest ++ [r]). rewrite update_stats_id. split.
      * rewrite of_song_app, of_song_one, Hsong, H2, String.eqb_refl.
        reflexivity.
      * rewrite app_comm_cons, fold_left_app, <- He. reflexivity.
    + exists r, []. rewrite update_stats_id.
      cbn [Session.stats_song_id]. split; [|reflexivity].
      rewrite of_song_app, of_song_one, String.eqb_refl.
      rewrite of_song_none; [reflexivity|].
      intros r' Hr' C. apply H1. rewrite <- C. now apply Hcover.
Qed.

Lemma fold_record_ok rs2 :
  forall stats rs1,
    stats_ok stats rs1 ->
    stats_ok (fold_left Session.record_result rs2 stats) (rs1 ++ rs2).
Proof.
  induction rs2 as [|r rs2 IH]; intros stats rs1 H.
  - now rewrite app_nil_r.
  - cbn [fold_left].
    replace (rs1 ++ r :: rs2) with ((rs1 ++ [r]) ++ rs2)
      by (now rewrite <- app_assoc).
    apply IH. now apply record_result_ok.
Qed.

Lemma song_stats_ok rs :
  stats_ok (fold_left Session.record_result rs []) rs.
Proof.
  apply (fold_record_ok rs [] []). split; [constructor|].
  split; [intros r []|constructor].
Qed.


Lemma insert_by_best_perm s l :
  Permutation (Session.insert_by_best s l) (s :: l).
Proof.
  induction l as [|t l IH]; [reflexivity|].
  cbn [Session.insert_by_best].
  destruct (flt _ _); [|reflexivity].
  rewrite IH. apply perm_swap.
Qed.

Lemma sort_by_best_perm l : Permutation (Session.sort_by_best l) l.
Proof.
  unfold Session.sort_by_best.
  induction l as [|s l IH]; [reflexivity|].
  cbn [fold_right]. rewrite insert_by_best_perm. now constructor.
Qed.

Lemma insert_by_best_sorted s l :
  (exists b, Session.song_best_score s = Fin b) ->
  Forall (fun e => exists b, Session.song_best_score e = Fin b) l ->
  StronglySorted best_not_below l ->
  StronglySorted best_not_below (Session.insert_by_best s l).
Proof.
  intros [bs Hs] Hfin Hsorted.
  induction l as [|t l IH].
  - repeat constructor.
  - inversion Hfin as [|t' l' [bt Ht] Hfin']; subst.
    inversion Hsorted as [|t' l' Hsorted' Hall]; subst.
    cbn [Session.insert_by_best]. rewrite Hs, Ht. cbn [flt]. unfold Rltb.
    destruct (Rlt_dec bs bt) as [Hlt|Hge].
    + constructor; [now apply IH|].
      apply (Permutation_Forall (Permutation_sym (insert_by_best_perm s l))).
      constructor; [|assumption].
      exists bt, bs. repeat split; auto. lra.
    + constructor; [assumption|]. constructor.
      * exists bs, bt. repeat split; auto. lra.
      * rewrite Forall_forall in *. intros x Hx.
        destruct (Hall x Hx) as [b1 [b2 [H1 [H2 H12]]]].
        exists bs, b2. repeat split; auto.
        rewrite Ht in H1. injection H1 as <-. lra.
Qed.

Lemma sort_by_best_sorted l :
  Forall (fun e => exists b, Session.song_best_score e = Fin b) l ->
  StronglySorted best_not_below (Session.sort_by_best l).
Proof.
  unfold Session.sort_by_best. induction 1 as [|s l Hs Hl IH].
  - constructor.
  - cbn [fold_right]. apply insert_by_best_sorted; auto.
    apply (Permutation_Forall (Permutation_sym (sort_by_best_perm l))).
    assumption.
Qed.

Lemma slice_to_prefix {A : Type} (l : list A) (k : Z) :
  slice_to l k
  = firstn (Z.to_nat (norm_index (Z.of_nat (length l)) k)) l.
Proof.
  unfold slice_to, py_slice.
  replace (norm_index (Z.of_nat (length l)) 0) with 0%Z
    by (unfold norm_index; cbn; lia).
  cbn [Z.to_nat skipn]. now rewrite Z.sub_0_r.
Qed.

Lemma Forall_firstn {A : Type} (P : A -> Prop) m l :
  Forall P l -> Forall P (firstn m l).
Proof.
  intros H. revert m. induction H as [|a l Ha _ IH]; intros [|m];
    cbn [firstn]; constructor; auto.
Qed.

Lemma StronglySorted_firstn {A : Type} (R : A -> A -> Prop) m l :
  StronglySorted R l -> StronglySorted R (firstn m l).
Proof.
  intros H. revert m. induction H as [|a l Hs IH Hall]; intros [|m];
    cbn [firstn]; try constructor.
  - apply IH.
  - now apply Forall_firstn.
Qed.

Lemma NoDup_firstn {A : Type} m (l : list A) :
  NoDup l -> NoDup (firstn m l).
Proof.
  intros H. rewrite <- (firstn_skipn m l) in H.
  now apply NoDup_app_remove_r in H.
Qed.

Lemma record_result_length stats r :
  (length (Session.record_result stats r) <= length stats + 1)%nat.
Proof.
  induction stats as [|e stats IH]; cbn [Session.record_result length];
    [lia|].
  destruct (String.eqb _ _); cbn [length]; lia.
Qed.

Lemma fold_record_length rs :
  forall stats,
    (length (fold_left Session.record_result rs stats)
     <= length stats + length rs)%nat.
Proof.
  induction rs as [|r rs IH]; intros stats; cbn [fold_left length]; [lia|].
  specialize (IH (Session.record_result stats r)).
  pose proof (record_result_length stats r). lia.
Qed.

(** X20: for a user whose results all carry a finite score,
    [get_top_songs] lists each song at most once, in descending order of
    the best score, and at most [limit] songs for a non-negative limit.
    Every entry stands for the user's results of its song, across all
    sessions: the title is that of the first one, [attempts] is their
    number, [avg_score] their mean, and [best_score] the largest of their
    scores and 0.  With a limit of at least the number of results, every
    song the user sang is listed. *)
Theorem top_songs_summary (sessions : list Session.KaraokeSession)
  (name : string) (limit : Z)
  (Hfinite :
     Forall (fun r => exists x, Session.score r = Fin x)
       (flat_map Session.results (Session.get_user_history sessions name))) :
  let all :=
    flat_map Session.results (Session.get_user_history sessions name) in
  let top := Session.get_top_songs sessions name limit in
  NoDup (map Session.stats_song_id top)
  /\ StronglySorted best_not_below top
  /\ ((0 <= limit)%Z -> (length top <= Z.to_nat limit)%nat)
  /\ Forall
       (fun e =>
          exists first rest xs,
            of_song (Session.stats_song_id e) all = first :: rest
            /\ map Session.score (first :: rest) = map Fin xs
            /\ Session.stats_song_title e = Session.song_title first
            /\ Session.attempts e = length (first :: rest)
            /\ Session.avg_score e = Fin (Rmean xs)
            /\ Session.song_best_score e = Fin (fold_left Rmax xs 0))
       top
  /\ ((Z.of_nat (length all) <= limit)%Z ->
      forall r, In r all ->
                In (Session.song_id r) (map Session.stats_song_id top)).
Proof.
  cbv zeta. unfold Session.get_top_songs.
  set (all := flat_map Session.results
                (Session.get_user_history sessions name)) in *.
  set (stats := fold_left Session.record_result all []).
  destruct (song_stats_ok all) as [Hnd [Hcover Hentries]].
  fold stats in Hnd, Hcover, Hentries.
  assert (Hsummary :
            Forall
              (fun e =>
                 exists first rest xs,
                   of_song (Session.stats_song_id e) all = first :: rest
                   /\ map Session.score (first :: rest) = map Fin xs
                   /\ Session.stats_song_title e = Session.song_title first
                   /\ Session.attempts e = length (first :: rest)
                   /\ Session.avg_score e = Fin (Rmean xs)
                   /\ Session.song_best_score e
                      = Fin (fold_left Rmax xs 0)) stats).
  { rewrite Forall_forall in *. intros e He.
    destruct (Hentries e He) as [first [rest [Hsong Hfold]]].
    destruct (finite_list (map Session.score (first :: rest))) as [xs Hxs].
    { rewrite Forall_map, Forall_forall. intros r Hr. apply Hfinite.
      rewrite <- Hsong in Hr. unfold of_song in Hr.
      now apply filter_In in Hr. }
    destruct (update_stats_fold (Session.song_id first)
                (Session.song_title first) xs (first :: rest) Hxs)
      as [_ [Ht [Hn [Hb [a [Ha Hsum]]]]]].
    cbv zeta in *. rewrite <- Hfold in *.
    exists first, rest, xs. repeat split; auto.
    rewrite Ha. f_equal. unfold Rmean.
    assert (Hlen : length xs = length (first :: rest)).
    { rewrite <- (length_map Fin xs), <- Hxs. apply length_map. }
    rewrite Hlen.
    assert (Hpos : 0 < INR (length (first :: rest)))
      by (apply lt_0_INR; cbn; lia).
    rewrite <- Hsum. field. lra. }
  assert (Hperm := sort_by_best_perm stats).
  rewrite slice_to_prefix.
  set (m := Z.to_nat _).
  split; [|split; [|split; [|split]]].
  - rewrite <- firstn_map. apply NoDup_firstn.
    apply (Permutation_NoDup
             (Permutation_map _ (Permutation_sym Hperm)) Hnd).
  - apply StronglySorted_firstn. apply sort_by_best_sorted.
    rewrite Forall_forall in *. intros e He.
    destruct (Hsummary e He) as [? [? [xs [_ [_ [_ [_ [_ Hb]]]]]]]]. eauto.
  - intros Hl. rewrite length_firstn. unfold m, norm_index.
    destruct (Z.ltb_spec limit 0); lia.
  - apply Forall_firstn.
    apply (Permutation_Forall (Permutation_sym Hperm) Hsummary).
  - intros Hl r Hr.
    assert (Hm : (length (Session.sort_by_best stats) <= m)%nat).
    { rewrite (Permutation_length Hperm).
      pose proof (fold_record_length all []) as Hlen. fold stats in Hlen.
      cbn [length] in Hlen. unfold m, norm_index.
      rewrite (Permutation_length Hperm).
      destruct (Z.ltb_spec limit 0); lia. }
    rewrite firstn_all2 by assumption.
    apply (Permutation_in _
             (Permutation_map _ (Permutation_sym Hperm))).
    now apply Hcover.
Qed.

Lemma user_stats_bounds_witness :
  Session.total_songs (Session.get_user_stats demo_history "ann")
  = length (flat_map Session.results
              (Session.get_user_history demo_history "ann")).
Proof.
  apply (user_stats_bounds demo_history "ann").
  cbn. repeat (constructor; [eexists; reflexivity|]). constructor.
Defined.

Lemma top_songs_summary_witness :
  NoDup (map Session.stats_song_id
           (Session.get_top_songs demo_history "ann" 10)).
Proof.
  apply (top_songs_summary demo_history "ann" 10).
  cbn. repeat (constructor; [eexists; reflexivity|]). constructor.
Defined.

(** X21: for a user with a single session, the averages of
    [get_user_stats] are the session's own [get_average_score] and
    [get_average_accuracy], 0 included when the session has no result. *)
Theorem single_session_averages (sessions : list Session.KaraokeSession)
  (name : string) (s : Session.KaraokeSession)
  (Hsingle : Session.get_user_history sessions name = [s]) :
  Session.average_score (Session.get_user_stats sessions name)
  = Session.get_average_score s
  /\ Session.average_accuracy (Session.get_user_stats sessions name)
     = Session.get_average_accuracy s.
Proof.
  unfold Session.get_user_stats, Session.get_average_score,
    Session.get_average_accuracy.
  rewrite Hsingle. cbn [flat_map Session.average_score
                        Session.average_accuracy].
  rewrite !app_nil_r.
  destruct (Session.results s); split; reflexivity.
Qed.

Lemma single_session_averages_witness :
  Session.average_score (Session.get_user_stats demo_history "bob")
  = Session.get_average_score
      (Session.mkKaraokeSession "bob_1" "bob" "t4"
         [Session.mkSessionResult "s1" "First song" "t5"
            (Fin 40) (Fin 30) (Fin 1) (Fin 3)]).
Proof.
  apply (single_session_averages demo_history "bob").
  reflexivity.
Defined.

(** * The song library of song_manager.py *)

Lemma get_song_set_target songs song_id time pitch other :
  SongManager.get_song
    (SongManager.set_target songs song_id time pitch) other
  = if String.eqb other song_id
    then
      match SongManager.get_song songs song_id with
      | Some song =>
          Some (SongManager.mkSong (SongManager.id song)
                  (SongManager.title song) (SongManager.artist song)
                  (SongManager.audio_path song) (Some pitch) (Some time))
      | None => None
      end
    else SongManager.get_song songs other.
Proof.
  induction songs as [|[k song] songs IH].
  - cbn. now destruct (String.eqb other song_id).
  - cbn [SongManager.set_target SongManager.get_song].
    destruct (String.eqb_spec song_id k) as [E|E].
    + cbn [SongManager.get_song]. subst k.
      destruct (String.eqb_spec other song_id) as [E'|E']; reflexivity.
    + cbn [SongManager.get_song]. rewrite IH.
      destruct (String.eqb_spec other song_id) as [E'|E'].
      * subst other. now rewrite (proj2 (String.eqb_neq _ _) E).
      * reflexivity.
Qed.

Lemma set_target_ids songs song_id time pitch :
  map fst (SongManager.set_target songs song_id time pitch) = map fst songs.
Proof.
  induction songs as [|[k song] songs IH]; [reflexivity|].
  cbn [SongManager.set_target].
  destruct (String.eqb song_id k); cbn [map fst]; [reflexivity|].
  now rewrite IH.
Qed.

(** X22: [save_target_pitch] raises ValueError when the song id is not in
    the library (and [get_target_pitch] has nothing for such an id).
    Otherwise [get_target_pitch] on the same id gives back the two arrays
    just saved, the other fields of the song and every other song are as
    before, and the library lists the same ids in the same order.  A song
    without target pitch has no target data. *)
Theorem target_pitch_round_trip (songs : SongManager.library)
  (song_id : string) (time : list R) (pitch : array) :
  (SongManager.get_song songs song_id = None ->
   SongManager.save_target_pitch songs song_id time pitch = Raise ValueError
   /\ SongManager.get_target_pitch songs song_id = None)
  /\ (forall song,
        SongManager.get_song songs song_id = Some song ->
        exists songs',
          SongManager.save_target_pitch songs song_id time pitch = Ok songs'
          /\ SongManager.get_target_pitch songs' song_id
             = Some (Some time, pitch)
          /\ SongManager.get_song songs' song_id
             = Some (SongManager.mkSong (SongManager.id song)
                       (SongManager.title song) (SongManager.artist song)
                       (SongManager.audio_path song) (Some pitch)
                       (Some time))
          /\ (forall other,
                other <> song_id ->
                SongManager.get_song songs' other
                = SongManager.get_song songs other
                /\ SongManager.get_target_pitch songs' other
                   = SongManager.get_target_pitch songs other)
          /\ map fst songs' = map fst songs
          /\ (SongManager.target_pitch song = None ->
              SongManager.get_target_pitch songs song_id = None)).
Proof.
  unfold SongManager.save_target_pitch, SongManager.get_target_pitch.
  split.
  - intros ->. auto.
  - intros song Hsong. rewrite Hsong. eexists. split; [reflexivity|].
    rewrite get_song_set_target, String.eqb_refl, Hsong.
    cbn [SongManager.target_pitch SongManager.target_time].
    split; [reflexivity|]. split; [reflexivity|]. split; [|split].
    + intros other Hother. rewrite get_song_set_target.
      now rewrite (proj2 (String.eqb_neq _ _) Hother).
    + apply set_target_ids.
    + now intros ->.
Qed.
